(** * Code Kingdom: ownership attribution and treemap packing

    A shallow embedding of the algorithmic core of the extension
    (fileTree.ts, cacheManager.ts, extension.ts and the layout script of
    webviewContent.ts) together with the properties checked against it.

    Conventions.
    - A Node [Buffer] is a [list Z] of bytes (each in [0, 256)).
    - A JavaScript string is a [list Z] of UTF-16 code units, which is what
      [charCodeAt], [startsWith], [split] and [trim] observe.
    - [null] and [undefined] are [None].
    - JavaScript numbers that the code only adds, subtracts and compares are
      rationals ([Q]); counters and 32-bit hashes are integers ([Z]). *)

From Stdlib Require Import ZArith List Lia Bool Ascii String QArith Lqa.
From Stdlib Require DecimalString Sorted.
From stdpp Require Import base option list gmap.
Import ListNotations.

#[local] Open Scope Z_scope.

(** ** JavaScript strings *)

Module Js.

Definition jsstring := list Z.

(** Code units of an ASCII literal. *)
Definition str (s : String.string) : jsstring :=
  List.map (fun a => Z.of_N (N_of_ascii a)) (list_ascii_of_string s).

Definition LF : Z := 10.
Definition TAB : Z := 9.

Definition eqb (a b : jsstring) : bool := bool_decide (a = b).

(** [s.startsWith(p)] *)
Fixpoint startsWith (s p : jsstring) {struct p} : bool :=
  match p, s with
  | [], _ => true
  | _ :: _, [] => false
  | c :: p', d :: s' => (c =? d) && startsWith s' p'
  end.

(** [s.endsWith(p)] *)
Definition endsWith (s p : jsstring) : bool :=
  startsWith (rev s) (rev p).

(** [s.slice(n)] for [0 <= n]. *)
Definition slice (n : nat) (s : jsstring) : jsstring := skipn n s.

(** [s.split(sep)] for a one-unit separator: the pieces between
    occurrences of [sep]; always at least one piece. *)
Fixpoint split (sep : Z) (s : jsstring) : list jsstring :=
  match s with
  | [] => [[]]
  | c :: s' =>
      if c =? sep then [] :: split sep s'
      else match split sep s' with
           | [] => [[c]]
           | piece :: rest => (c :: piece) :: rest
           end
  end.

(** WhiteSpace and LineTerminator code units of ECMAScript, as removed
    by [String.prototype.trim]. *)
Definition isWhiteSpace (c : Z) : bool :=
  ((9 <=? c) && (c <=? 13)) || (c =? 32) || (c =? 160) || (c =? 5760)
  || ((8192 <=? c) && (c <=? 8202)) || (c =? 8232) || (c =? 8233)
  || (c =? 8239) || (c =? 8287) || (c =? 12288) || (c =? 65279).

Fixpoint trimStart (s : jsstring) : jsstring :=
  match s with
  | [] => []
  | c :: s' => if isWhiteSpace c then trimStart s' else s
  end.

Definition trim (s : jsstring) : jsstring :=
  rev (trimStart (rev (trimStart s))).

(** Truthiness of a string: the empty string is falsy. *)
Definition truthy (s : jsstring) : bool :=
  match s with [] => false | _ => true end.

(** [a || b] on strings. *)
Definition or_else (a b : jsstring) : jsstring :=
  if truthy a then a else b.

End Js.

(** ** Line counting ([countLines] in fileTree.ts) *)

Module CountLines.

(** The three variables captured by the stream handlers. *)
Record state := mkState {
  lineCount : Z;
  hasData : bool;
  lastByte : option Z
}.

Definition initial : state :=
  {| lineCount := 0; hasData := false; lastByte := None |}.

(** The inner [for] loop of the ['data'] handler. *)
Fixpoint scan (buffer : list Z) (count : Z) : Z :=
  match buffer with
  | [] => count
  | b :: rest => scan rest (if b =? 10 then count + 1 else count)
  end.

(** [buffer[buffer.length - 1]]: [undefined] on an empty buffer. *)
Definition lastOf (buffer : list Z) : option Z := last buffer.

(** The ['data'] handler. *)
Definition onData (st : state) (chunk : list Z) : state :=
  {| lineCount := scan chunk (lineCount st);
     hasData := true;
     lastByte := lastOf chunk |}.

(** [lastByte !== 10] *)
Definition notLF (b : option Z) : bool :=
  match b with
  | Some v => negb (v =? 10)
  | None => true
  end.

(** The ['end'] handler: the value the promise resolves to. *)
Definition onEnd (st : state) : Z :=
  if hasData st && notLF (lastByte st) then lineCount st + 1
  else lineCount st.

(** How the stream finishes: ['end'] or ['error']. *)
Inductive finish := End | Error.

(** [countLines]: the chunks delivered by the read stream, in order, and
    the final event. [None] is the rejected promise. *)
Definition countLines (chunks : list (list Z)) (fin : finish) : option Z :=
  match fin with
  | End => Some (onEnd (fold_left onData chunks initial))
  | Error => None
  end.

(** The value the specification gives for a whole byte stream: the
    number of line feeds, plus one for a final partial line. *)
Definition countLF (bytes : list Z) : Z :=
  Z.of_nat (List.length (List.filter (fun b => b =? 10) bytes)).

Definition lineCountSpec (bytes : list Z) : Z :=
  countLF bytes +
  match last bytes with
  | None => 0
  | Some b => if b =? 10 then 0 else 1
  end.

End CountLines.

(** ** Blame parsing and segment compression ([getBlameSegments]) *)

Module Blame.
Import Js.

Record BlameSegment := mkSegment {
  author : jsstring;
  lines : Z
}.

(** One iteration of [for (const line of lines)]: the state is the
    [authors] array and [currentAuthor]. *)
Definition parseLine (st : list jsstring * jsstring) (line : jsstring)
  : list jsstring * jsstring :=
  let '(authors, currentAuthor) := st in
  if startsWith line (str "author ") then
    (authors, or_else (trim (slice 7 line)) (str "Unknown"))
  else if startsWith line [TAB] then
    (authors ++ [or_else currentAuthor (str "Unknown")], currentAuthor)
  else st.

Definition parseAuthors (stdout : jsstring) : list jsstring :=
  fst (fold_left parseLine (split LF stdout) ([], [])).

(** The compression loop: [segments], [last] and [count]. *)
Record run := mkRun {
  segments : list BlameSegment;
  lastAuthor : jsstring;
  count : Z
}.

Definition compressStep (st : run) (a : jsstring) : run :=
  if eqb a (lastAuthor st) then
    {| segments := segments st; lastAuthor := lastAuthor st;
       count := count st + 1 |}
  else
    {| segments := segments st ++ [mkSegment (lastAuthor st) (count st)];
       lastAuthor := a; count := 1 |}.

Definition compress (authors : list jsstring) : option (list BlameSegment) :=
  match authors with
  | [] => None
  | first :: rest =>
      let st := fold_left compressStep rest
                  {| segments := []; lastAuthor := first; count := 1 |} in
      Some (segments st ++ [mkSegment (lastAuthor st) (count st)])
  end.

(** [getBlameSegments]: [exec] is the outcome of running
    [git blame --line-porcelain] on the file, [None] when the command
    fails (the [catch] branch). *)
Definition getBlameSegments (exec : option jsstring)
  : option (list BlameSegment) :=
  match exec with
  | None => None
  | Some stdout => compress (parseAuthors stdout)
  end.

(** A segment list written back out as one author per line. *)
Definition expand (segs : list BlameSegment) : list jsstring :=
  List.concat
    (List.map (fun s => repeat (author s) (Z.to_nat (lines s))) segs).

Definition sumLines (segs : list BlameSegment) : Z :=
  fold_right (fun s acc => lines s + acc) 0 segs.

(** No two neighbouring segments carry the same author. *)
Fixpoint adjacentDistinct (segs : list BlameSegment) : Prop :=
  match segs with
  | s1 :: ((s2 :: _) as rest) => author s1 <> author s2 /\ adjacentDistinct rest
  | _ => True
  end.

(** The shape of [git blame --line-porcelain] output: for each line of
    the file a group of header lines followed by the line itself behind
    a TAB; every output line ends in LF. *)
Record entry := mkEntry {
  headers : list jsstring;
  text : jsstring
}.

Definition noLF (s : jsstring) : bool :=
  forallb (fun c => negb (c =? LF)) s.

Definition wellFormedEntry (e : entry) : bool :=
  forallb (fun h => noLF h && negb (startsWith h [TAB])) (headers e)
  && noLF (text e).

Definition renderEntry (e : entry) : jsstring :=
  List.concat (List.map (fun h => h ++ [LF]) (headers e))
  ++ [TAB] ++ text e ++ [LF].

Definition renderPorcelain (es : list entry) : jsstring :=
  List.concat (List.map renderEntry es).

(** The physical lines of a file: the runs of bytes that end at a line
    feed, and a final run without line feed when it is not empty.
    [cur] is the run read so far. *)
Fixpoint linesFrom (cur : list Z) (bytes : list Z) : list (list Z) :=
  match bytes with
  | [] => match cur with [] => [] | _ :: _ => [cur] end
  | b :: rest =>
      if b =? 10 then cur :: linesFrom [] rest
      else linesFrom (cur ++ [b]) rest
  end.

Definition physicalLines (bytes : list Z) : list (list Z) :=
  linesFrom [] bytes.

(** The segment list the loop would return if it stopped now. *)
Definition close (st : run) : list BlameSegment :=
  segments st ++ [mkSegment (lastAuthor st) (count st)].

Definition adjacentDistinctAt (segs : list BlameSegment) : Prop :=
  forall i s1 s2,
    segs !! i = Some s1 -> segs !! S i = Some s2 -> author s1 <> author s2.

(** Invariant of the compression loop. *)
Record inv (st : run) : Prop := mkInv {
  inv_count : 1 <= count st;
  inv_lines : Forall (fun s => 1 <= lines s) (segments st);
  inv_adjacent : adjacentDistinctAt (close st)
}.

(** The output lines of one entry. *)
Definition linesOf (e : entry) : list jsstring :=
  headers e ++ [TAB :: text e].

End Blame.

(** ** Paths ([path.join], [path.basename], [path.relative], POSIX) *)

Module Path.
Import Js.

(** A normalised absolute path is the list of its components. *)
Definition path := list jsstring.

Definition SLASH : Z := 47.
Definition BACKSLASH : Z := 92.
Definition DOT : Z := 46.

Fixpoint joinWith (sep : jsstring) (parts : list jsstring) : jsstring :=
  match parts with
  | [] => []
  | [p] => p
  | p :: rest => p ++ sep ++ joinWith sep rest
  end.

(** The string form, e.g. [/repo/src]. *)
Definition render (p : path) : jsstring :=
  match p with
  | [] => [SLASH]
  | _ => List.concat (List.map (fun c => SLASH :: c) p)
  end.

Definition join (p : path) (entry : jsstring) : path := p ++ [entry].

Definition basename (p : path) : jsstring := List.last p [].

(** Longest common prefix removed from both paths. *)
Fixpoint stripCommon (base abs : path) : path * path :=
  match base, abs with
  | b :: base', a :: abs' =>
      if eqb b a then stripCommon base' abs' else (base, abs)
  | _, _ => (base, abs)
  end.

(** [path.relative(base, abs)]: one [..] for every component of [base]
    left after the common prefix, then what is left of [abs]. *)
Definition relative (base abs : path) : jsstring :=
  let '(up, down) := stripCommon base abs in
  joinWith [SLASH] (List.map (fun _ => [DOT; DOT]) up ++ down).

(** [s.replace(/\\/g, '/')] *)
Definition backslashesToSlashes (s : jsstring) : jsstring :=
  List.map (fun c => if c =? BACKSLASH then SLASH else c) s.

(** [base] is [abs] or one of its ancestors. *)
Definition contains (base abs : path) : Prop := base `prefix_of` abs.

End Path.

(** ** Layered ignore rules ([shouldIgnorePath]) *)

Module Ignore.
Import Js Path.

(** What [matcher.test(relativePath)] of the [ignore] package returns. *)
Record TestResult := mkTest {
  ignored : bool;
  unignored : bool
}.

(** An [Ignore] instance, seen through what its rules answer for a
    relative path.  The [test] method checks the path before it
    consults the rules and throws on a path it refuses: see [test]
    below. *)
Definition Matcher := jsstring -> TestResult.

Record IgnoreEntry := mkEntry {
  base : path;
  matcher : Matcher
}.

(** The string handed to the matcher. *)
Definition matchedPath (relativePath : jsstring) (isDir : bool) : jsstring :=
  let r := backslashesToSlashes relativePath in
  if isDir && negb (endsWith r [SLASH]) then r ++ [SLASH] else r.

(** One iteration of [for (const entry of stack)], with a [test] that
    answers. *)
Definition ignoreStep (absPath : path) (isDir : bool)
    (ignoredSoFar : bool) (entry : IgnoreEntry) : bool :=
  let relativePath := relative (base entry) absPath in
  if startsWith relativePath [DOT; DOT] then ignoredSoFar
  else
    let result := matcher entry (matchedPath relativePath isDir) in
    let i1 := if ignored result then true else ignoredSoFar in
    if unignored result then false else i1.

(** The value [shouldIgnorePath] returns when no [test] throws. *)
Definition shouldIgnorePath (absPath : path) (isDir : bool)
    (stack : list IgnoreEntry) : bool :=
  fold_left (ignoreStep absPath isDir) stack false.

(** The path check of the [ignore] package, run by [test] before the
    rules: it throws a [TypeError] on the empty path and a [RangeError]
    on a path that matches [/^\.*\/|^\.+$/], that is, one that begins,
    after any number of dots, with a slash, or that consists of dots. *)
Fixpoint dropDots (s : jsstring) : jsstring :=
  match s with
  | [] => []
  | c :: s' => if c =? DOT then dropDots s' else s
  end.

Definition invalidPath (rel : jsstring) : bool :=
  match dropDots rel with
  | [] => true
  | c :: _ => c =? SLASH
  end.

(** [matcher.test(relativePath)]: [None] when the call throws. *)
Definition test (m : Matcher) (rel : jsstring) : option TestResult :=
  if invalidPath rel then None else Some (m rel).

(** The loop of [shouldIgnorePath] with the exception of [test]: [None]
    when some call of [test] throws, which ends the loop and the call.
    [shouldIgnorePath] above is the value returned when none does. *)
Definition ignoreStepOrThrow (absPath : path) (isDir : bool)
    (acc : option bool) (entry : IgnoreEntry) : option bool :=
  match acc with
  | None => None
  | Some ignoredSoFar =>
      let relativePath := relative (base entry) absPath in
      if startsWith relativePath [DOT; DOT] then Some ignoredSoFar
      else
        match test (matcher entry) (matchedPath relativePath isDir) with
        | None => None
        | Some result =>
            let i1 := if ignored result then true else ignoredSoFar in
            Some (if unignored result then false else i1)
        end
  end.

Definition shouldIgnorePathOrThrow (absPath : path) (isDir : bool)
    (stack : list IgnoreEntry) : option bool :=
  fold_left (ignoreStepOrThrow absPath isDir) stack (Some false).

(** The entry is consulted for the path and refuses it. *)
Definition refuses (absPath : path) (isDir : bool) (entry : IgnoreEntry)
  : bool :=
  let relativePath := relative (base entry) absPath in
  negb (startsWith relativePath [DOT; DOT])
  && invalidPath (matchedPath relativePath isDir).

(** The decision procedure in the words of the specification: an entry
    whose base contains the path asserts what its matcher says about the
    path relative to that base; other entries assert nothing. *)
Definition assertion (absPath : path) (isDir : bool) (entry : IgnoreEntry)
  : option bool :=
  if bool_decide (contains (base entry) absPath) then
    let result :=
      matcher entry
        (matchedPath (joinWith [SLASH] (skipn (List.length (base entry)) absPath))
                     isDir) in
    if unignored result then Some false
    else if ignored result then Some true
    else None
  else None.

Definition lastAssertionWins (absPath : path) (isDir : bool)
    (stack : list IgnoreEntry) : bool :=
  fold_left (fun acc e => match assertion absPath isDir e with
                          | Some b => b
                          | None => acc
                          end) stack false.

(** The matcher built by [ignore().add(name)] for a pattern that is a
    plain name (no slash, no wildcard), or its negation [!name],
    on relative paths: the rule fires when some component of the path
    is [name]. *)
Definition components (rel : jsstring) : list jsstring :=
  List.filter truthy (split SLASH rel).

Definition nameRule (negated : bool) (name : jsstring) : Matcher :=
  fun rel =>
    if existsb (eqb name) (components rel) then
      {| ignored := negb negated; unignored := negated |}
    else {| ignored := false; unignored := false |}.

End Ignore.

(** ** The file tree ([FileNode]) and the attribution pass *)

Module Tree.
Import Js Blame.

Inductive NodeType := File | Folder.

(** [interface FileNode]; optional fields are [option]s. *)
#[local] Unset Elimination Schemes.
Inductive FileNode := mkFileNode {
  name : jsstring;
  path : jsstring;
  type : NodeType;
  isText : option bool;
  lineCount : option Z;
  blameSegments : option (list BlameSegment);
  children : option (list FileNode)
}.
#[local] Set Elimination Schemes.

Definition isFile (n : FileNode) : bool :=
  match type n with File => true | Folder => false end.

(** [file.blameSegments = segments] *)
Definition setBlameSegments (segs : list BlameSegment) (n : FileNode)
  : FileNode :=
  mkFileNode (name n) (path n) (type n) (isText n) (lineCount n)
             (Some segs) (children n).

Definition setChildren (cs : option (list FileNode)) (n : FileNode)
  : FileNode :=
  mkFileNode (name n) (path n) (type n) (isText n) (lineCount n)
             (blameSegments n) cs.

(** [rootNode.name = workspaceFolder.name] *)
Definition setName (nm : jsstring) (n : FileNode) : FileNode :=
  mkFileNode nm (path n) (type n) (isText n) (lineCount n)
             (blameSegments n) (children n).

(** Number of nodes of a tree. *)
Fixpoint size (n : FileNode) : nat :=
  S (match children n with
     | Some cs => list_sum (List.map size cs)
     | None => 0
     end).

(** A reference to a node object inside the tree rooted at [root]: the
    child indices on the way down from the root. Two references are the
    same object exactly when they are the same position. *)
Definition position := list nat.

Fixpoint lookupAt (n : FileNode) (p : position) : option FileNode :=
  match p with
  | [] => Some n
  | i :: p' =>
      match children n with
      | Some cs =>
          match cs !! i with
          | Some c => lookupAt c p'
          | None => None
          end
      | None => None
      end
  end.

(** In-place mutation of the node at position [p]. *)
Fixpoint updateAt (f : FileNode -> FileNode) (n : FileNode) (p : position)
  : FileNode :=
  match p with
  | [] => f n
  | i :: p' =>
      match children n with
      | Some cs =>
          match cs !! i with
          | Some c => setChildren (Some (<[i := updateAt f c p']> cs)) n
          | None => n
          end
      | None => n
      end
  end.

(** The children of the node at [p], each with its own position. *)
Definition childRefs (p : position) (cs : list FileNode)
  : list (position * FileNode) :=
  imap (fun i c => (p ++ [i], c)) cs.

(** [collectFileNodes]: the [while (stack.length > 0)] loop. The head of
    [stack] is the top of the JavaScript array (the element [pop]
    returns); pushing the children one after the other leaves the last
    child on top. [fuel] bounds the number of iterations. *)
Fixpoint collectLoop (fuel : nat) (stack files : list (position * FileNode))
  : option (list (position * FileNode)) :=
  match stack with
  | [] => Some files
  | (p, node) :: rest =>
      match fuel with
      | O => None
      | S fuel' =>
          if isFile node then collectLoop fuel' rest (files ++ [(p, node)])
          else match children node with
               | Some cs =>
                   collectLoop fuel' (rev (childRefs p cs) ++ rest) files
               | None => collectLoop fuel' rest files
               end
      end
  end.

Definition collectFileNodes (root : FileNode)
  : option (list (position * FileNode)) :=
  collectLoop (size root) [([], root)] [].

(** The measure that bounds the loop: the nodes still on the stack. *)
Definition stackSize (stack : list (position * FileNode)) : nat :=
  list_sum (List.map (fun e => size (snd e)) stack).

(** A reference and the node it was taken from. *)
Definition refersTo (root : FileNode) (ref : position * FileNode) : Prop :=
  lookupAt root (fst ref) = Some (snd ref).

(** One call of [onProgress(done, total, file.path)]. *)
Record progress := mkProgress {
  done : Z;
  total : Z;
  filePath : jsstring
}.

Section AddBlameInfo.

(** Running [git -C repoRoot blame --line-porcelain -- path]: the
    standard output, or [None] when the command fails. *)
Variable gitBlame : jsstring -> option jsstring.

(** [!file.isText] *)
Definition notText (n : FileNode) : bool :=
  match isText n with Some true => false | _ => true end.

(** One iteration of [for (const file of files)]; the state is the
    tree as mutated so far, the progress calls made and [done]. *)
Definition blameStep (totalFiles : Z)
    (st : FileNode * list progress * Z) (ref : position * FileNode)
  : FileNode * list progress * Z :=
  let '(cur, log, doneSoFar) := st in
  let done' := doneSoFar + 1 in
  match lookupAt cur (fst ref) with
  | None => (cur, log, done')
  | Some file =>
      let log' := log ++ [mkProgress done' totalFiles (path file)] in
      if notText file then (cur, log', done')
      else
        match getBlameSegments (gitBlame (path file)) with
        | Some segs =>
            if (0 <? Z.of_nat (List.length segs))
            then (updateAt (setBlameSegments segs) cur (fst ref), log', done')
            else (cur, log', done')
        | None => (cur, log', done')
        end
  end.

(** [addBlameInfo]: the tree after the pass and the progress calls. *)
Definition addBlameInfo (root : FileNode)
  : option (FileNode * list progress) :=
  match collectFileNodes root with
  | None => None
  | Some files =>
      let totalFiles := Z.of_nat (List.length files) in
      let '(cur, log, _) :=
        fold_left (blameStep totalFiles) files (root, [], 0) in
      Some (cur, log)
  end.

(** What the pass is allowed to do to a node: nothing but attach the
    blame result to a text file whose query gave segments. *)
Definition attributed (old new : FileNode) : Prop :=
  blameSegments new = blameSegments old \/
  (type old = File /\ isText old = Some true /\
   exists segs, getBlameSegments (gitBlame (path old)) = Some segs /\
                segs <> [] /\ blameSegments new = Some segs).

(** Same tree up to attribution: every field but [blameSegments] is
    equal, the children correspond one to one, and [blameSegments]
    differs only as [attributed] allows. *)
#[local] Unset Elimination Schemes.
Inductive framed : FileNode -> FileNode -> Prop :=
| framed_node old new :
    name new = name old ->
    path new = path old ->
    type new = type old ->
    isText new = isText old ->
    lineCount new = lineCount old ->
    attributed old new ->
    option_Forall2 (Forall2 framed) (children old) (children new) ->
    framed old new.
#[local] Set Elimination Schemes.

End AddBlameInfo.

End Tree.

(** ** Building the tree ([isTextFile], [buildNode], [buildFileTree]) *)

Module Build.
Import Js Path Ignore Tree.

(** An awaited promise: fulfilled with a value, or rejected. *)
Inductive result (A : Type) :=
| Ok (a : A)
| Rejected.
Arguments Ok {A} a.
Arguments Rejected {A}.

(** The file system below one path, as the walk observes it.
    - [Inaccessible]: [fs.promises.stat] throws.
    - [RegularFile opened chunks fin]: [opened] is the content seen by
      [open]/[read] in [isTextFile] ([None] when one of them throws);
      [chunks] and [fin] are the events of the read stream of
      [countLines].
    - [Directory localIgnore entries]: [localIgnore] is the matcher of
      the directory's own [.gitignore] ([None] when there is none);
      [entries] is what [readdir] returns ([None] when it throws), each
      name with what lies below it. *)
#[local] Unset Elimination Schemes.
Inductive FsEntry :=
| Inaccessible
| RegularFile (opened : option (list Z)) (chunks : list (list Z))
              (fin : CountLines.finish)
| Directory (localIgnore : option Matcher)
            (entries : option (list (jsstring * FsEntry))).
#[local] Set Elimination Schemes.

(** The loop over the bytes read: [false] at the first NUL. *)
Fixpoint noNul (buffer : list Z) : bool :=
  match buffer with
  | [] => true
  | b :: rest => if b =? 0 then false else noNul rest
  end.

(** [isTextFile]: at most 8192 bytes are read from offset 0; the
    [catch] branch answers [false]. *)
Definition isTextFile (opened : option (list Z)) : bool :=
  match opened with
  | Some content => noNul (firstn (Z.to_nat 8192) content)
  | None => false
  end.

Section Walk.

(** [a.localeCompare(b)]: negative, zero or positive. *)
Variable localeCompare : jsstring -> jsstring -> Z.

(** The comparator given to [children.sort]. *)
Definition compareNodes (a b : FileNode) : Z :=
  match type a, type b with
  | Folder, File => -1
  | File, Folder => 1
  | _, _ => localeCompare (name a) (name b)
  end.

(** [Array.prototype.sort] is stable: an element stays before a later
    one unless the comparator says it comes after it. *)
Fixpoint insertSorted (x : FileNode) (sorted : list FileNode)
  : list FileNode :=
  match sorted with
  | [] => [x]
  | y :: rest =>
      if compareNodes x y <=? 0 then x :: sorted
      else y :: insertSorted x rest
  end.

Definition sortNodes (nodes : list FileNode) : list FileNode :=
  fold_right insertSorted [] nodes.

(** [relativePath ? path.join(relativePath, entry) : entry] *)
Definition entryRelative (relativePath entry : jsstring) : jsstring :=
  if truthy relativePath then relativePath ++ [SLASH] ++ entry
  else entry.

Fixpoint buildNode (e : FsEntry) (currentPath : Path.path)
    (relativePath : jsstring) (ignoreStack : list IgnoreEntry)
  : result (option FileNode) :=
  match e with
  | Inaccessible => Ok None
  | Directory localIgnore entries =>
      (* if (relativePath && shouldIgnorePath(currentPath, true, ...)) *)
      match (if truthy relativePath
             then shouldIgnorePathOrThrow currentPath true ignoreStack
             else Some false) with
      | None => Rejected
      | Some true => Ok None
      | Some false =>
        let nextStack :=
          match localIgnore with
          | Some m => ignoreStack ++ [mkEntry currentPath m]
          | None => ignoreStack
          end in
        match entries with
        | None => Ok None
        | Some es =>
            let walked :=
              (fix each (es : list (jsstring * FsEntry))
                   (children : list FileNode)
                 : result (list FileNode) :=
                 match es with
                 | [] => Ok children
                 | (entry, below) :: es' =>
                     match buildNode below (join currentPath entry)
                             (entryRelative relativePath entry) nextStack with
                     | Rejected => Rejected
                     | Ok (Some childNode) => each es' (children ++ [childNode])
                     | Ok None => each es' children
                     end
                 end) es [] in
            match walked with
            | Rejected => Rejected
            | Ok children =>
                Ok (Some
                  (mkFileNode (basename currentPath) (render currentPath)
                     Folder None None None
                     (match children with
                      | [] => None
                      | _ :: _ => Some (sortNodes children)
                      end)))
            end
        end
      end
  | RegularFile opened chunks fin =>
      match shouldIgnorePathOrThrow currentPath false ignoreStack with
      | None => Rejected
      | Some true => Ok None
      | Some false =>
        let textFile := isTextFile opened in
        if textFile then
          match CountLines.countLines chunks fin with
          | None => Rejected
          | Some n =>
              Ok (Some (mkFileNode (basename currentPath)
                          (render currentPath) File (Some true) (Some n)
                          None None))
          end
        else
          Ok (Some (mkFileNode (basename currentPath) (render currentPath)
                      File (Some false) None None None))
      end
  end.

(** [buildFileTree]: [isGit] is the answer of [isGitRepository],
    [rootMatcher] the matcher of [loadRootIgnore]. *)
Definition buildFileTree (isGit : bool) (workspaceName : jsstring)
    (rootPath : Path.path) (rootMatcher : Matcher) (fs : FsEntry)
  : result (option FileNode) :=
  if negb isGit then Ok None
  else
    match buildNode fs rootPath [] [mkEntry rootPath rootMatcher] with
    | Rejected => Rejected
    | Ok None => Ok None
    | Ok (Some rootNode) => Ok (Some (setName workspaceName rootNode))
    end.

End Walk.

End Build.

(** ** The revision cache ([CacheManager]) and the command that uses it *)

Module Extension.
Import Js Tree.

(** A call that returns or throws an [Error] with a message. *)
Inductive outcome (A : Type) :=
| Return (a : A)
| Throw (message : jsstring).
Arguments Return {A} a.
Arguments Throw {A} message.

(** [vscode.ExtensionContext], of which only [storageUri] is read:
    [undefined] when no workspace storage is provisioned. *)
Record ExtensionContext := mkContext {
  storageUri : option jsstring
}.

Record CacheManager := mkCacheManager {
  cacheDir : jsstring
}.

(** [new CacheManager(context)] *)
Definition newCacheManager (context : ExtensionContext)
  : outcome CacheManager :=
  match storageUri context with
  | None => Throw (str "Workspace storage is not available")
  | Some uri => Return (mkCacheManager uri)
  end.

Definition getCacheFilePath (cm : CacheManager) (hash : jsstring) : jsstring :=
  cacheDir cm ++ [Path.SLASH] ++ str "blame_cache_" ++ hash ++ str ".json".

(** The files of the storage directory: their contents by path, and
    whether [writeFile] succeeds there (which takes that the directory
    exists: [ensureStorageDir], started by the constructor, tries to
    create it and swallows a failure).  The directory itself and the
    mementos of VS Code ([workspaceState], [globalState]), which the
    command also updates, are not part of this record. *)
Record disk := mkDisk {
  files : gmap (list Z) (list Z);
  writable : bool
}.

(** What the command leaves in the panel. *)
Inductive page :=
| LoadingPage
| TreePage (tree : FileNode)
| CannotBuildPage
| BuildErrorPage (message : jsstring).

Section Command.

(** [JSON.stringify] and [JSON.parse] on trees; parsing answers
    [None] when it throws or yields no tree. *)
Variable stringify : FileNode -> jsstring.
Variable parse : jsstring -> option FileNode.

(** [getBlameCache]: every failure is a miss. *)
Definition getBlameCache (d : disk) (cm : CacheManager) (hash : jsstring)
  : option FileNode :=
  match files d !! getCacheFilePath cm hash with
  | Some content => parse content
  | None => None
  end.

(** [saveBlameCache]: a failed write is logged and swallowed. *)
Definition saveBlameCache (d : disk) (cm : CacheManager) (hash : jsstring)
    (data : FileNode) : outcome disk :=
  if writable d then
    Return (mkDisk (<[getCacheFilePath cm hash := stringify data]> (files d))
                   (writable d))
  else Return d.

(** [if (commitHash)]: [null] and the empty string are falsy. *)
Definition usableHash (commitHash : option jsstring) : option jsstring :=
  match commitHash with
  | Some h => if truthy h then Some h else None
  | None => None
  end.

(** The handler of [code-kingdom.showFileTree] from the point where
    the panel shows the loading page, as far as the panel and the cache
    files go. [commitHash] is the answer of [getCurrentCommitHash],
    [built] that of [buildFileTree] and [attribute] the effect of
    [addBlameInfo] on the tree. The result is the page left in the
    panel and the files of the storage directory, or the error with
    which the handler's promise is rejected (the panel then keeps the
    loading page). *)
Definition showFileTree (context : ExtensionContext) (d : disk)
    (commitHash : option jsstring)
    (built : outcome (option FileNode))
    (attribute : FileNode -> FileNode)
  : outcome (page * disk) :=
  match newCacheManager context with
  | Throw m => Throw m
  | Return cacheManager =>
      (* try { ... } catch (error) { getErrorHtml(...) } *)
      let cached :=
        match usableHash commitHash with
        | Some h => getBlameCache d cacheManager h
        | None => None
        end in
      match cached with
      | Some fileTree => Return (TreePage fileTree, d)
      | None =>
          match built with
          | Throw m => Return (BuildErrorPage m, d)
          | Return None => Return (CannotBuildPage, d)
          | Return (Some fileTree) =>
              let fileTree' := attribute fileTree in
              match usableHash commitHash with
              | Some h =>
                  match saveBlameCache d cacheManager h fileTree' with
                  | Throw m => Return (BuildErrorPage m, d)
                  | Return d' => Return (TreePage fileTree', d')
                  end
              | None => Return (TreePage fileTree', d)
              end
          end
      end
  end.

End Command.

End Extension.

(** ** Author colours ([colorForAuthor], [colorForAuthorHex]) *)

Module Color.
Import Js.

(** ECMAScript [ToInt32]. *)
Definition toInt32 (z : Z) : Z :=
  let m := z mod 2 ^ 32 in
  if m <? 2 ^ 31 then m else m - 2 ^ 32.

(** [a | b] *)
Definition bitOr (a b : Z) : Z :=
  toInt32 (Z.lor (toInt32 a) (toInt32 b)).

(** [hash = (hash * 31 + author.charCodeAt(i)) | 0] *)
Definition hashStep (hash c : Z) : Z := bitOr (hash * 31 + c) 0.

Definition hashOf (author : jsstring) : Z := fold_left hashStep author 0.

(** [Math.abs(hash) % 360] *)
Definition hueOf (author : jsstring) : Z := Z.rem (Z.abs (hashOf author)) 360.

(** Decimal rendering of an integer, as string concatenation does it. *)
Definition numberToString (n : Z) : jsstring :=
  str (DecimalString.NilZero.string_of_int (Z.to_int n)).

(** The rolling hash in the words of the specification: the polynomial
    in 31 over the code units, wrapped once to 32-bit signed. *)
Definition polynomial (author : jsstring) : Z :=
  fold_left (fun acc c => acc * 31 + c) author 0.

(** The names of the properties that every plain object inherits from
    [Object.prototype]. Read through [o[name]] they give a function, or
    for [__proto__] the prototype object itself: a truthy value that is
    not a string. *)
Definition objectPrototypeNames : list jsstring :=
  List.map str
    ["constructor"; "hasOwnProperty"; "isPrototypeOf";
     "propertyIsEnumerable"; "toLocaleString"; "toString"; "valueOf";
     "__proto__"; "__defineGetter__"; "__defineSetter__";
     "__lookupGetter__"; "__lookupSetter__"]%string.

(** What a property read gives on a plain object whose own properties
    hold strings: such a string, or the inherited member of that
    name. *)
Inductive value :=
| VString (s : jsstring)
| VInherited (name : jsstring).

(** [o[key]]: the own property first, then the prototype; [None] is
    [undefined]. The map holds the own properties of the object. *)
Definition getProperty (o : gmap (list Z) (list Z)) (key : jsstring)
  : option value :=
  match o !! key with
  | Some s => Some (VString s)
  | None =>
      if bool_decide (key ∈ objectPrototypeNames) then Some (VInherited key)
      else None
  end.

(** Truthiness of what a property read gives. *)
Definition truthyValue (v : option value) : bool :=
  match v with
  | Some (VString s) => truthy s
  | Some (VInherited _) => true
  | None => false
  end.

(** [!!o[key]] *)
Definition coloured (o : gmap (list Z) (list Z)) (key : jsstring) : bool :=
  truthyValue (getProperty o key).

(** The object the script of the page sees for a colour map:
    [const authorColors = ${colorJson}] evaluates the JSON text as an
    object literal, in which the key ["__proto__"] with a string value
    defines no property (and leaves the prototype as it is). *)
Definition pageColors (colors : gmap (list Z) (list Z))
  : gmap (list Z) (list Z) :=
  delete (str "__proto__") colors.

(** [colorForAuthor] of the layout script; [authorColors] holds the own
    properties of the object embedded in the page. *)
Definition colorForAuthor (authorColors : gmap (list Z) (list Z))
    (author : jsstring) : value :=
  match getProperty authorColors author with
  | Some v =>
      if truthyValue (Some v) then v
      else VString (str "hsl(" ++ numberToString (hueOf author)
                    ++ str ", 55%, 45%)")
  | None =>
      VString (str "hsl(" ++ numberToString (hueOf author)
               ++ str ", 55%, 45%)")
  end.

Section Hex.

(** [hslToHex(h, s, l)] of extension.ts works in floating point and
    is kept abstract. *)
Variable hslToHex : Z -> Z -> Z -> jsstring.

Definition colorForAuthorHex (author : jsstring) : jsstring :=
  hslToHex (hueOf author) 55 45.

(** [ensureAuthorColors]: [if (!colors[author]) colors[author] = ...]
    for every author. The read goes through the prototype, so a name
    that [Object.prototype] holds counts as coloured; the write, which
    is reached only when the read is falsy, sets an own property. *)
Definition ensureAuthorColors (colors : gmap (list Z) (list Z))
    (authors : list jsstring) : gmap (list Z) (list Z) :=
  fold_left (fun m a =>
               if coloured m a then m
               else <[a := colorForAuthorHex a]> m) authors colors.

End Hex.

End Color.

(** ** Rectangle packing ([packMaxRects], [pruneFreeRects]) *)

Module Packing.
#[local] Open Scope Q_scope.

(** JavaScript numbers are modelled by rationals. The packing only adds,
    subtracts and compares. On the values it meets at run time (integer
    rectangle sizes, a target width that is any double) double precision
    takes the same decisions: sums of integers are exact, the difference
    between a region's side and the side of a rectangle that fits it is
    exact, and of any other difference only the sign is used. *)

Definition leb (a b : Q) : bool := Qle_bool a b.
Definition ltb (a b : Q) : bool := negb (Qle_bool b a).
Definition max (a b : Q) : Q := if leb a b then b else a.  (* Math.max *)
Definition min (a b : Q) : Q := if leb a b then a else b.  (* Math.min *)

(** [CONFIG.gap] *)
Definition gap : Q := 4.

(** An input rectangle: [width], [height] and whatever else the object
    carries (the laid-out child node). *)
Record rect (A : Type) := mkRect {
  node : A;
  width : Q;
  height : Q
}.
Arguments mkRect {A} node width height.
Arguments node {A} r.
Arguments width {A} r.
Arguments height {A} r.

(** [{ ...rect, x, y }] *)
Record placedRect (A : Type) := mkPlaced {
  source : rect A;
  x : Q;
  y : Q
}.
Arguments mkPlaced {A} source x y.
Arguments source {A} p.
Arguments x {A} p.
Arguments y {A} p.

Record freeRect := mkFree {
  fx : Q;
  fy : Q;
  fwidth : Q;
  fheight : Q
}.

(** [{ width: maxX, height: maxY, children: placed }] *)
Record packed (A : Type) := mkPacked {
  packedWidth : Q;
  packedHeight : Q;
  children : list (placedRect A)
}.
Arguments mkPacked {A} packedWidth packedHeight children.
Arguments packedWidth {A} p.
Arguments packedHeight {A} p.
Arguments children {A} p.

(** The test of [pruneFreeRects]: [a] lies inside [b]. *)
Definition containedIn (a b : freeRect) : bool :=
  leb (fx b) (fx a) && leb (fy b) (fy a)
  && leb (fx a + fwidth a) (fx b + fwidth b)
  && leb (fy a + fheight a) (fy b + fheight b).

(** The inner loop over [j], skipping [j = i]. *)
Fixpoint coveredBy (a : freeRect) (i j : nat) (l : list freeRect) : bool :=
  match l with
  | [] => false
  | b :: rest =>
      (negb (Nat.eqb i j) && containedIn a b) || coveredBy a i (S j) rest
  end.

(** The outer loop, from index [i - 1] down to 0, splicing in place. *)
Fixpoint pruneFrom (i : nat) (l : list freeRect) : list freeRect :=
  match i with
  | O => l
  | S i' =>
      pruneFrom i'
        (match l !! i' with
         | Some a => if coveredBy a i' 0 l then delete i' l else l
         | None => l
         end)
  end.

Definition pruneFreeRects (l : list freeRect) : list freeRect :=
  pruneFrom (List.length l) l.

(** Two boxes, each given by corner, width and height, have no interior
    point in common. *)
Definition apart (x1 y1 w1 h1 x2 y2 w2 h2 : Q) : Prop :=
  x1 + w1 <= x2 \/ x2 + w2 <= x1 \/ y1 + h1 <= y2 \/ y2 + h2 <= y1.

Definition freeApart (f g : freeRect) : Prop :=
  apart (fx f) (fy f) (fwidth f) (fheight f)
        (fx g) (fy g) (fwidth g) (fheight g).

Section Pack.
Context {A : Type}.

Definition maxDim (r : rect A) : Q := max (width r) (height r).

(** [rects.slice().sort((a, b) => bMax - aMax)]: a stable sort, the
    larger maximum dimension first. *)
Fixpoint insertRect (r : rect A) (sorted : list (rect A)) : list (rect A) :=
  match sorted with
  | [] => [r]
  | s :: rest =>
      if leb (maxDim s - maxDim r) 0 then r :: sorted
      else s :: insertRect r rest
  end.

Definition sortRects (rects : list (rect A)) : list (rect A) :=
  fold_right insertRect [] rects.

Definition totalHeight (rects : list (rect A)) : Q :=
  fold_left (fun sum r => sum + height r) rects 0
  + inject_Z (Z.of_nat (List.length rects)) * gap.

Definition fits (r : rect A) (fr : freeRect) : bool :=
  leb (width r) (fwidth fr) && leb (height r) (fheight fr).

(** The search for the best free rectangle. [bestIndex = None] is
    [-1] and [bestScore = None] is [Infinity]. *)
Fixpoint findBest (r : rect A) (freeRects : list freeRect) (i : nat)
    (bestIndex : option nat) (bestScore : option Q) : option nat :=
  match freeRects with
  | [] => bestIndex
  | fr :: rest =>
      if fits r fr then
        let score := min (fwidth fr - width r) (fheight fr - height r) in
        let better := match bestScore with
                      | None => true
                      | Some b => ltb score b
                      end in
        if better then findBest r rest (S i) (Some i) (Some score)
        else findBest r rest (S i) bestIndex bestScore
      else findBest r rest (S i) bestIndex bestScore
  end.

(** The body of [for (const rect of sorted)]. [None] is the
    [TypeError] of reading [target.x] when [freeRects[bestIndex]] is
    [undefined]. *)
Definition placeOne (total targetWidth : Q)
    (st : list freeRect * list (placedRect A)) (r : rect A)
  : option (list freeRect * list (placedRect A)) :=
  let '(freeRects, placed) := st in
  let '(freeRects1, bestIndex) :=
    match findBest r freeRects 0 None None with
    | Some i => (freeRects, i)
    | None =>
        let extendRect := mkFree 0 total targetWidth (height r + gap) in
        (freeRects ++ [extendRect],
         (List.length (freeRects ++ [extendRect]) - 1)%nat)
    end in
  match freeRects1 !! bestIndex with
  | None => None
  | Some target =>
      let placedRect := mkPlaced r (fx target) (fy target) in
      let freeRects2 := delete bestIndex freeRects1 in
      let right := mkFree (fx target + width r + gap) (fy target)
                          (fwidth target - width r - gap) (height r) in
      let bottom := mkFree (fx target) (fy target + height r + gap)
                           (fwidth target)
                           (fheight target - height r - gap) in
      let freeRects3 :=
        if ltb 0 (fwidth right) && ltb 0 (fheight right)
        then freeRects2 ++ [right] else freeRects2 in
      let freeRects4 :=
        if ltb 0 (fwidth bottom) && ltb 0 (fheight bottom)
        then freeRects3 ++ [bottom] else freeRects3 in
      Some (pruneFreeRects freeRects4, placed ++ [placedRect])
  end.

Fixpoint placeAll (total targetWidth : Q) (sorted : list (rect A))
    (st : list freeRect * list (placedRect A))
  : option (list freeRect * list (placedRect A)) :=
  match sorted with
  | [] => Some st
  | r :: rest =>
      match placeOne total targetWidth st r with
      | Some st' => placeAll total targetWidth rest st'
      | None => None
      end
  end.

(** Whether the loop, for some rectangle, finds no free region that fits
    ([bestIndex === -1]) and so appends the region below everything. *)
Fixpoint appendsRegion (total targetWidth : Q) (sorted : list (rect A))
    (st : list freeRect * list (placedRect A)) : bool :=
  match sorted with
  | [] => false
  | r :: rest =>
      match findBest r (fst st) 0 None None with
      | None => true
      | Some _ =>
          match placeOne total targetWidth st r with
          | Some st' => appendsRegion total targetWidth rest st'
          | None => false
          end
      end
  end.

Definition packMaxRects (rects : list (rect A)) (targetWidth : Q)
  : option (packed A) :=
  let total := totalHeight rects in
  match placeAll total targetWidth (sortRects rects)
          ([mkFree 0 0 targetWidth total], []) with
  | None => None
  | Some (_, placed) =>
      let maxX := fold_left (fun m p => max m (x p + width (source p)))
                            placed 0 in
      let maxY := fold_left (fun m p => max m (y p + height (source p)))
                            placed 0 in
      Some (mkPacked maxX maxY placed)
  end.

(** The height the rectangles still to be placed take when stacked. *)
Definition need (rects : list (rect A)) : Q :=
  fold_right (fun r acc => height r + gap + acc) 0 rects.

(** A free region and a placed rectangle have no interior point in
    common; likewise two placed rectangles. *)
Definition clearOf (f : freeRect) (p : placedRect A) : Prop :=
  apart (fx f) (fy f) (fwidth f) (fheight f)
        (x p) (y p) (width (source p)) (height (source p)).

Definition placedApart (p q : placedRect A) : Prop :=
  apart (x p) (y p) (width (source p)) (height (source p))
        (x q) (y q) (width (source q)) (height (source q)).

(** Invariant of the placement loop while every rectangle fits the
    target width: the free regions are pairwise apart and clear of what
    has been placed, the placed rectangles are pairwise apart, and while
    rectangles remain some free region spans the target width and is tall
    enough to stack all of them. *)
Record fitting (targetWidth : Q) (remaining : list (rect A))
    (st : list freeRect * list (placedRect A)) : Prop := mkFitting {
  fit_free : ForallOrdPairs freeApart (fst st);
  fit_clear : Forall (fun f => Forall (clearOf f) (snd st)) (fst st);
  fit_placed : ForallOrdPairs placedApart (snd st);
  fit_chain :
    remaining <> [] ->
    Exists (fun f => targetWidth <= fwidth f /\ need remaining <= fheight f)
           (fst st)
}.

(** Corners in the non-negative quadrant. *)
Definition cornerOk (f : freeRect) : Prop := 0 <= fx f /\ 0 <= fy f.
Definition placedOk (p : placedRect A) : Prop := 0 <= x p /\ 0 <= y p.

(** Two placed rectangles share interior points. *)
Definition overlap (p q : placedRect A) : Prop :=
  x p < x q + width (source q) /\ x q < x p + width (source p) /\
  y p < y q + height (source q) /\ y q < y p + height (source p).

End Pack.

End Packing.

(** ** Shelf packing ([packShelves], the first layout of the script) *)

Module Shelf.
Import Packing.
#[local] Open Scope Q_scope.

Section Shelves.
Context {A : Type}.

(** The variables of the loop: [x], [y], [rowHeight], [maxWidth] and
    the [placed] array. *)
Record state := mkState {
  curX : Q;
  curY : Q;
  rowHeight : Q;
  maxWidth : Q;
  placed : list (placedRect A)
}.

Definition initial : state := mkState 0 0 0 0 [].

(** [if (x > 0 && x + rect.width > targetWidth) { ... }] *)
Definition wrapRow (targetWidth : Q) (st : state) (r : rect A) : state :=
  if ltb 0 (curX st) && ltb targetWidth (curX st + width r) then
    mkState 0 (curY st + rowHeight st + gap) 0
            (max (maxWidth st) (curX st - gap)) (placed st)
  else st.

(** The body of [for (const rect of rects)]. *)
Definition shelfStep (targetWidth : Q) (st : state) (r : rect A) : state :=
  let st1 := wrapRow targetWidth st r in
  mkState (curX st1 + width r + gap) (curY st1)
          (max (rowHeight st1) (height r)) (maxWidth st1)
          (placed st1 ++ [mkPlaced r (curX st1) (curY st1)]).

Definition packShelves (rects : list (rect A)) (targetWidth : Q) : packed A :=
  let st := fold_left (shelfStep targetWidth) rects initial in
  let width' := if ltb 0 (curX st) then max (maxWidth st) (curX st - gap)
                else maxWidth st in
  mkPacked width' (curY st + rowHeight st) (placed st).

(** Invariant of the loop: a placed rectangle is either in the current
    row, to the left of [x] by at least the gap and no taller than the
    row, or in an earlier row, above [y] by at least the gap; its right
    edge is covered by the row widths seen so far. *)
Definition shelved (targetWidth : Q) (st : state) (p : placedRect A) : Prop :=
  0 <= x p /\ 0 <= y p /\ 0 <= width (source p) /\
  (x p == 0 \/ x p + width (source p) <= targetWidth) /\
  ((y p == curY st /\ x p + width (source p) + gap <= curX st /\
    height (source p) <= rowHeight st)
   \/
   (y p + height (source p) + gap <= curY st /\
    x p + width (source p) <= maxWidth st)).

Record shelfInv (targetWidth : Q) (st : state) : Prop := mkShelfInv {
  shelf_x : 0 <= curX st;
  shelf_y : 0 <= curY st;
  shelf_row : 0 <= rowHeight st;
  shelf_max : 0 <= maxWidth st;
  shelf_placed : Forall (shelved targetWidth st) (placed st);
  shelf_apart : ForallOrdPairs placedApart (placed st)
}.

End Shelves.

Arguments state A : clear implicits.

End Shelf.

(** ** Leaf sizes ([computeFileSize]) *)

Module Layout.
Import Packing Tree.
#[local] Open Scope Q_scope.

(** [CONFIG.fileWidth] and [CONFIG.minHeight] *)
Definition fileWidth : Q := 80.
Definition minHeight : Q := 12.

(** [node.lineCount || 1]: an absent or zero count counts as 1. *)
Definition linesOrOne (lineCount : option Z) : Q :=
  match lineCount with
  | Some 0%Z => 1
  | Some n => inject_Z n
  | None => 1
  end.

(** [computeFileSize(node)]: width and height. *)
Definition computeFileSize (node : FileNode) : Q * Q :=
  match isText node with
  | Some true => (fileWidth, max minHeight (linesOrOne (lineCount node)))
  | _ => (fileWidth, fileWidth)
  end.

End Layout.

(** ** Escaping for the page ([escapeHtml], [getWebviewContent]) *)

Module Html.
Import Js.

(** [text.replace(/c/g, by)] for a one-unit pattern and a replacement
    without [$]. *)
Definition replaceAll (c : Z) (by_ : jsstring) (text : jsstring) : jsstring :=
  List.concat (List.map (fun d => if d =? c then by_ else [d]) text).

Definition AMP : Z := 38.
Definition LT : Z := 60.
Definition GT : Z := 62.
Definition QUOT : Z := 34.
Definition APOS : Z := 39.

(** [escapeHtml]: the five replacements in the order of the source. *)
Definition escapeHtml (text : jsstring) : jsstring :=
  replaceAll APOS (str "&#039;")
    (replaceAll QUOT (str "&quot;")
       (replaceAll GT (str "&gt;")
          (replaceAll LT (str "&lt;")
             (replaceAll AMP (str "&amp;") text)))).

(** The entity of one code unit. *)
Definition entityOf (c : Z) : jsstring :=
  if c =? AMP then str "&amp;"
  else if c =? LT then str "&lt;"
  else if c =? GT then str "&gt;"
  else if c =? QUOT then str "&quot;"
  else if c =? APOS then str "&#039;"
  else [c].

(** [json.replace(/</g, '\\u003c')] of [getWebviewContent]: the
    replacement is the six units backslash, u, 0, 0, 3, c. *)
Definition escapeLt (json : jsstring) : jsstring :=
  replaceAll LT (92 :: str "u003c") json.

End Html.

(** ** Authors of a tree ([collectAuthors]) *)

Module Authors.
Import Js Blame Tree.

(** [authors.add(seg.author)] guarded by [if (seg.author)]; the [Set]
    keeps insertion order and no duplicate. *)
Definition addAuthor (authors : list jsstring) (seg : BlameSegment)
  : list jsstring :=
  if truthy (author seg) then
    if bool_decide (author seg ∈ authors) then authors
    else authors ++ [author seg]
  else authors.

(** The [while (stack.length > 0)] loop; the head of [stack] is the top. *)
Fixpoint authorsLoop (fuel : nat) (stack : list FileNode)
    (authors : list jsstring) : option (list jsstring) :=
  match stack with
  | [] => Some authors
  | node :: rest =>
      match fuel with
      | O => None
      | S fuel' =>
          match (if isFile node then blameSegments node else None) with
          | Some segs =>
              authorsLoop fuel' rest (fold_left addAuthor segs authors)
          | None =>
              match children node with
              | Some cs => authorsLoop fuel' (rev cs ++ rest) authors
              | None => authorsLoop fuel' rest authors
              end
          end
      end
  end.

Section Sorting.

(** [a.localeCompare(b)] *)
Variable localeCompare : jsstring -> jsstring -> Z.

Fixpoint insertAuthor (a : jsstring) (sorted : list jsstring)
  : list jsstring :=
  match sorted with
  | [] => [a]
  | b :: rest =>
      if localeCompare a b <=? 0 then a :: sorted
      else b :: insertAuthor a rest
  end.

(** [Array.from(authors).sort((a, b) => a.localeCompare(b))] *)
Definition sortAuthors (authors : list jsstring) : list jsstring :=
  fold_right insertAuthor [] authors.

Definition collectAuthors (root : FileNode) : option (list jsstring) :=
  match authorsLoop (size root) [root] [] with
  | Some authors => Some (sortAuthors authors)
  | None => None
  end.

End Sorting.

(** The segments the loop reads: those of the file nodes that carry
    [blameSegments], found through nodes that do not, last child
    first. *)
Fixpoint segmentsOf (n : FileNode) : list BlameSegment :=
  match (if isFile n then blameSegments n else None) with
  | Some segs => segs
  | None =>
      match children n with
      | Some cs => List.concat (rev (List.map segmentsOf cs))
      | None => []
      end
  end.

End Authors.

(** ** Walks and trees in closed form *)

Module Walk.
Import Js Path Ignore Tree Build.

(** [f i x] for every element [x] of a list and its index [i], counted
    from [i0]. *)
Definition mapFrom {A B : Type} (f : nat -> A -> B) : nat -> list A -> list B :=
  fix go (i0 : nat) (l : list A) : list B :=
    match l with
    | [] => []
    | x :: l' => f i0 x :: go (S i0) l'
    end.

(** The file nodes [collectFileNodes] reaches from the node at position
    [p], in the order it reaches them: last child first, and nothing
    below a file node. *)
Fixpoint filesOf (p : position) (n : FileNode) : list (position * FileNode) :=
  if isFile n then [(p, n)]
  else
    match children n with
    | Some cs =>
        List.concat (rev (mapFrom (fun i c => filesOf (p ++ [i]) c) 0%nat cs))
    | None => []
    end.

(** No file node on the way from the root to (but excluding) [p]. *)
Definition throughFolders (root : FileNode) (p : position) : Prop :=
  forall q, q `prefix_of` p -> q <> p ->
            exists m, lookupAt root q = Some m /\ isFile m = false.

(** No folder after a file. *)
Fixpoint foldersFirst (nodes : list FileNode) : Prop :=
  match nodes with
  | [] => True
  | c :: rest =>
      (type c = File -> Forall (fun d => type d = File) rest) /\
      foldersFirst rest
  end.

(** The shape of what [buildNode] returns for the path [p]. *)
#[local] Unset Elimination Schemes.
Inductive builtAt : Path.path -> FileNode -> Prop :=
| built_text p n :
    0 <= n ->
    builtAt p (mkFileNode (basename p) (render p) File (Some true) (Some n)
                          None None)
| built_binary p :
    builtAt p (mkFileNode (basename p) (render p) File (Some false) None
                          None None)
| built_empty p :
    builtAt p (mkFileNode (basename p) (render p) Folder None None None None)
| built_folder p cs :
    cs <> [] ->
    Forall (fun c => exists entry, builtAt (join p entry) c) cs ->
    foldersFirst cs ->
    builtAt p (mkFileNode (basename p) (render p) Folder None None None
                          (Some cs)).
#[local] Set Elimination Schemes.

Section Pass.

Variable gitBlame : jsstring -> option jsstring.

(** What [addBlameInfo] leaves in [blameSegments] of a file node: the
    answer of the blame query for a text file when there is one, and
    what was there otherwise. *)
Definition blameResult (file : FileNode) : option (list Blame.BlameSegment) :=
  if notText file then blameSegments file
  else
    match Blame.getBlameSegments (gitBlame (path file)) with
    | Some segs =>
        if (0 <? Z.of_nat (List.length segs)) then Some segs
        else blameSegments file
    | None => blameSegments file
    end.

(** Invariant of the loop of [addBlameInfo] between the files already
    visited and those still to come. *)
Record passInv (totalFiles : Z) (visited rest : list (position * FileNode))
    (st : FileNode * list progress * Z) : Prop := mkPassInv {
  pass_done : snd st = Z.of_nat (List.length visited);
  pass_log :
    snd (fst st) =
    imap (fun i ref => mkProgress (Z.of_nat i + 1) totalFiles (path (snd ref)))
         visited;
  pass_visited :
    forall q file, (q, file) ∈ visited ->
      exists file', lookupAt (fst (fst st)) q = Some file' /\
                    path file' = path file /\ isText file' = isText file /\
                    blameSegments file' = blameResult file;
  pass_rest :
    forall q file, (q, file) ∈ rest ->
      exists file', lookupAt (fst (fst st)) q = Some file' /\
                    path file' = path file /\ isText file' = isText file /\
                    blameSegments file' = blameSegments file
}.

End Pass.

(** The loop [for (const entry of entries)] of [buildNode], with the
    recursive call as [build]. *)
Definition eachEntry (build : jsstring -> FsEntry -> result (option FileNode))
  : list (jsstring * FsEntry) -> list FileNode -> result (list FileNode) :=
  fix each (es : list (jsstring * FsEntry)) (children : list FileNode)
    : result (list FileNode) :=
    match es with
    | [] => Ok children
    | (entry, below) :: es' =>
        match build entry below with
        | Rejected => Rejected
        | Ok (Some childNode) => each es' (children ++ [childNode])
        | Ok None => each es' children
        end
    end.

(** [P] of everything below the entries of a directory. *)
Definition allBelow (P : FsEntry -> Prop)
  : list (jsstring * FsEntry) -> Prop :=
  fix each (es : list (jsstring * FsEntry)) : Prop :=
    match es with
    | [] => True
    | (_, below) :: es' => P below /\ each es'
    end.

(** No read stream below this entry ends in an error. *)
Fixpoint streamsEnd (e : FsEntry) : Prop :=
  match e with
  | Inaccessible => True
  | RegularFile _ _ fin => fin = CountLines.End
  | Directory _ None => True
  | Directory _ (Some es) => allBelow streamsEnd es
  end.

(** A name that the path check of [test] lets through when it is the
    first component of a relative path: after its leading dots comes a
    unit that is neither a slash nor a backslash (which
    [shouldIgnorePath] turns into a slash).  A name that begins with
    two dots is never tested. *)
Definition acceptedName (n : jsstring) : bool :=
  startsWith n [DOT; DOT]
  || match dropDots n with
     | [] => false
     | c :: _ => negb (c =? SLASH) && negb (c =? BACKSLASH)
     end.

(** [P] of every entry of a directory, by name. *)
Definition allEntries (P : jsstring -> FsEntry -> Prop)
  : list (jsstring * FsEntry) -> Prop :=
  fix each (es : list (jsstring * FsEntry)) : Prop :=
    match es with
    | [] => True
    | (entry, below) :: es' => P entry below /\ each es'
    end.

(** Every name below this entry is an accepted one. *)
Fixpoint namesAccepted (e : FsEntry) : Prop :=
  match e with
  | Directory _ (Some es) =>
      allEntries (fun entry below =>
                    acceptedName entry = true /\ namesAccepted below) es
  | _ => True
  end.

(** Every base of the stack lies above the path, which goes on below
    it with an accepted name: the stacks [buildNode] passes down. *)
Definition stackAbove (p : Path.path) (stack : list IgnoreEntry) : Prop :=
  Forall (fun entry => exists c rest,
                         p = base entry ++ c :: rest /\
                         acceptedName c = true) stack.

End Walk.

(** * Properties *)

(** ** Properties of line counting *)

Module CountLinesFacts.
Import CountLines.

Lemma scan_acc buffer count :
  scan buffer count = count + countLF buffer.
Proof.
  revert count. induction buffer as [|b rest IH]; intros count; simpl.
  - unfold countLF. simpl. lia.
  - rewrite IH. unfold countLF. simpl.
    destruct (b =? 10); simpl; lia.
Qed.

Lemma countLF_app a b : countLF (a ++ b) = countLF a + countLF b.
Proof.
  unfold countLF. rewrite List.filter_app, List.length_app. lia.
Qed.

Lemma last_app_nonempty (a b : list Z) :
  b <> [] -> last (a ++ b) = last b.
Proof.
  intros Hb. destruct b as [|x b']; [congruence|].
  rewrite last_app. destruct (last (x :: b')) eqn:E; [reflexivity|].
  apply last_None in E. discriminate.
Qed.

(** Loop invariant of the ['data'] handler over non-empty chunks. *)
Lemma fold_onData chunks : forall st seen,
  Forall (fun c => c <> []) chunks ->
  lineCount st = countLF seen ->
  lastByte st = last seen ->
  hasData st = negb (bool_decide (seen = [])) ->
  let st' := fold_left onData chunks st in
  lineCount st' = countLF (seen ++ concat chunks) /\
  lastByte st' = last (seen ++ concat chunks) /\
  hasData st' = negb (bool_decide (seen ++ concat chunks = [])).
Proof.
  induction chunks as [|c chunks IH]; intros st seen Hne Hc Hl Hd; simpl.
  - rewrite app_nil_r. auto.
  - inversion Hne as [|? ? Hc0 Hrest]; subst.
    specialize (IH (onData st c) (seen ++ c) Hrest).
    rewrite <- app_assoc in IH. apply IH; simpl.
    + rewrite scan_acc, Hc, countLF_app. reflexivity.
    + unfold lastOf. symmetry. apply last_app_nonempty. assumption.
    + symmetry. apply negb_true_iff, bool_decide_eq_false.
      intros E. apply app_eq_nil in E. tauto.
Qed.

(** [countLines] on a stream delivered in non-empty chunks. *)
Lemma countLines_whole (chunks : list (list Z)) :
  Forall (fun c => c <> []) chunks ->
  countLines chunks End = Some (lineCountSpec (concat chunks)).
Proof.
  intros Hne. unfold countLines. f_equal.
  destruct (fold_onData chunks initial [] Hne) as (Hc & Hl & Hd);
    try reflexivity.
  simpl in Hc, Hl, Hd.
  unfold onEnd, lineCountSpec. rewrite Hc, Hl, Hd.
  destruct (concat chunks) as [|b bs] eqn:E; simpl.
  - reflexivity.
  - destruct (last (b :: bs)) as [z|] eqn:El.
    + simpl. destruct (z =? 10); simpl; lia.
    + apply last_None in El. discriminate.
Qed.

(** C5. For every byte stream, however the read stream cuts it into
    (non-empty) chunks, [countLines] resolves to the number of line-feed
    bytes, plus one when the stream is non-empty and does not end in a
    line feed; so the content a-LF-b-LF-c gives 3, the same content with
    a final LF gives 3, and the empty file gives 0. *)
Theorem countLines_spec (chunks : list (list Z)) :
  Forall (fun c => c <> []) chunks ->
  countLines chunks End = Some (lineCountSpec (concat chunks)) /\
  (concat chunks = [97; 10; 98; 10; 99] -> countLines chunks End = Some 3) /\
  (concat chunks = [97; 10; 98; 10; 99; 10] ->
     countLines chunks End = Some 3) /\
  (concat chunks = [] -> countLines chunks End = Some 0).
Proof.
  intros Hne. pose proof (countLines_whole chunks Hne) as Hgen.
  split; [exact Hgen|].
  repeat split; intros E; rewrite Hgen, E; reflexivity.
Qed.

Lemma countLines_spec_witness :
  Forall (fun c => c <> []) [[97; 10]; [98]; [10; 99]] /\
  countLines [[97; 10]; [98]; [10; 99]] End = Some 3.
Proof.
  assert (H : Forall (fun c : list Z => c <> []) [[97; 10]; [98]; [10; 99]]).
  { repeat constructor; discriminate. }
  split; [exact H|].
  exact (proj1 (countLines_spec [[97; 10]; [98]; [10; 99]] H)).
Defined.

End CountLinesFacts.

(** ** Properties of segment compression *)

Module BlameFacts.
Import Js Blame.
#[local] Arguments Js.eqb : simpl never.

Lemma adjacentDistinct_at segs :
  adjacentDistinctAt segs -> adjacentDistinct segs.
Proof.
  induction segs as [|s1 [|s2 rest] IH]; intros H; simpl; auto.
  split.
  - apply (H 0%nat s1 s2); reflexivity.
  - apply IH. intros i a b Ha Hb. apply (H (S i) a b); assumption.
Qed.

Lemma eqb_true a b : eqb a b = true <-> a = b.
Proof. unfold eqb. apply bool_decide_eq_true. Qed.

Lemma eqb_false a b : eqb a b = false <-> a <> b.
Proof. unfold eqb. apply bool_decide_eq_false. Qed.

Lemma expand_app s t : expand (s ++ t) = expand s ++ expand t.
Proof. unfold expand. rewrite List.map_app, List.concat_app. reflexivity. Qed.

Lemma expand_close st :
  expand (close st) =
  expand (segments st) ++ repeat (lastAuthor st) (Z.to_nat (count st)).
Proof.
  unfold close. rewrite expand_app. unfold expand. simpl.
  rewrite app_nil_r. reflexivity.
Qed.

Lemma compressStep_inv st a :
  inv st ->
  inv (compressStep st a) /\
  expand (close (compressStep st a)) = expand (close st) ++ [a].
Proof.
  intros [Hc Hl Ha]. unfold compressStep.
  destruct (eqb a (lastAuthor st)) eqn:E.
  - apply eqb_true in E. subst a. split.
    + constructor; simpl; [lia | assumption |].
      intros i s1 s2 H1 H2. unfold close in *. simpl in *.
      assert (Hsame : forall j s,
                (segments st ++ [mkSegment (lastAuthor st) (count st + 1)]) !! j = Some s ->
                exists s', (segments st ++ [mkSegment (lastAuthor st) (count st)]) !! j = Some s'
                           /\ author s' = author s).
      { intros j s Hj. apply lookup_app_Some in Hj as [Hj|[Hge Hj]].
        - exists s. split; [|reflexivity]. apply lookup_app_l_Some. exact Hj.
        - exists (mkSegment (lastAuthor st) (count st)).
          apply list_lookup_singleton_Some in Hj as [Hj0 Hs]. subst s.
          split; [|reflexivity].
          rewrite lookup_app_r by exact Hge. rewrite Hj0. reflexivity. }
      destruct (Hsame _ _ H1) as (s1' & H1' & E1).
      destruct (Hsame _ _ H2) as (s2' & H2' & E2).
      rewrite <- E1, <- E2. eapply Ha; eassumption.
    + rewrite !expand_close. simpl.
      replace (Z.to_nat (count st + 1)) with (S (Z.to_nat (count st))) by lia.
      rewrite <- app_assoc. f_equal.
      change (lastAuthor st :: repeat (lastAuthor st) (Z.to_nat (count st)))
        with (repeat (lastAuthor st) (S (Z.to_nat (count st)))).
      rewrite <- repeat_cons. reflexivity.
  - apply eqb_false in E. split.
    + constructor; simpl; [lia | |].
      * apply Forall_app. split; [assumption|]. repeat constructor. simpl. lia.
      * intros i s1 s2 H1 H2. unfold close in *. simpl in *.
        apply lookup_app_Some in H2 as [H2|[Hge H2]].
        -- apply (Ha i s1 s2); [|exact H2].
           apply lookup_app_Some in H1 as [H1|[Hge1 _]]; [exact H1|].
           apply lookup_lt_Some in H2. lia.
        -- apply list_lookup_singleton_Some in H2 as [Hi Hs]. subst s2. simpl.
           rewrite List.length_app in *. simpl in *.
           assert (Hi' : i = List.length (segments st)) by lia. subst i.
           rewrite lookup_app_l in H1 by (rewrite List.length_app; simpl; lia).
           rewrite lookup_app_r in H1 by lia.
           rewrite Nat.sub_diag in H1. simpl in H1. inversion H1. simpl.
           congruence.
    + rewrite (expand_close (mkRun _ _ _)). simpl.
      change (segments st ++ [mkSegment (lastAuthor st) (count st)])
        with (close st).
      reflexivity.
Qed.

Lemma compressStep_same segs a c :
  compressStep (mkRun segs a c) a = mkRun segs a (c + 1).
Proof.
  unfold compressStep. simpl.
  replace (eqb a a) with true by (symmetry; apply eqb_true; reflexivity).
  reflexivity.
Qed.

Lemma compressStep_other segs a c b :
  b <> a ->
  compressStep (mkRun segs a c) b = mkRun (segs ++ [mkSegment a c]) b 1.
Proof.
  intros H. unfold compressStep. simpl.
  replace (eqb b a) with false by (symmetry; apply eqb_false; assumption).
  reflexivity.
Qed.

Lemma fold_compressStep rest : forall st,
  inv st ->
  inv (fold_left compressStep rest st) /\
  expand (close (fold_left compressStep rest st)) = expand (close st) ++ rest.
Proof.
  induction rest as [|a rest IH]; intros st Hst; simpl.
  - rewrite app_nil_r. auto.
  - destruct (compressStep_inv st a Hst) as [Hinv Hexp].
    destruct (IH _ Hinv) as [Hinv' Hexp'].
    split; [assumption|]. rewrite Hexp', Hexp, <- app_assoc. reflexivity.
Qed.

Lemma inv_close_lines st :
  inv st -> Forall (fun s => 1 <= lines s) (close st).
Proof.
  intros [Hc Hl _]. unfold close. apply Forall_app. split; [assumption|].
  repeat constructor. simpl. assumption.
Qed.

Lemma compress_some first rest :
  exists st,
    compress (first :: rest) = Some (close st) /\ inv st /\
    expand (close st) = first :: rest.
Proof.
  set (st0 := {| segments := []; lastAuthor := first; count := 1 |}).
  assert (H0 : inv st0).
  { constructor; simpl; [lia | constructor |].
    intros i s1 s2 H1 H2. unfold close in H2. simpl in H2.
    destruct i; discriminate. }
  destruct (fold_compressStep rest st0 H0) as [Hinv Hexp].
  exists (fold_left compressStep rest st0).
  split; [reflexivity|]. split; [assumption|].
  rewrite Hexp. reflexivity.
Qed.

(** C3. Segment compression is run-length encoding of the per-line
    author list: writing every segment back out as [lines] copies of its
    author gives the author list again, in order; every segment has at
    least one line; neighbouring segments have different authors; an
    empty author list gives no segments at all; and the list
    [A,A,B,B,B,A] gives [(A,2),(B,3),(A,1)] (a single segment of six
    lines when A and B are the same name). *)
Theorem compress_run_length :
  (forall authors,
      match compress authors with
      | None => authors = []
      | Some segs =>
          expand segs = authors /\
          Forall (fun s => 1 <= lines s) segs /\
          adjacentDistinct segs
      end) /\
  (forall stdout,
      getBlameSegments (Some stdout) = compress (parseAuthors stdout)) /\
  (forall A B,
      compress [A; A; B; B; B; A] =
      Some (if eqb B A then [mkSegment A 6]
            else [mkSegment A 2; mkSegment B 3; mkSegment A 1])).
Proof.
  split; [|split].
  - intros [|first rest]; [reflexivity|].
    destruct (compress_some first rest) as (st & -> & Hinv & Hexp).
    split; [assumption|]. split.
    + apply inv_close_lines. assumption.
    + apply adjacentDistinct_at. apply Hinv.
  - reflexivity.
  - intros A B. unfold compress. cbn [fold_left].
    rewrite !compressStep_same.
    destruct (eqb B A) eqn:E.
    + apply eqb_true in E. subst B. rewrite !compressStep_same.
      reflexivity.
    + apply eqb_false in E.
      rewrite (compressStep_other _ A _ B) by assumption.
      rewrite !compressStep_same.
      rewrite (compressStep_other _ B _ A) by congruence.
      reflexivity.
Qed.

(** *** Blame output against the line count *)

Lemma sumLines_expand segs :
  Forall (fun s => 1 <= lines s) segs ->
  sumLines segs = Z.of_nat (List.length (expand segs)).
Proof.
  induction 1 as [|s segs Hs _ IH]; [reflexivity|].
  unfold expand in *. simpl. rewrite List.length_app, repeat_length.
  unfold sumLines in *. simpl. rewrite IH. lia.
Qed.

Lemma split_line sep s t :
  forallb (fun c => negb (c =? sep)) s = true ->
  split sep (s ++ sep :: t) = s :: split sep t.
Proof.
  induction s as [|c s IH]; intros H; simpl.
  - rewrite Z.eqb_refl. reflexivity.
  - simpl in H. apply andb_true_iff in H as [Hc Hs].
    apply negb_true_iff in Hc. rewrite Hc, (IH Hs). reflexivity.
Qed.

Lemma split_headers hs t :
  forallb (fun h => noLF h && negb (startsWith h [TAB])) hs = true ->
  split LF (List.concat (List.map (fun h => h ++ [LF]) hs) ++ t)
  = hs ++ split LF t.
Proof.
  induction hs as [|h hs IH]; intros H; simpl; [reflexivity|].
  simpl in H. apply andb_true_iff in H as [Hh Hhs].
  apply andb_true_iff in Hh as [Hh _].
  rewrite <- !app_assoc. simpl.
  rewrite split_line by exact Hh. rewrite (IH Hhs). reflexivity.
Qed.

Lemma split_renderEntry e t :
  wellFormedEntry e = true ->
  split LF (renderEntry e ++ t) = linesOf e ++ split LF t.
Proof.
  intros H. apply andb_true_iff in H as [Hh Ht].
  unfold renderEntry, linesOf. rewrite <- !app_assoc.
  rewrite split_headers by exact Hh. f_equal.
  change ([TAB] ++ text e ++ [LF] ++ t) with ((TAB :: text e) ++ LF :: t).
  rewrite split_line; [reflexivity|].
  simpl. exact Ht.
Qed.

Lemma split_renderPorcelain es :
  forallb wellFormedEntry es = true ->
  split LF (renderPorcelain es) = List.concat (List.map linesOf es) ++ [[]].
Proof.
  induction es as [|e es IH]; intros H; [reflexivity|].
  simpl in H. apply andb_true_iff in H as [He Hes].
  unfold renderPorcelain in *. simpl.
  rewrite split_renderEntry by exact He. rewrite (IH Hes).
  rewrite <- app_assoc. reflexivity.
Qed.

Lemma parseLine_header authors cur h :
  startsWith h [TAB] = false ->
  exists cur', parseLine (authors, cur) h = (authors, cur').
Proof.
  intros H. unfold parseLine. rewrite H.
  destruct (startsWith h (str "author ")); eauto.
Qed.

Lemma parseLine_text authors cur t :
  parseLine (authors, cur) (TAB :: t)
  = (authors ++ [or_else cur (str "Unknown")], cur).
Proof. reflexivity. Qed.

Lemma parse_headers hs : forall authors cur,
  forallb (fun h => noLF h && negb (startsWith h [TAB])) hs = true ->
  exists cur', fold_left parseLine hs (authors, cur) = (authors, cur').
Proof.
  induction hs as [|h hs IH]; intros authors cur H; cbn [fold_left].
  - eauto.
  - cbn [forallb] in H. apply andb_true_iff in H as [Hh Hhs].
    apply andb_true_iff in Hh as [_ Hh]. apply negb_true_iff in Hh.
    destruct (parseLine_header authors cur h Hh) as [cur1 ->].
    apply IH. exact Hhs.
Qed.

Lemma parse_entry e authors cur :
  wellFormedEntry e = true ->
  exists a cur',
    fold_left parseLine (linesOf e) (authors, cur) = (authors ++ [a], cur').
Proof.
  intros H. apply andb_true_iff in H as [Hh _].
  unfold linesOf. rewrite fold_left_app.
  destruct (parse_headers (headers e) authors cur Hh) as [cur' ->].
  cbn [fold_left]. rewrite parseLine_text. eauto.
Qed.

Lemma parse_entries es : forall authors cur,
  forallb wellFormedEntry es = true ->
  exists new cur',
    fold_left parseLine (List.concat (List.map linesOf es)) (authors, cur)
    = (authors ++ new, cur') /\ List.length new = List.length es.
Proof.
  induction es as [|e es IH]; intros authors cur H; simpl.
  - exists [], cur. rewrite app_nil_r. auto.
  - simpl in H. apply andb_true_iff in H as [He Hes].
    rewrite fold_left_app.
    destruct (parse_entry e authors cur He) as (a & cur1 & ->).
    destruct (IH (authors ++ [a]) cur1 Hes) as (new & cur2 & -> & Hlen).
    exists (a :: new), cur2. rewrite <- app_assoc. simpl. auto.
Qed.

(** The parser finds exactly one author per entry of the output. *)
Lemma parseAuthors_length es :
  forallb wellFormedEntry es = true ->
  List.length (parseAuthors (renderPorcelain es)) = List.length es.
Proof.
  intros H. unfold parseAuthors.
  rewrite split_renderPorcelain by exact H. rewrite fold_left_app.
  destruct (parse_entries es [] [] H) as (new & cur & Heq & Hlen).
  unfold jsstring in *. rewrite Heq. simpl. exact Hlen.
Qed.

(** Whatever the output is, the parser reports one author per line that
    begins with a TAB. *)
Lemma parseLine_counts st line :
  List.length (fst (parseLine st line)) =
  (List.length (fst st) + if startsWith line [TAB] then 1 else 0)%nat.
Proof.
  destruct st as [authors cur]. unfold parseLine.
  destruct line as [|c line]; [simpl; lia|].
  destruct (startsWith (c :: line) (str "author ")) eqn:Ea.
  - assert (Hc : c = 97).
    { change (startsWith (c :: line) (str "author "))
        with ((97 =? c) && startsWith line (str "uthor ")) in Ea.
      apply andb_true_iff in Ea as [Ec _].
      apply Z.eqb_eq in Ec. congruence. }
    subst c. simpl. lia.
  - destruct (startsWith (c :: line) [TAB]); simpl; [|lia].
    rewrite List.length_app. simpl. lia.
Qed.

Lemma parse_counts lines : forall st,
  List.length (fst (fold_left parseLine lines st)) =
  (List.length (fst st)
   + List.length (List.filter (fun l => startsWith l [TAB]) lines))%nat.
Proof.
  induction lines as [|l lines IH]; intros st; cbn [fold_left List.filter].
  - simpl. lia.
  - rewrite IH, parseLine_counts.
    destruct (startsWith l [TAB]); simpl; lia.
Qed.

(** X19. Whatever the blame output is, the line counts of the segments
    answered for it add up to the number of output lines that begin
    with a TAB: one counted line per content line of the output. *)
Lemma sumLines_counts_tab_lines stdout segs :
  getBlameSegments (Some stdout) = Some segs ->
  sumLines segs =
  Z.of_nat (List.length (List.filter (fun l => startsWith l [TAB])
                                     (split LF stdout))).
Proof.
  intros H. simpl in H.
  destruct (parseAuthors stdout) as [|first rest] eqn:Ea; [discriminate|].
  destruct (compress_some first rest) as (st & Hc & Hinv & Hexp).
  rewrite Hc in H. inversion H; subst segs.
  rewrite sumLines_expand by (apply inv_close_lines; assumption).
  rewrite Hexp, <- Ea. unfold parseAuthors. rewrite parse_counts.
  reflexivity.
Qed.

Lemma linesFrom_length bytes : forall cur,
  Z.of_nat (List.length (linesFrom cur bytes)) =
  CountLines.countLF bytes +
  match last bytes with
  | Some b => if b =? 10 then 0 else 1
  | None => match cur with [] => 0 | _ :: _ => 1 end
  end.
Proof.
  induction bytes as [|b rest IH]; intros cur.
  - destruct cur; reflexivity.
  - assert (Hlast : last (b :: rest) =
                    match last rest with Some c => Some c | None => Some b end).
    { apply last_cons. }
    rewrite Hlast. unfold CountLines.countLF in *. simpl.
    destruct (b =? 10) eqn:E.
    + simpl List.length. rewrite Nat2Z.inj_succ, IH.
      destruct (last rest); simpl; [lia|]. rewrite E. lia.
    + rewrite IH. destruct (last rest); simpl; [lia|]. rewrite E.
      destruct cur; simpl; lia.
Qed.

(** The number of physical lines is the value [countLines] computes. *)
Lemma physicalLines_length bytes :
  Z.of_nat (List.length (physicalLines bytes)) = CountLines.lineCountSpec bytes.
Proof.
  unfold physicalLines, CountLines.lineCountSpec. rewrite linesFrom_length.
  destruct (last bytes); reflexivity.
Qed.

End BlameFacts.

(** ** Properties of file classification and the walk *)

Module BuildFacts.
Import Js Path Ignore Tree Build.

(** The file branch of [buildNode]. *)
Lemma buildNode_file localeCompare opened chunks fin p rel stack :
  buildNode localeCompare (RegularFile opened chunks fin) p rel stack =
  match shouldIgnorePathOrThrow p false stack with
  | None => Rejected
  | Some true => Ok None
  | Some false =>
      if isTextFile opened then
        match CountLines.countLines chunks fin with
        | None => Rejected
        | Some n => Ok (Some (mkFileNode (basename p) (render p) File
                                (Some true) (Some n) None None))
        end
      else Ok (Some (mkFileNode (basename p) (render p) File
                       (Some false) None None None))
  end.
Proof. reflexivity. Qed.

Lemma noNul_spec buffer :
  noNul buffer = false <-> exists i, buffer !! i = Some 0.
Proof.
  induction buffer as [|b rest IH]; simpl.
  - split; [discriminate|]. intros [i Hi]. destruct i; discriminate.
  - destruct (b =? 0) eqn:E.
    + apply Z.eqb_eq in E. subst b. split; [|reflexivity].
      intros _. exists 0%nat. reflexivity.
    + apply Z.eqb_neq in E. rewrite IH. split.
      * intros [i Hi]. exists (S i). exact Hi.
      * intros [[|i] Hi]; simpl in Hi; [congruence|]. exists i. exact Hi.
Qed.

Lemma isTextFile_window content :
  isTextFile (Some content) = false <->
  exists i, (i < Z.to_nat 8192)%nat /\ content !! i = Some 0.
Proof.
  unfold isTextFile. rewrite noNul_spec. split.
  - intros [i Hi]. apply lookup_take_Some in Hi as [Hi Hlt]. eauto.
  - intros (i & Hlt & Hi). exists i. rewrite lookup_take_lt by exact Hlt.
    exact Hi.
Qed.

(** A file whose [stat] succeeds but which cannot be opened is not
    skipped: the walk lists it as a non-text file. *)
Lemma unopenable_file_is_listed :
  buildNode (fun _ _ => 0)
    (Directory None
       (Some [(str "key.pem", RegularFile None [] CountLines.End)]))
    [str "repo"] [] []
  = Ok (Some (mkFileNode (str "repo") (str "/repo") Folder None None None
                (Some [mkFileNode (str "key.pem") (str "/repo/key.pem") File
                         (Some false) None None None]))).
Proof. reflexivity. Qed.

(** C6 (amended). A file is classified as binary exactly when a NUL
    byte occurs among its first 8192 bytes, and as text otherwise. An
    entry whose [stat] fails is skipped; a file that cannot be opened or
    read is not skipped but classified as non-text: unless an ignore
    rule removes it (or the ignore test refuses its path and throws,
    which rejects the walk), it appears in the tree with
    [isText = false] and no line count, like a binary file. *)
Theorem classification_by_nul_window :
  (forall content,
      isTextFile (Some content) = false <->
      exists i, (i < Z.to_nat 8192)%nat /\ content !! i = Some 0) /\
  isTextFile None = false /\
  (forall localeCompare chunks fin p rel stack,
      buildNode localeCompare (RegularFile None chunks fin) p rel stack =
      match shouldIgnorePathOrThrow p false stack with
      | None => Rejected
      | Some true => Ok None
      | Some false => Ok (Some (mkFileNode (basename p) (render p) File
                                  (Some false) None None None))
      end) /\
  (forall localeCompare p rel stack,
      buildNode localeCompare Inaccessible p rel stack = Ok None).
Proof.
  split; [exact isTextFile_window|].
  split; [reflexivity|].
  split; [|reflexivity].
  intros. rewrite buildNode_file. reflexivity.
Qed.

End BuildFacts.

(** ** Segments against the recorded line count *)

Module AttributionFacts.
Import Js Blame Tree Build.

(** The content is read through a symbolic link while [git blame]
    answers for the link itself: three lines are counted, one line is
    blamed, and the pass attaches the one-line segment list. *)
Lemma blame_of_other_content_disagrees :
  let content := [97; 10; 98; 10; 99; 10] in
  let stdout :=
    renderPorcelain
      [Blame.mkEntry [str "4f2a 1 1 1"; str "author X"] (str "target")] in
  let gitBlame := fun _ : jsstring => Some stdout in
  exists node node' log,
    buildNode (fun _ _ => 0)
      (RegularFile (Some content) [content] CountLines.End)
      [str "repo"; str "link"] (str "link") [] = Ok (Some node) /\
    lineCount node = Some 3 /\
    addBlameInfo gitBlame node = Some (node', log) /\
    lineCount node' = Some 3 /\
    blameSegments node' = Some [mkSegment (str "X") 1] /\
    sumLines [mkSegment (str "X") 1] <> 3.
Proof.
  do 3 eexists. split; [vm_compute; reflexivity|].
  split; [reflexivity|]. split; [vm_compute; reflexivity|].
  split; [reflexivity|]. split; [reflexivity|]. discriminate.
Qed.

(** C1 (amended). The segments of a file sum to the number of content
    lines of the blame output for it (the lines that begin with a TAB,
    one per entry of line-porcelain output), whatever the file holds;
    the recorded [lineCount] is the number of physical lines of the
    content read at tree-build time, and attaching the segments leaves
    it as it is.  The sum equals the line count exactly when the blame
    output has as many content lines as the content read has physical
    lines, which the code never checks. *)
Theorem segments_sum_to_blame_lines
    (chunks : list (list Z)) (stdout : jsstring)
    (segs : list BlameSegment) (n : Z) :
  Forall (fun c => c <> []) chunks ->
  CountLines.countLines chunks CountLines.End = Some n ->
  getBlameSegments (Some stdout) = Some segs ->
  n = Z.of_nat (List.length (physicalLines (concat chunks))) /\
  sumLines segs =
    Z.of_nat (List.length (List.filter (fun l => startsWith l [TAB])
                                       (split LF stdout))) /\
  (forall es, forallb wellFormedEntry es = true ->
              stdout = renderPorcelain es ->
              sumLines segs = Z.of_nat (List.length es)) /\
  (sumLines segs = n <->
   List.length (List.filter (fun l => startsWith l [TAB]) (split LF stdout))
   = List.length (physicalLines (concat chunks))) /\
  forall localeCompare opened p rel stack node,
    buildNode localeCompare (RegularFile opened chunks CountLines.End)
              p rel stack = Ok (Some node) ->
    isText node = Some true ->
    lineCount node = Some n /\
    lineCount (setBlameSegments segs node) = Some n /\
    blameSegments (setBlameSegments segs node) = Some segs.
Proof.
  intros Hne Hcount Hblame.
  assert (Hn : n = Z.of_nat (List.length (physicalLines (concat chunks)))).
  { rewrite (CountLinesFacts.countLines_whole chunks Hne) in Hcount.
    inversion Hcount. symmetry. apply BlameFacts.physicalLines_length. }
  assert (Hexp : sumLines segs = Z.of_nat (List.length (parseAuthors stdout))).
  { simpl in Hblame.
    destruct (parseAuthors stdout) as [|first rest] eqn:Ea; [discriminate|].
    destruct (BlameFacts.compress_some first rest) as (st & Hc & Hinv & Hexp).
    rewrite Hc in Hblame. inversion Hblame; subst segs.
    rewrite BlameFacts.sumLines_expand
      by (apply BlameFacts.inv_close_lines; assumption).
    rewrite Hexp. reflexivity. }
  assert (Hsum : sumLines segs =
            Z.of_nat (List.length (List.filter (fun l => startsWith l [TAB])
                                               (split LF stdout)))).
  { rewrite Hexp. unfold parseAuthors. rewrite BlameFacts.parse_counts.
    reflexivity. }
  split; [exact Hn|]. split; [exact Hsum|]. split; [|split].
  - intros es Hwf ->. rewrite Hexp.
    rewrite (BlameFacts.parseAuthors_length es Hwf). reflexivity.
  - rewrite Hsum, Hn. split; [intros H; lia | intros H; rewrite H; reflexivity].
  - intros localeCompare opened p rel stack node Hbuild Htext.
    rewrite BuildFacts.buildNode_file in Hbuild.
    destruct (Ignore.shouldIgnorePathOrThrow p false stack) as [[|]|];
      try discriminate.
    destruct (isTextFile opened).
    + rewrite Hcount in Hbuild. inversion Hbuild; subst node.
      repeat split.
    + inversion Hbuild; subst node. discriminate.
Qed.

Lemma segments_sum_to_blame_lines_witness :
  let chunks := [[97; 10]; [98]] in
  let es := [Blame.mkEntry [str "4f2a 1 1 2"; str "author X"] [97];
             Blame.mkEntry [str "4f2a 2 2"; str "author X"] [98]] in
  let segs := [mkSegment (str "X") 2] in
  Forall (fun c : list Z => c <> []) chunks /\
  CountLines.countLines chunks CountLines.End = Some 2 /\
  getBlameSegments (Some (renderPorcelain es)) = Some segs /\
  sumLines segs = Z.of_nat (List.length es).
Proof.
  intros chunks es segs.
  assert (H1 : Forall (fun c : list Z => c <> []) chunks).
  { repeat constructor; discriminate. }
  assert (H4 : CountLines.countLines chunks CountLines.End = Some 2)
    by reflexivity.
  assert (H5 : getBlameSegments (Some (renderPorcelain es)) = Some segs)
    by reflexivity.
  repeat (split; [assumption|]).
  exact (proj1 (proj2 (proj2
           (segments_sum_to_blame_lines chunks (renderPorcelain es) segs 2
              H1 H4 H5))) es eq_refl eq_refl).
Defined.

End AttributionFacts.

(** ** Properties of the cache and of the command *)

Module ExtensionFacts.
Import Js Tree Extension.

(** Without workspace storage the command does not proceed without a
    cache: it is rejected while constructing the cache manager. *)
Lemma unprovisioned_storage_aborts :
  showFileTree (fun _ => []) (fun _ => None)
    (mkContext None) (mkDisk ∅ true) (Some (str "c0ffee"))
    (Return (Some (mkFileNode (str "repo") (str "/repo") Folder
                     None None None None)))
    (fun t => t)
  = Throw (str "Workspace storage is not available").
Proof. reflexivity. Qed.

(** C8 (amended). When the cache storage is not provisioned,
    constructing the cache manager throws, and because the construction
    happens before the command's [try] block the command is rejected
    with that error, whatever the commit, the tree and the disk are.
    When the storage is provisioned the manager is constructed, a cache
    read that finds no file or cannot parse it is a miss, a cache write
    never throws (a failed write leaves the disk as it was), and the
    command always ends with a page in the panel. *)
Theorem cache_unavailability :
  (newCacheManager (mkContext None)
     = Throw (str "Workspace storage is not available")) /\
  (forall stringify parse d commitHash built attribute,
      showFileTree stringify parse (mkContext None) d commitHash built
                   attribute
      = Throw (str "Workspace storage is not available")) /\
  (forall uri, newCacheManager (mkContext (Some uri))
               = Return (mkCacheManager uri)) /\
  (forall parse d cm hash,
      getBlameCache parse d cm hash =
      match files d !! getCacheFilePath cm hash with
      | Some content => parse content
      | None => None
      end) /\
  (forall stringify d cm hash data,
      exists d', saveBlameCache stringify d cm hash data = Return d' /\
                 (writable d = false -> d' = d)) /\
  (forall stringify parse uri d commitHash built attribute,
      exists page d',
        showFileTree stringify parse (mkContext (Some uri)) d commitHash
                     built attribute
        = Return (page, d')).
Proof.
  split; [reflexivity|]. split; [reflexivity|]. split; [reflexivity|].
  split; [reflexivity|]. split.
  - intros stringify d cm hash data. unfold saveBlameCache.
    destruct (writable d) eqn:E; eexists; (split; [reflexivity|]);
      intros H; [discriminate | reflexivity].
  - intros stringify parse uri d commitHash built attribute.
    unfold showFileTree. simpl.
    destruct (usableHash commitHash) as [h|].
    + destruct (getBlameCache parse d (mkCacheManager uri) h); [eauto|].
      destruct built as [[t|]|m]; [|eauto|eauto].
      unfold saveBlameCache. destruct (writable d); eauto.
    + destruct built as [[t|]|m]; eauto.
Qed.

End ExtensionFacts.

(** ** Properties of colour assignment *)

Module ColorFacts.
Import Js Color.

Lemma toInt32_mod z : toInt32 z mod 2 ^ 32 = z mod 2 ^ 32.
Proof.
  unfold toInt32. destruct (z mod 2 ^ 32 <? 2 ^ 31).
  - apply Z.mod_mod. lia.
  - rewrite <- (Z.mod_add _ 1) by lia.
    replace (z mod 2 ^ 32 - 2 ^ 32 + 1 * 2 ^ 32) with (z mod 2 ^ 32) by lia.
    apply Z.mod_mod. lia.
Qed.

Lemma toInt32_congr a b :
  a mod 2 ^ 32 = b mod 2 ^ 32 -> toInt32 a = toInt32 b.
Proof. intros H. unfold toInt32. rewrite H. reflexivity. Qed.

Lemma toInt32_idem z : toInt32 (toInt32 z) = toInt32 z.
Proof. apply toInt32_congr, toInt32_mod. Qed.

Lemma toInt32_range z : - 2 ^ 31 <= toInt32 z < 2 ^ 31.
Proof.
  unfold toInt32. pose proof (Z.mod_pos_bound z (2 ^ 32) ltac:(lia)).
  destruct (z mod 2 ^ 32 <? 2 ^ 31) eqn:E.
  - apply Z.ltb_lt in E. lia.
  - apply Z.ltb_ge in E. lia.
Qed.

Lemma bitOr_zero z : bitOr z 0 = toInt32 z.
Proof.
  unfold bitOr. change (toInt32 0) with 0. rewrite Z.lor_0_r.
  apply toInt32_idem.
Qed.

(** Wrapping at every step is wrapping once at the end. *)
Lemma hash_wraps_once author : forall acc,
  fold_left hashStep author (toInt32 acc)
  = toInt32 (fold_left (fun h c => h * 31 + c) author acc).
Proof.
  induction author as [|c author IH]; intros acc; simpl; [reflexivity|].
  unfold hashStep at 2. rewrite bitOr_zero.
  rewrite <- IH. f_equal. apply toInt32_congr.
  rewrite Z.add_mod, Z.mul_mod, toInt32_mod by lia.
  rewrite <- Z.mul_mod, <- Z.add_mod by lia. reflexivity.
Qed.

Lemma hashOf_polynomial author : hashOf author = toInt32 (polynomial author).
Proof. unfold hashOf, polynomial. apply (hash_wraps_once author 0). Qed.




End ColorFacts.

(** ** Properties of the layered ignore decision *)

Module IgnoreFacts.
Import Js Path Ignore.

Lemma stripCommon_inside (b abs : path) :
  b `prefix_of` abs -> stripCommon b abs = ([], drop (List.length b) abs).
Proof.
  intros [rest ->]. induction b as [|c b IH]; simpl.
  - destruct rest; reflexivity.
  - unfold eqb. rewrite bool_decide_eq_true_2 by reflexivity. exact IH.
Qed.

Lemma stripCommon_outside (b : path) : forall abs : path,
  ~ b `prefix_of` abs ->
  exists u up down, stripCommon b abs = (u :: up, down).
Proof.
  induction b as [|c b IH]; intros abs H.
  - exfalso. apply H. apply prefix_nil.
  - destruct abs as [|a abs]; simpl; [eauto|].
    unfold eqb. destruct (bool_decide (c = a)) eqn:E; [|eauto].
    apply bool_decide_eq_true in E. subst a. apply IH.
    intros Hp. apply H. apply prefix_cons. exact Hp.
Qed.

Lemma joinWith_dotdot_first sep rest :
  startsWith (joinWith sep ([DOT; DOT] :: rest)) [DOT; DOT] = true.
Proof. destruct rest; reflexivity. Qed.

(** Outside the base, [path.relative] climbs, so the entry is skipped. *)
Lemma relative_outside (b abs : path) :
  ~ b `prefix_of` abs -> startsWith (relative b abs) [DOT; DOT] = true.
Proof.
  intros H. unfold relative.
  destruct (stripCommon_outside b abs H) as (u & up & down & ->).
  cbn [List.map app]. apply joinWith_dotdot_first.
Qed.

Lemma relative_inside (b abs : path) :
  b `prefix_of` abs ->
  relative b abs = joinWith [SLASH] (drop (List.length b) abs).
Proof.
  intros H. unfold relative. rewrite stripCommon_inside by exact H.
  reflexivity.
Qed.

Lemma ignoreStep_outside abs isDir acc e :
  ~ contains (base e) abs -> ignoreStep abs isDir acc e = acc.
Proof.
  intros H. unfold ignoreStep. rewrite relative_outside by exact H.
  reflexivity.
Qed.

Lemma ignoreStep_inside abs isDir acc e :
  contains (base e) abs ->
  startsWith (joinWith [SLASH] (drop (List.length (base e)) abs)) [DOT; DOT]
    = false ->
  ignoreStep abs isDir acc e =
  match assertion abs isDir e with Some b => b | None => acc end.
Proof.
  intros Hin Hdots. unfold ignoreStep, assertion.
  rewrite bool_decide_eq_true_2 by exact Hin.
  rewrite relative_inside by exact Hin. rewrite Hdots.
  destruct (matcher e _) as [i u]. simpl.
  destruct u, i; reflexivity.
Qed.

(** X16. An entry whose base does not contain the path contributes nothing,
    wherever it sits in the stack. *)
Lemma outside_entry_contributes_nothing abs isDir s1 e s2 :
  ~ contains (base e) abs ->
  shouldIgnorePath abs isDir (s1 ++ e :: s2)
  = shouldIgnorePath abs isDir (s1 ++ s2).
Proof.
  intros H. unfold shouldIgnorePath. rewrite !fold_left_app. simpl.
  rewrite ignoreStep_outside by exact H. reflexivity.
Qed.

(** X17. Where no containing entry sees a relative path that begins with two
    dots, the loop is the last-assertion-wins procedure. *)
Lemma shouldIgnorePath_lastAssertionWins abs isDir stack :
  Forall (fun e =>
            contains (base e) abs ->
            startsWith (joinWith [SLASH] (drop (List.length (base e)) abs))
                       [DOT; DOT] = false) stack ->
  shouldIgnorePath abs isDir stack = lastAssertionWins abs isDir stack.
Proof.
  intros H. unfold shouldIgnorePath, lastAssertionWins. generalize false.
  induction H as [|e stack He Hrest IH]; intros acc; simpl; [reflexivity|].
  destruct (decide (contains (base e) abs)) as [Hin|Hout].
  - rewrite (ignoreStep_inside abs isDir acc e Hin (He Hin)).
    apply IH.
  - rewrite ignoreStep_outside by exact Hout.
    unfold assertion at 2. rewrite bool_decide_eq_false_2 by exact Hout.
    apply IH.
Qed.

(** C4 (the code departs from the claim). For a path whose name begins
    with two dots the containing entries are skipped as if the path lay
    outside their base. With the root rule [..cache], the file
    [/repo/..cache] is reported as not ignored although the only entry
    contains it and asserts "ignored"; the walk therefore lists the file.
    With the root rule [..x] and the rule [!..x] in [/repo/sub], the file
    [/repo/sub/..x] stays ignored although the deeper entry un-ignores
    it. The last-assertion-wins procedure gives the opposite answers. *)
Theorem shouldIgnorePath_skips_dotdot_names :
  let repo := [str "repo"] in
  let sub := [str "repo"; str "sub"] in
  let rootRule := mkEntry repo (nameRule false (str "..cache")) in
  let ignoreX := mkEntry repo (nameRule false (str "..x")) in
  let keepX := mkEntry sub (nameRule true (str "..x")) in
  shouldIgnorePath (repo ++ [str "..cache"]) false [rootRule] = false /\
  lastAssertionWins (repo ++ [str "..cache"]) false [rootRule] = true /\
  shouldIgnorePath (sub ++ [str "..x"]) false [ignoreX; keepX] = true /\
  lastAssertionWins (sub ++ [str "..x"]) false [ignoreX; keepX] = false /\
  Build.buildFileTree (fun _ _ => 0) true (str "repo") repo
    (nameRule false (str "..cache"))
    (Build.Directory (Some (nameRule false (str "..cache")))
       (Some [(str ".gitignore",
               Build.RegularFile (Some (str "..cache" ++ [LF]))
                                 [str "..cache" ++ [LF]] CountLines.End);
              (str "..cache",
               Build.RegularFile (Some [120; 10]) [[120; 10]] CountLines.End)]))
  = Build.Ok (Some (Tree.mkFileNode (str "repo") (str "/repo") Tree.Folder
                      None None None
                      (Some [Tree.mkFileNode (str ".gitignore")
                               (str "/repo/.gitignore") Tree.File
                               (Some true) (Some 1) None None;
                             Tree.mkFileNode (str "..cache")
                               (str "/repo/..cache") Tree.File
                               (Some true) (Some 1) None None]))).
Proof. repeat split; vm_compute; reflexivity. Qed.

End IgnoreFacts.

(** ** Properties of rectangle packing *)

Module PackingFacts.
Import Packing.
#[local] Open Scope Q_scope.

Section Facts.
Context {A : Type}.
Implicit Types (r : rect A) (rects sorted : list (rect A)).
Implicit Types (free : list freeRect) (placed : list (placedRect A)).

Lemma insertRect_perm r sorted : insertRect r sorted ≡ₚ r :: sorted.
Proof.
  induction sorted as [|s sorted IH]; simpl; [reflexivity|].
  destruct (leb (maxDim s - maxDim r) 0); [reflexivity|].
  rewrite IH. apply Permutation_swap.
Qed.

Lemma sortRects_perm rects : sortRects rects ≡ₚ rects.
Proof.
  induction rects as [|r rects IH]; simpl; [reflexivity|].
  rewrite insertRect_perm, IH. reflexivity.
Qed.

(** The index found is the incoming one or a valid index of the list. *)
Lemma findBest_range r free : forall i bestIndex bestScore k,
  findBest r free i bestIndex bestScore = Some k ->
  bestIndex = Some k \/ (i <= k < i + List.length free)%nat.
Proof.
  induction free as [|fr free IH]; intros i bi bs k H; simpl in H.
  - left. exact H.
  - assert (Hrec : forall bi' bs',
               findBest r free (S i) bi' bs' = Some k ->
               bi' = Some k \/ (i <= k < i + List.length (fr :: free))%nat).
    { intros bi' bs' H'. destruct (IH _ _ _ _ H') as [->|Hk]; [left; reflexivity|].
      right. simpl. lia. }
    destruct (fits r fr).
    + destruct (match bs with Some b => ltb _ b | None => true end).
      * destruct (Hrec _ _ H) as [Heq|Hk]; [|right; exact Hk].
        inversion Heq; subst. right. simpl. lia.
      * apply (Hrec _ _ H).
    + apply (Hrec _ _ H).
Qed.

Lemma findBest_keeps r free : forall i b bestScore,
  findBest r free i (Some b) bestScore <> None.
Proof.
  induction free as [|fr free IH]; intros i b bs; simpl; [discriminate|].
  destruct (fits r fr); [|apply IH].
  destruct (match bs with Some s => ltb _ s | None => true end); apply IH.
Qed.

(** Nothing is found exactly when no free rectangle fits. *)
Lemma findBest_none r free : forall i,
  findBest r free i None None = None <-> existsb (fits r) free = false.
Proof.
  induction free as [|fr free IH]; intros i; simpl; [tauto|].
  destruct (fits r fr); simpl.
  - split; [|discriminate]. intros H. exfalso. exact (findBest_keeps _ _ _ _ _ H).
  - apply IH.
Qed.

Lemma findBest_fits r free : forall i bestIndex bestScore k,
  findBest r free i bestIndex bestScore = Some k ->
  bestIndex = Some k \/
  exists fr, free !! (k - i)%nat = Some fr /\ (i <= k)%nat /\ fits r fr = true.
Proof.
  induction free as [|fr free IH]; intros i bi bs k H; simpl in H.
  - left. exact H.
  - assert (Hrec : forall bi' bs',
               findBest r free (S i) bi' bs' = Some k ->
               bi' = Some k \/
               exists fr', (fr :: free) !! (k - i)%nat = Some fr' /\
                           (i <= k)%nat /\ fits r fr' = true).
    { intros bi' bs' H'.
      destruct (IH _ _ _ _ H') as [->|(fr' & Hl & Hle & Hf)];
        [left; reflexivity|].
      right. exists fr'. split; [|split; [lia|exact Hf]].
      replace (k - i)%nat with (S (k - S i)) by lia. exact Hl. }
    destruct (fits r fr) eqn:Ef.
    + destruct (match bs with Some b => ltb _ b | None => true end).
      * destruct (Hrec _ _ H) as [Heq|Hk]; [|right; exact Hk].
        inversion Heq; subst. right. exists fr.
        rewrite Nat.sub_diag. auto.
      * apply (Hrec _ _ H).
    + apply (Hrec _ _ H).
Qed.

(** One iteration of the placement loop always places its rectangle:
    in a free rectangle that fits it when there is one, and otherwise at
    the left edge, at height [total]. *)
Lemma placeOne_places total targetWidth free placed r :
  exists free' p,
    placeOne total targetWidth (free, placed) r = Some (free', placed ++ [p]) /\
    source p = r /\
    (existsb (fits r) free = false -> x p = 0 /\ y p = total) /\
    (existsb (fits r) free = true ->
       exists fr, fr ∈ free /\ fits r fr = true /\
                  x p = fx fr /\ y p = fy fr).
Proof.
  unfold placeOne.
  destruct (findBest r free 0 None None) as [k|] eqn:E.
  - destruct (findBest_fits _ _ _ _ _ _ E) as [Hk|(fr & Hl & _ & Hf)];
      [discriminate|].
    rewrite Nat.sub_0_r in Hl. rewrite Hl.
    eexists _, _. split; [reflexivity|]. split; [reflexivity|]. split.
    + intros Hno. apply findBest_none with (i := 0%nat) in Hno. congruence.
    + intros _. exists fr. split; [|auto].
      apply list_elem_of_lookup. eauto.
  - rewrite List.length_app. simpl.
    replace (List.length free + 1 - 1)%nat with (List.length free) by lia.
    rewrite lookup_app_r by lia. rewrite Nat.sub_diag. simpl.
    eexists _, _. split; [reflexivity|]. split; [reflexivity|]. split.
    + auto.
    + intros Hsome. apply findBest_none in E. congruence.
Qed.

Lemma placeAll_places total targetWidth sorted : forall free placed,
  exists free' placed',
    placeAll total targetWidth sorted (free, placed) = Some (free', placed') /\
    List.map source placed' = List.map source placed ++ sorted.
Proof.
  induction sorted as [|r sorted IH]; intros free placed; cbn [placeAll].
  - exists free, placed. rewrite app_nil_r. auto.
  - destruct (placeOne_places total targetWidth free placed r)
      as (free1 & p & -> & Hp & _).
    destruct (IH free1 (placed ++ [p])) as (free' & placed' & -> & Hmap).
    exists free', placed'. split; [reflexivity|].
    rewrite Hmap, List.map_app. simpl. rewrite Hp, <- app_assoc. reflexivity.
Qed.

(** C7. Packing never fails. For every list of rectangles and every
    target width [packMaxRects] returns a result (the read of
    [freeRects[bestIndex]] is always defined, so there is no error
    branch), and the placed rectangles are the input rectangles, each
    exactly once, in sorted order. In every iteration the rectangle is
    placed in a free region that fits it when one exists; when none fits,
    a region is appended below (at height [totalHeight], left edge) and
    the rectangle is placed there. *)
Theorem packMaxRects_never_fails rects (targetWidth : Q) :
  (exists p,
      packMaxRects rects targetWidth = Some p /\
      List.map source (children p) = sortRects rects /\
      List.map source (children p) ≡ₚ rects) /\
  (forall total free placed r,
      exists free' p,
        placeOne total targetWidth (free, placed) r
          = Some (free', placed ++ [p]) /\
        source p = r /\
        (existsb (fits r) free = false -> x p = 0 /\ y p = total) /\
        (existsb (fits r) free = true ->
           exists fr, fr ∈ free /\ fits r fr = true /\
                      x p = fx fr /\ y p = fy fr)).
Proof.
  split.
  - unfold packMaxRects.
    destruct (placeAll_places (totalHeight rects) targetWidth (sortRects rects)
                [mkFree 0 0 targetWidth (totalHeight rects)] [])
      as (free' & placed' & -> & Hmap).
    simpl in Hmap. eexists. split; [reflexivity|]. simpl.
    split; [exact Hmap|]. rewrite Hmap. apply sortRects_perm.
  - intros. apply placeOne_places.
Qed.

(** *** Rectangles wider than the target width *)

Lemma leb_le a b : leb a b = true <-> a <= b.
Proof. apply Qle_bool_iff. Qed.

Lemma leb_gt a b : b < a -> leb a b = false.
Proof.
  intros H. destruct (leb a b) eqn:E; [|reflexivity].
  apply leb_le in E. lra.
Qed.

Lemma ltb_ge a b : b <= a -> ltb a b = false.
Proof.
  intros H. unfold ltb. apply negb_false_iff. apply Qle_bool_iff. exact H.
Qed.

(** A rectangle wider than the target fits nowhere in the initial region
    and is placed at the corner of the appended region; nothing is left
    of that region, so the free list is as before. *)
Lemma placeOne_too_narrow total targetWidth placed r :
  targetWidth < width r ->
  placeOne total targetWidth ([mkFree 0 0 targetWidth total], placed) r
  = Some ([mkFree 0 0 targetWidth total], placed ++ [mkPlaced r 0 total]).
Proof.
  intros Hw. unfold placeOne. cbn [findBest]. unfold fits. cbn [fwidth].
  rewrite (leb_gt _ _ Hw). cbn [andb List.length app Nat.sub].
  cbn [lookup list_lookup]. cbn [fx fy fwidth fheight delete list_delete].
  rewrite (ltb_ge 0 (targetWidth - width r - gap)) by (unfold gap; lra).
  rewrite (ltb_ge 0 (height r + gap - height r - gap)) by lra.
  rewrite andb_false_r. cbn [andb]. reflexivity.
Qed.

Lemma placeAll_too_narrow total targetWidth sorted : forall placed,
  Forall (fun r => targetWidth < width r) sorted ->
  placeAll total targetWidth sorted ([mkFree 0 0 targetWidth total], placed)
  = Some ([mkFree 0 0 targetWidth total],
          placed ++ List.map (fun r => mkPlaced r 0 total) sorted).
Proof.
  induction sorted as [|r sorted IH]; intros placed H; cbn [placeAll].
  - rewrite app_nil_r. reflexivity.
  - inversion H as [|? ? Hr Hrest]; subst.
    rewrite placeOne_too_narrow by exact Hr. rewrite IH by exact Hrest.
    rewrite <- app_assoc. reflexivity.
Qed.

(** X5. When every rectangle is wider than the target width, all of them
    are placed at the same corner, the left edge at height [totalHeight]:
    with two or more such rectangles the children coincide there. *)
Lemma packMaxRects_too_narrow rects targetWidth :
  Forall (fun r => targetWidth < width r) rects ->
  exists p,
    packMaxRects rects targetWidth = Some p /\
    children p =
    List.map (fun r => mkPlaced r 0 (totalHeight rects)) (sortRects rects).
Proof.
  intros H. unfold packMaxRects.
  rewrite placeAll_too_narrow.
  - eexists. split; reflexivity.
  - eapply Permutation_Forall; [|exact H].
    symmetry. apply sortRects_perm.
Qed.

(** *** What holds when every rectangle fits the target width *)

Lemma pairs_snoc {T} (R : T -> T -> Prop) l x :
  ForallOrdPairs R l -> Forall (fun y => R y x) l ->
  ForallOrdPairs R (l ++ [x]).
Proof.
  induction 1 as [|a l Ha Hl IH]; intros HF; simpl.
  - repeat constructor.
  - inversion HF as [|? ? Hax Hrest]; subst. constructor.
    + apply Forall_app. split; [exact Ha|].
      constructor; [exact Hax | constructor].
    + apply IH. exact Hrest.
Qed.

Lemma pairs_delete {T} (R : T -> T -> Prop) l : forall k,
  ForallOrdPairs R l -> ForallOrdPairs R (delete k l).
Proof.
  induction l as [|a l IH]; intros k H; [destruct k; exact H|].
  inversion H as [|? ? Ha Hl]; subst. destruct k; simpl; [exact Hl|].
  constructor; [apply Forall_delete; exact Ha | apply IH; exact Hl].
Qed.

Lemma pairs_others {T} (R : T -> T -> Prop) l :
  (forall a b, R a b -> R b a) ->
  forall k t, ForallOrdPairs R l -> l !! k = Some t ->
              Forall (R t) (delete k l).
Proof.
  intros Hsym. induction l as [|a l IH]; intros k t H Hk; [destruct k; discriminate|].
  inversion H as [|? ? Ha Hl]; subst. destruct k; simpl in *.
  - inversion Hk; subst. exact Ha.
  - constructor.
    + apply Hsym. eapply Forall_lookup_1; eassumption.
    + apply IH; assumption.
Qed.

Lemma pairs_lookup {T} (R : T -> T -> Prop) l :
  (forall a b, R a b -> R b a) ->
  forall i j a b, ForallOrdPairs R l -> i <> j ->
                  l !! i = Some a -> l !! j = Some b -> R a b.
Proof.
  intros Hsym. induction l as [|c l IH]; intros i j a b H Hij Hi Hj;
    [destruct i; discriminate|].
  inversion H as [|? ? Hc Hl]; subst.
  destruct i as [|i], j as [|j]; simpl in *.
  - congruence.
  - inversion Hi; subst. eapply Forall_lookup_1; eassumption.
  - inversion Hj; subst. apply Hsym. eapply Forall_lookup_1; eassumption.
  - eapply (IH i j); eauto.
Qed.

Lemma lookup_delete_other {T} (l : list T) m k f :
  l !! m = Some f -> m <> k -> f ∈ delete k l.
Proof.
  intros Hm Hne. apply list_elem_of_lookup.
  destruct (Nat.lt_ge_cases m k) as [Hlt|Hge].
  - exists m. rewrite list_lookup_delete_lt by exact Hlt. exact Hm.
  - exists (Nat.pred m). rewrite list_lookup_delete_ge by lia.
    replace (S (Nat.pred m)) with m by lia. exact Hm.
Qed.

(** Pruning only deletes. *)
Lemma pruneFrom_closed (P : list freeRect -> Prop) :
  (forall l k, P l -> P (delete k l)) ->
  forall i l, P l -> P (pruneFrom i l).
Proof.
  intros Hdel. induction i as [|i IH]; intros l H; simpl; [exact H|].
  apply IH. destruct (l !! i) as [a|]; [|exact H].
  destruct (coveredBy a i 0 l); [apply Hdel|]; exact H.
Qed.

Lemma coveredBy_true a i l : forall j,
  coveredBy a i j l = true ->
  exists m b, l !! m = Some b /\ i <> (j + m)%nat /\ containedIn a b = true.
Proof.
  induction l as [|c l IH]; intros j H; simpl in H; [discriminate|].
  apply orb_true_iff in H as [H|H].
  - apply andb_true_iff in H as [Hne Hc]. exists 0%nat, c.
    split; [reflexivity|]. split; [|exact Hc].
    apply negb_true_iff, Nat.eqb_neq in Hne. lia.
  - destruct (IH _ H) as (m & b & Hm & Hne & Hc).
    exists (S m), b. split; [exact Hm|]. split; [lia | exact Hc].
Qed.

(** A region deleted by pruning lies inside one that stays, so a property
    that passes to enclosing regions survives pruning. *)
Lemma pruneFrom_cover (Q : freeRect -> Prop) :
  (forall a b, Q a -> containedIn a b = true -> Q b) ->
  forall i l, Exists Q l -> Exists Q (pruneFrom i l).
Proof.
  intros Hup. induction i as [|i IH]; intros l H; simpl; [exact H|].
  apply IH. destruct (l !! i) as [a|] eqn:Ea; [|exact H].
  destruct (coveredBy a i 0 l) eqn:Ec; [|exact H].
  apply Exists_exists in H as (f & Hf & HQ).
  apply list_elem_of_lookup in Hf as [m Hm].
  apply Exists_exists.
  destruct (decide (m = i)) as [->|Hne].
  - rewrite Ea in Hm. inversion Hm; subst f.
    destruct (coveredBy_true _ _ _ _ Ec) as (j & b & Hj & Hji & Hc).
    exists b. split; [|eapply Hup; eassumption].
    eapply lookup_delete_other; [exact Hj|]. simpl in Hji. lia.
  - exists f. split; [|exact HQ]. eapply lookup_delete_other; eassumption.
Qed.

Lemma ltb_lt a b : ltb a b = true <-> a < b.
Proof.
  unfold ltb. rewrite negb_true_iff. split.
  - intros H. destruct (Qlt_le_dec a b) as [Hlt|Hle]; [exact Hlt|].
    apply Qle_bool_iff in Hle. congruence.
  - intros H. destruct (Qle_bool b a) eqn:E; [|reflexivity].
    apply Qle_bool_iff in E. lra.
Qed.

Lemma fits_le r fr :
  fits r fr = true <-> width r <= fwidth fr /\ height r <= fheight fr.
Proof. unfold fits. rewrite andb_true_iff, !leb_le. reflexivity. Qed.

Lemma containedIn_le a b :
  containedIn a b = true ->
  fx b <= fx a /\ fy b <= fy a /\
  fx a + fwidth a <= fx b + fwidth b /\
  fy a + fheight a <= fy b + fheight b.
Proof.
  unfold containedIn. rewrite !andb_true_iff, !leb_le. tauto.
Qed.

Lemma freeApart_sym f g : freeApart f g -> freeApart g f.
Proof. unfold freeApart, apart. tauto. Qed.

Lemma placedApart_sym (p q : placedRect A) : placedApart p q -> placedApart q p.
Proof. unfold placedApart, apart. tauto. Qed.

Lemma placedApart_overlap (p q : placedRect A) :
  placedApart p q -> ~ overlap p q.
Proof. unfold placedApart, apart, overlap. intros H (H1 & H2 & H3 & H4). lra. Qed.

Lemma need_nonneg rects :
  Forall (fun r => 0 <= height r) rects -> 0 <= need rects.
Proof.
  induction 1 as [|r rects Hr _ IH]; simpl; [lra|]. unfold gap. lra.
Qed.

Lemma need_pos r rects :
  0 <= height r -> Forall (fun r => 0 <= height r) rects ->
  0 < need (r :: rects).
Proof.
  intros Hr H. pose proof (need_nonneg rects H). simpl. unfold gap. lra.
Qed.

Ltac split_apart H :=
  unfold freeApart, clearOf, placedApart, apart in *; simpl in *;
  destruct H as [H|[H|[H|H]]].

Ltac pick_side :=
  first [ left; lra | right; left; lra
        | right; right; left; lra | right; right; right; lra ].

Section Step.
Variables (r : rect A) (target : freeRect).
Hypothesis Hwidth : 0 <= width r.
Hypothesis Hheight : 0 <= height r.
Hypothesis Hfits : fits r target = true.

Let placedRect := mkPlaced r (fx target) (fy target).
Let right := mkFree (fx target + width r + gap) (fy target)
                    (fwidth target - width r - gap) (height r).
Let bottom := mkFree (fx target) (fy target + height r + gap)
                     (fwidth target) (fheight target - height r - gap).

(** What was apart from the chosen region is apart from its pieces. *)
Lemma pieces_apart_from_free f :
  freeApart target f ->
  freeApart f right /\ freeApart f bottom /\ clearOf f placedRect.
Proof.
  intros H. apply fits_le in Hfits as [Hw Hh]. unfold gap in *.
  subst placedRect right bottom.
  repeat split; split_apart H; pick_side.
Qed.

Lemma pieces_clear_of_placed q :
  clearOf target q ->
  clearOf right q /\ clearOf bottom q /\ placedApart q placedRect.
Proof.
  intros H. apply fits_le in Hfits as [Hw Hh]. unfold gap in *.
  subst placedRect right bottom.
  repeat split; split_apart H; pick_side.
Qed.

Lemma pieces_apart :
  clearOf right placedRect /\ clearOf bottom placedRect /\
  freeApart right bottom.
Proof.
  unfold gap in *. subst placedRect right bottom.
  unfold freeApart, clearOf, apart; simpl. unfold gap.
  repeat split; pick_side.
Qed.

End Step.

Lemma good_push free placed e :
  ForallOrdPairs freeApart free ->
  Forall (fun f => Forall (clearOf f) placed) free ->
  Forall (fun f => freeApart f e) free ->
  Forall (clearOf e) placed ->
  ForallOrdPairs freeApart (free ++ [e]) /\
  Forall (fun f => Forall (clearOf f) placed) (free ++ [e]).
Proof.
  intros H1 H2 H3 H4. split.
  - apply pairs_snoc; assumption.
  - apply Forall_app. split; [assumption|].
    constructor; [assumption | constructor].
Qed.

(** One iteration keeps the invariant, and never takes the branch that
    appends a region. *)
Lemma placeOne_fitting total targetWidth r rest free placed :
  0 < targetWidth ->
  0 <= width r -> width r <= targetWidth -> 0 <= height r ->
  Forall (fun r' => 0 <= height r') rest ->
  fitting targetWidth (r :: rest) (free, placed) ->
  exists st',
    placeOne total targetWidth (free, placed) r = Some st' /\
    fitting targetWidth rest st'.
Proof.
  intros Htw Hw0 Hw Hh0 Hrest [Hfree Hclear Hplaced Hchain]. simpl in *.
  pose proof (need_nonneg rest Hrest) as Hneed.
  specialize (Hchain ltac:(discriminate)).
  apply Exists_exists in Hchain as (wit & Hwit & Hwide & Htall).
  simpl in Htall. unfold gap in Htall.
  (* some region fits, so the search succeeds *)
  assert (Hsome : existsb (fits r) free = true).
  { apply existsb_exists. exists wit. split.
    - apply list_elem_of_In. exact Hwit.
    - apply fits_le. split; lra. }
  destruct (findBest r free 0 None None) as [k|] eqn:E;
    [|apply findBest_none in E; congruence].
  destruct (findBest_fits _ _ _ _ _ _ E) as [Hk|(target & Hl & _ & Hf)];
    [discriminate|].
  rewrite Nat.sub_0_r in Hl.
  unfold placeOne. rewrite Hl. eexists. split; [reflexivity|].
  set (p := mkPlaced r (fx target) (fy target)).
  set (rightR := mkFree (fx target + width r + gap) (fy target)
                        (fwidth target - width r - gap) (height r)).
  set (bottomR := mkFree (fx target) (fy target + height r + gap)
                         (fwidth target) (fheight target - height r - gap)).
  set (free2 := delete k free).
  (* facts about the chosen region *)
  assert (Hothers : Forall (freeApart target) free2)
    by (apply (pairs_others freeApart free freeApart_sym k target Hfree Hl)).
  assert (Htclear : Forall (clearOf target) placed)
    by (apply (Forall_lookup_1 (fun f => Forall (clearOf f) placed)
                 free k target Hclear Hl)).
  assert (Hfree2 : ForallOrdPairs freeApart free2) by (apply pairs_delete; assumption).
  assert (Hpf : forall f, freeApart target f ->
                 freeApart f rightR /\ freeApart f bottomR /\ clearOf f p)
    by (exact (pieces_apart_from_free r target Hw0 Hh0 Hf)).
  assert (Hpq : forall q, clearOf target q ->
                 clearOf rightR q /\ clearOf bottomR q /\ placedApart q p)
    by (exact (pieces_clear_of_placed r target Hw0 Hh0 Hf)).
  assert (Hpp : clearOf rightR p /\ clearOf bottomR p /\ freeApart rightR bottomR)
    by (exact (pieces_apart r target)).
  assert (Hclear2 : Forall (fun f => Forall (clearOf f) (placed ++ [p])) free2).
  { apply Forall_forall. intros f Hin. apply Forall_app. split.
    - apply (proj1 (Forall_forall _ _) Hclear).
      eapply list_elem_of_delete_inv. exact Hin.
    - constructor; [|constructor]. apply Hpf.
      apply (proj1 (Forall_forall _ _) Hothers). exact Hin. }
  assert (Hright2 : Forall (fun f => freeApart f rightR) free2).
  { eapply Forall_impl; [exact Hothers|]. intros f Hfa. apply Hpf. exact Hfa. }
  assert (Hbottom2 : Forall (fun f => freeApart f bottomR) free2).
  { eapply Forall_impl; [exact Hothers|]. intros f Hfa. apply Hpf. exact Hfa. }
  assert (Hrightc : Forall (clearOf rightR) (placed ++ [p])).
  { apply Forall_app. split.
    - eapply Forall_impl; [exact Htclear|]. intros q Hq. apply Hpq. exact Hq.
    - constructor; [|constructor]. apply Hpp. }
  assert (Hbottomc : Forall (clearOf bottomR) (placed ++ [p])).
  { apply Forall_app. split.
    - eapply Forall_impl; [exact Htclear|]. intros q Hq. apply Hpq. exact Hq.
    - constructor; [|constructor]. apply Hpp. }
  assert (Hrb : freeApart rightR bottomR) by apply Hpp.
  set (free3 := if ltb 0 (fwidth rightR) && ltb 0 (fheight rightR)
                then free2 ++ [rightR] else free2).
  assert (H3 : ForallOrdPairs freeApart free3 /\
               Forall (fun f => Forall (clearOf f) (placed ++ [p])) free3 /\
               Forall (fun f => freeApart f bottomR) free3).
  { subst free3. destruct (ltb 0 (fwidth rightR) && ltb 0 (fheight rightR)).
    - destruct (good_push free2 (placed ++ [p]) rightR) as [Ha Hb]; try assumption.
      split; [exact Ha|]. split; [exact Hb|].
      apply Forall_app. split; [exact Hbottom2|].
      constructor; [exact Hrb | constructor].
    - auto. }
  destruct H3 as (Hfree3 & Hclear3 & Hbottom3).
  set (free4 := if ltb 0 (fwidth bottomR) && ltb 0 (fheight bottomR)
                then free3 ++ [bottomR] else free3).
  assert (H4 : ForallOrdPairs freeApart free4 /\
               Forall (fun f => Forall (clearOf f) (placed ++ [p])) free4).
  { subst free4. destruct (ltb 0 (fwidth bottomR) && ltb 0 (fheight bottomR)).
    - apply good_push; assumption.
    - auto. }
  constructor; simpl.
  - apply (pruneFrom_closed (ForallOrdPairs freeApart)); [|apply H4].
    intros l j. apply pairs_delete.
  - apply (pruneFrom_closed
             (Forall (fun f => Forall (clearOf f) (placed ++ [p])))); [|apply H4].
    intros l j. apply Forall_delete.
  - apply pairs_snoc; [exact Hplaced|].
    eapply Forall_impl; [exact Htclear|]. intros q Hq. apply Hpq. exact Hq.
  - intros Hne. apply pruneFrom_cover.
    { intros a b [Ha1 Ha2] Hc. apply containedIn_le in Hc. lra. }
    apply Exists_exists.
    apply list_elem_of_lookup in Hwit as [m Hm].
    destruct (decide (m = k)) as [->|Hmk].
    + (* the chosen region was the tall one: its bottom piece takes over *)
      rewrite Hl in Hm. inversion Hm; subst wit.
      destruct rest as [|r2 rest2]; [congruence|].
      inversion Hrest as [|? ? Hr2 Hrest2]; subst.
      pose proof (need_pos r2 rest2 Hr2 Hrest2) as Hpos.
      assert (Hin4 : bottomR ∈ free4).
      { subst free4.
        replace (ltb 0 (fwidth bottomR)) with true
          by (symmetry; apply ltb_lt; simpl; lra).
        replace (ltb 0 (fheight bottomR)) with true
          by (symmetry; apply ltb_lt; simpl; unfold gap; lra).
        simpl. apply elem_of_app. right. apply list_elem_of_singleton.
        reflexivity. }
      exists bottomR. split; [exact Hin4|].
      simpl in Htall, Hpos |- *. unfold gap in *. split; lra.
    + assert (Hin2 : wit ∈ free2) by (eapply lookup_delete_other; eassumption).
      assert (Hin3 : wit ∈ free3).
      { subst free3.
        destruct (ltb 0 (fwidth rightR) && ltb 0 (fheight rightR));
          [apply elem_of_app; left|]; exact Hin2. }
      assert (Hin4 : wit ∈ free4).
      { subst free4.
        destruct (ltb 0 (fwidth bottomR) && ltb 0 (fheight bottomR));
          [apply elem_of_app; left|]; exact Hin3. }
      exists wit. split; [exact Hin4|]. split; lra.
Qed.

Lemma placeAll_fitting total targetWidth sorted : forall free placed,
  0 < targetWidth ->
  Forall (fun r => 0 <= width r /\ width r <= targetWidth /\ 0 <= height r)
         sorted ->
  fitting targetWidth sorted (free, placed) ->
  exists st',
    placeAll total targetWidth sorted (free, placed) = Some st' /\
    fitting targetWidth [] st'.
Proof.
  induction sorted as [|r sorted IH]; intros free placed Htw Hall Hinv;
    cbn [placeAll].
  - eauto.
  - inversion Hall as [|? ? (Hw0 & Hw & Hh0) Hrest]; subst.
    assert (Hheights : Forall (fun r' => 0 <= height r') sorted).
    { eapply Forall_impl; [exact Hrest|]. intros ? (_ & _ & ?). assumption. }
    destruct (placeOne_fitting total targetWidth r sorted free placed
                Htw Hw0 Hw Hh0 Hheights Hinv) as ([free' placed'] & -> & Hinv').
    apply IH; assumption.
Qed.

Lemma totalHeight_need_from rects : forall a,
  fold_left (fun sum r => sum + height r) rects a
  + inject_Z (Z.of_nat (List.length rects)) * gap == a + need rects.
Proof.
  induction rects as [|r rects IH]; intros a.
  - cbn [fold_left List.length need fold_right].
    change (inject_Z (Z.of_nat 0)) with 0. lra.
  - cbn [fold_left List.length need fold_right].
    rewrite Nat2Z.inj_succ. unfold Z.succ. rewrite inject_Z_plus.
    change (inject_Z 1) with 1.
    specialize (IH (a + height r)). fold (need rects). lra.
Qed.

Lemma totalHeight_need rects : totalHeight rects == need rects.
Proof.
  unfold totalHeight. rewrite totalHeight_need_from. lra.
Qed.

Lemma need_perm rects rects' : rects ≡ₚ rects' -> need rects == need rects'.
Proof.
  induction 1; simpl in *; lra.
Qed.

(** While every rectangle fits the target width, the search finds a
    region for the next one. *)
Lemma fitting_finds targetWidth r rest free placed :
  0 <= width r -> width r <= targetWidth -> 0 <= height r ->
  Forall (fun r' => 0 <= height r') rest ->
  fitting targetWidth (r :: rest) (free, placed) ->
  exists k, findBest r free 0 None None = Some k.
Proof.
  intros Hw0 Hw Hh0 Hrest [_ _ _ Hchain]. simpl in *.
  pose proof (need_nonneg rest Hrest) as Hneed.
  specialize (Hchain ltac:(discriminate)).
  apply Exists_exists in Hchain as (wit & Hwit & Hwide & Htall).
  simpl in Htall. unfold gap in Htall.
  assert (Hsome : existsb (fits r) free = true).
  { apply existsb_exists. exists wit. split.
    - apply list_elem_of_In. exact Hwit.
    - apply fits_le. split; lra. }
  destruct (findBest r free 0 None None) as [k|] eqn:E; [eauto|].
  apply findBest_none in E. congruence.
Qed.

Lemma appendsRegion_fitting total targetWidth sorted : forall free placed,
  0 < targetWidth ->
  Forall (fun r => 0 <= width r /\ width r <= targetWidth /\ 0 <= height r)
         sorted ->
  fitting targetWidth sorted (free, placed) ->
  appendsRegion total targetWidth sorted (free, placed) = false.
Proof.
  induction sorted as [|r sorted IH]; intros free placed Htw Hall Hinv;
    cbn [appendsRegion]; [reflexivity|].
  inversion Hall as [|? ? (Hw0 & Hw & Hh0) Hrest]; subst.
  assert (Hheights : Forall (fun r' => 0 <= height r') sorted).
  { eapply Forall_impl; [exact Hrest|]. intros ? (_ & _ & ?). assumption. }
  destruct (fitting_finds targetWidth r sorted free placed
              Hw0 Hw Hh0 Hheights Hinv) as [k Hk].
  cbn [fst]. rewrite Hk.
  destruct (placeOne_fitting total targetWidth r sorted free placed
              Htw Hw0 Hw Hh0 Hheights Hinv) as ([free' placed'] & -> & Hinv').
  apply IH; assumption.
Qed.

(** X4. With every rectangle at most as wide as the (positive) target
    width, no region is ever appended (the search finds a fitting free
    region for every rectangle) and no two placed rectangles
    overlap. *)
Lemma packMaxRects_fitting_no_overlap rects targetWidth :
  0 < targetWidth ->
  Forall (fun r => 0 <= width r /\ width r <= targetWidth /\ 0 <= height r)
         rects ->
  appendsRegion (totalHeight rects) targetWidth (sortRects rects)
                ([mkFree 0 0 targetWidth (totalHeight rects)], []) = false /\
  exists p,
    packMaxRects rects targetWidth = Some p /\
    forall i j a b,
      i <> j -> children p !! i = Some a -> children p !! j = Some b ->
      ~ overlap a b.
Proof.
  intros Htw Hall. unfold packMaxRects.
  assert (Hsorted : Forall (fun r => 0 <= width r /\ width r <= targetWidth
                                     /\ 0 <= height r) (sortRects rects)).
  { eapply Permutation_Forall; [|exact Hall]. symmetry. apply sortRects_perm. }
  assert (Hinit : fitting targetWidth (sortRects rects)
                    ([mkFree 0 0 targetWidth (totalHeight rects)], [])).
  { constructor; simpl.
    - repeat constructor.
    - repeat constructor.
    - constructor.
    - intros _. constructor. simpl. split; [lra|].
      rewrite totalHeight_need, (need_perm _ _ (sortRects_perm rects)). lra. }
  split; [apply appendsRegion_fitting; assumption|].
  destruct (placeAll_fitting (totalHeight rects) targetWidth (sortRects rects)
              _ _ Htw Hsorted Hinit) as ([free' placed'] & -> & Hfinal).
  eexists. split; [reflexivity|]. simpl.
  intros i j a b Hij Ha Hb. apply placedApart_overlap.
  eapply (pairs_lookup placedApart placed' placedApart_sym i j);
    [apply Hfinal | exact Hij | exact Ha | exact Hb].
Qed.

(** *** The bounding box *)

Lemma max_ge_l a b : a <= max a b.
Proof.
  unfold max. destruct (leb a b) eqn:E; [apply leb_le in E; exact E | lra].
Qed.

Lemma max_ge_r a b : b <= max a b.
Proof.
  unfold max. destruct (leb a b) eqn:E; [lra|].
  destruct (Qlt_le_dec b a) as [H|H]; [lra|].
  apply leb_le in H. congruence.
Qed.

Lemma fold_max_ge (f : placedRect A -> Q) placed : forall m0,
  m0 <= fold_left (fun m p => max m (f p)) placed m0 /\
  Forall (fun p => f p <= fold_left (fun m p => max m (f p)) placed m0) placed.
Proof.
  induction placed as [|p placed IH]; intros m0; simpl.
  - split; [lra | constructor].
  - destruct (IH (max m0 (f p))) as [Hm Hall].
    pose proof (max_ge_l m0 (f p)). pose proof (max_ge_r m0 (f p)).
    split; [lra|]. constructor; [lra | exact Hall].
Qed.

Lemma placeOne_corners total targetWidth free placed r st' :
  0 <= total -> 0 <= width r -> 0 <= height r ->
  Forall cornerOk free -> Forall placedOk placed ->
  placeOne total targetWidth (free, placed) r = Some st' ->
  Forall cornerOk (fst st') /\ Forall placedOk (snd st').
Proof.
  intros Ht Hw Hh Hfree Hplaced. unfold placeOne.
  set (sel := match findBest r free 0 None None with
              | Some i => (free, i)
              | None => _
              end).
  assert (Hsel : Forall cornerOk (fst sel)).
  { subst sel. destruct (findBest r free 0 None None); simpl; [exact Hfree|].
    apply Forall_app. split; [exact Hfree|].
    constructor; [|constructor]. split; cbn [fx fy x y]; lra. }
  destruct sel as [free1 k]. simpl in Hsel.
  destruct (free1 !! k) as [target|] eqn:El; [|discriminate].
  intros H. inversion H; subst st'; clear H. simpl.
  pose proof (Forall_lookup_1 _ _ _ _ Hsel El) as [Hx Hy].
  split.
  - apply (pruneFrom_closed (Forall cornerOk)).
    { intros l j. apply Forall_delete. }
    assert (H3 : Forall cornerOk
                   (if ltb 0 (fwidth target - width r - gap) && ltb 0 (height r)
                    then delete k free1 ++
                         [mkFree (fx target + width r + gap) (fy target)
                                 (fwidth target - width r - gap) (height r)]
                    else delete k free1)).
    { destruct (_ && _); [|apply Forall_delete; exact Hsel].
      apply Forall_app. split; [apply Forall_delete; exact Hsel|].
      constructor; [|constructor]. split; cbn [fx fy x y]; unfold gap; lra. }
    destruct (ltb 0 (fwidth target) && ltb 0 (fheight target - height r - gap));
      [|exact H3].
    apply Forall_app. split; [exact H3|].
    constructor; [|constructor]. split; cbn [fx fy x y]; unfold gap; lra.
  - apply Forall_app. split; [exact Hplaced|].
    constructor; [|constructor]. split; cbn [fx fy x y]; lra.
Qed.

Lemma placeAll_corners total targetWidth sorted : forall free placed st',
  0 <= total ->
  Forall (fun r => 0 <= width r /\ 0 <= height r) sorted ->
  Forall cornerOk free -> Forall placedOk placed ->
  placeAll total targetWidth sorted (free, placed) = Some st' ->
  Forall placedOk (snd st').
Proof.
  induction sorted as [|r sorted IH]; intros free placed st' Ht Hall Hf Hp H;
    cbn [placeAll] in H.
  - inversion H; subst. exact Hp.
  - inversion Hall as [|? ? [Hw Hh] Hrest]; subst.
    destruct (placeOne total targetWidth (free, placed) r) as [[free1 placed1]|]
      eqn:E; [|discriminate].
    destruct (placeOne_corners _ _ _ _ _ _ Ht Hw Hh Hf Hp E) as [Hf1 Hp1].
    eapply IH; eassumption.
Qed.

(** X3. The packed extent covers every child: its width is at least the
    width of every child and its height at least the height of every
    child, for every target width, appended regions included. *)
Lemma packMaxRects_bounding_box rects targetWidth :
  Forall (fun r => 0 <= width r /\ 0 <= height r) rects ->
  exists p,
    packMaxRects rects targetWidth = Some p /\
    Forall (fun c => x c + width (source c) <= packedWidth p /\
                     y c + height (source c) <= packedHeight p /\
                     width (source c) <= packedWidth p /\
                     height (source c) <= packedHeight p) (children p).
Proof.
  intros Hall. unfold packMaxRects.
  destruct (placeAll_places (totalHeight rects) targetWidth (sortRects rects)
              [mkFree 0 0 targetWidth (totalHeight rects)] [])
    as (free' & placed' & E & _).
  rewrite E. eexists. split; [reflexivity|]. simpl.
  assert (Htotal : 0 <= totalHeight rects).
  { rewrite totalHeight_need. apply need_nonneg.
    eapply Forall_impl; [exact Hall|]. intros ? [_ ?]. assumption. }
  assert (Hok : Forall placedOk placed').
  { assert (Hs : Forall (fun r => 0 <= width r /\ 0 <= height r)
                        (sortRects rects)).
    { eapply Permutation_Forall; [symmetry; apply sortRects_perm | exact Hall]. }
    assert (Hinit : Forall cornerOk [mkFree 0 0 targetWidth (totalHeight rects)]).
    { constructor; [|constructor]. split; cbn [fx fy]; lra. }
    assert (Hnone : Forall placedOk (@nil (placedRect A))) by constructor.
    exact (placeAll_corners _ _ _ _ _ _ Htotal Hs Hinit Hnone E). }
  destruct (fold_max_ge (fun p => x p + width (source p)) placed' 0) as [_ HX].
  destruct (fold_max_ge (fun p => y p + height (source p)) placed' 0) as [_ HY].
  apply Forall_forall. intros c Hc.
  pose proof (proj1 (Forall_forall _ _) HX c Hc) as Hcx.
  pose proof (proj1 (Forall_forall _ _) HY c Hc) as Hcy.
  pose proof (proj1 (Forall_forall _ _) Hok c Hc) as [Hx0 Hy0].
  simpl in Hcx, Hcy. repeat split; lra.
Qed.

End Facts.

(** C2 (the code departs from the claim). Two text files of twelve lines
    give two rectangles of 80 by 12; the first target width tried for them
    is 0.7 times 80, that is 56. Neither rectangle fits a region of that
    width, both are placed in the region appended at height
    [totalHeight = 32], at the same corner, and so they overlap. *)
Theorem packMaxRects_overlap_at_narrow_target :
  let r := mkRect tt 80 12 in
  exists p a b,
    packMaxRects [r; r] 56 = Some p /\
    children p = [a; b] /\
    x a == 0 /\ y a == 32 /\ x b == 0 /\ y b == 32 /\
    overlap a b.
Proof.
  intros r. eexists _, _, _. split; [vm_compute; reflexivity|].
  split; [reflexivity|]. unfold overlap; simpl.
  repeat split; reflexivity.
Qed.

End PackingFacts.

(** ** Properties of the attribution pass *)

Module TreeFacts.
Import Js Blame Tree.
#[local] Open Scope nat_scope.

(** Induction over trees, with the hypothesis for every child. *)
Lemma FileNode_ind' (P : FileNode -> Prop) :
  (forall nm pa ty it lc bs, P (mkFileNode nm pa ty it lc bs None)) ->
  (forall nm pa ty it lc bs cs,
      Forall P cs -> P (mkFileNode nm pa ty it lc bs (Some cs))) ->
  forall n, P n.
Proof.
  intros Hleaf Hnode. fix IH 1. intros [nm pa ty it lc bs [cs|]].
  - apply Hnode. induction cs as [|c cs IHcs]; constructor.
    + apply IH.
    + exact IHcs.
  - apply Hleaf.
Qed.

Lemma size_pos n : 1 <= size n.
Proof. destruct n; simpl; lia. Qed.

(** *** Termination of [collectFileNodes] *)

Lemma stackSize_app s t : stackSize (s ++ t) = stackSize s + stackSize t.
Proof. unfold stackSize. rewrite List.map_app, list_sum_app. reflexivity. Qed.

Lemma stackSize_rev s : stackSize (rev s) = stackSize s.
Proof.
  induction s as [|e s IH]; [reflexivity|].
  simpl. rewrite stackSize_app, IH. unfold stackSize. simpl. lia.
Qed.

Lemma stackSize_imap (f : nat -> position) cs :
  stackSize (imap (fun i c => (f i, c)) cs) = list_sum (List.map size cs).
Proof.
  revert f. induction cs as [|c cs IH]; intros f; [reflexivity|].
  simpl. unfold stackSize in *. simpl. f_equal.
  apply (IH (fun i => f (S i))).
Qed.

Lemma collectLoop_terminates fuel : forall stack files,
  stackSize stack <= fuel ->
  exists files', collectLoop fuel stack files = Some files'.
Proof.
  induction fuel as [|fuel IH]; intros stack files Hfuel.
  - destruct stack as [|[p node] rest]; simpl; [eauto|].
    unfold stackSize in Hfuel. simpl in Hfuel.
    pose proof (size_pos node). lia.
  - destruct stack as [|[p node] rest]; simpl; [eauto|].
    assert (Hsz : size node + stackSize rest <= S fuel)
      by (unfold stackSize in *; simpl in *; lia).
    pose proof (size_pos node) as Hpos.
    destruct (isFile node).
    + apply IH. lia.
    + destruct node as [nm pa ty it lc bs [cs|]]; simpl in *.
      * apply IH. rewrite stackSize_app, stackSize_rev.
        unfold childRefs. rewrite stackSize_imap. lia.
      * apply IH. lia.
Qed.

Lemma collectFileNodes_terminates root :
  exists files, collectFileNodes root = Some files.
Proof.
  apply collectLoop_terminates. unfold stackSize. simpl. lia.
Qed.

(** *** What [collectFileNodes] collects *)

Lemma lookupAt_app : forall p q root n,
  lookupAt root p = Some n -> lookupAt root (p ++ q) = lookupAt n q.
Proof.
  induction p as [|i p IH]; intros q root n H; simpl in *.
  - inversion H. reflexivity.
  - destruct (children root) as [cs|]; [|discriminate].
    destruct (cs !! i) as [c|]; [|discriminate].
    apply IH. exact H.
Qed.

Lemma childRefs_refer root p node cs :
  lookupAt root p = Some node -> children node = Some cs ->
  Forall (refersTo root) (childRefs p cs).
Proof.
  intros Hp Hcs. apply Forall_forall. intros [q c] Hin.
  apply list_elem_of_lookup in Hin as [j Hj].
  unfold childRefs in Hj. rewrite list_lookup_imap in Hj.
  destruct (cs !! j) as [c'|] eqn:Ec; [|discriminate].
  simpl in Hj. inversion Hj; subst. unfold refersTo. simpl.
  rewrite (lookupAt_app p [j] root node Hp). simpl.
  rewrite Hcs, Ec. reflexivity.
Qed.

(** Every collected reference is a file node of the tree. *)
Lemma collectLoop_sound root fuel : forall stack files files',
  Forall (refersTo root) stack ->
  Forall (fun ref => refersTo root ref /\ isFile (snd ref) = true) files ->
  collectLoop fuel stack files = Some files' ->
  Forall (fun ref => refersTo root ref /\ isFile (snd ref) = true) files'.
Proof.
  induction fuel as [|fuel IH]; intros stack files files' Hs Hf H.
  - destruct stack as [|[p node] rest]; simpl in H; [|discriminate].
    inversion H; subst. exact Hf.
  - destruct stack as [|[p node] rest]; simpl in H.
    + inversion H; subst. exact Hf.
    + inversion Hs as [|? ? Hnode Hrest]; subst.
      destruct (isFile node) eqn:Efile.
      * eapply IH; [exact Hrest| |exact H].
        apply Forall_app. split; [exact Hf|]. repeat constructor; assumption.
      * destruct (children node) as [cs|] eqn:Ecs.
        -- eapply IH; [|exact Hf|exact H].
           apply Forall_app. split; [|exact Hrest].
           apply Forall_rev. eapply childRefs_refer; eassumption.
        -- eapply IH; eassumption.
Qed.

(** *** The frame of the pass *)

Section Frame.
Variable gitBlame : jsstring -> option jsstring.

Lemma framed_refl : forall n, framed gitBlame n n.
Proof.
  apply FileNode_ind'.
  - intros. constructor; try reflexivity.
    + left. reflexivity.
    + simpl. constructor.
  - intros nm pa ty it lc bs cs H. constructor; try reflexivity.
    + left. reflexivity.
    + simpl. constructor. induction H; constructor; assumption.
Qed.

Lemma attributed_same old cur new :
  attributed gitBlame old cur -> blameSegments new = blameSegments cur ->
  attributed gitBlame old new.
Proof.
  intros [H|(Ht & Hx & segs & Hb & Hne & Hs)] E.
  - left. congruence.
  - right. repeat split; try assumption. exists segs. rewrite E. auto.
Qed.

(** Attaching segments at one position keeps the frame, provided the
    node there is a text file whose query gave those segments. *)
Lemma framed_updateAt segs : forall p old cur file,
  framed gitBlame old cur ->
  lookupAt cur p = Some file ->
  isFile file = true ->
  notText file = false ->
  getBlameSegments (gitBlame (path file)) = Some segs ->
  segs <> [] ->
  framed gitBlame old (updateAt (setBlameSegments segs) cur p).
Proof.
  induction p as [|i p IH]; intros old cur file Hfr Hl Hfile Htext Hb Hne.
  - simpl in Hl. inversion Hl; subst file. simpl.
    inversion Hfr as [? ? Hn Hp Hty Hit Hlc Hat Hch]; subst.
    constructor; simpl; try assumption.
    right. unfold isFile in Hfile. unfold notText in Htext.
    rewrite <- Hty, <- Hit, <- Hp.
    destruct (type cur); [|discriminate].
    destruct (isText cur) as [[|]|]; try discriminate.
    repeat split. exists segs. auto.
  - simpl in Hl. simpl.
    destruct (children cur) as [cs|] eqn:Ecs; [|discriminate].
    destruct (cs !! i) as [c|] eqn:Ec; [|discriminate].
    inversion Hfr as [? ? Hn Hp Hty Hit Hlc Hat Hch]; subst.
    rewrite Ecs in Hch. inversion Hch as [olds ? Hall Eo|]; subst.
    destruct (Forall2_lookup_r _ _ _ _ _ Hall Ec) as (o & Ho & Hoc).
    constructor; simpl; try assumption.
    rewrite <- Eo. constructor.
    rewrite <- (list_insert_id olds i o Ho).
    apply Forall2_insert; [exact Hall|].
    eapply IH; eassumption.
Qed.

(** The frame relates the trees position by position. *)
Lemma framed_lookup_new : forall p old new n,
  framed gitBlame old new -> lookupAt new p = Some n ->
  exists o, lookupAt old p = Some o /\ framed gitBlame o n.
Proof.
  induction p as [|i p IH]; intros old new n Hfr Hl; simpl in *.
  - inversion Hl; subst. eauto.
  - destruct (children new) as [cs|] eqn:Ecs; [|discriminate].
    destruct (cs !! i) as [c|] eqn:Ec; [|discriminate].
    inversion Hfr as [? ? _ _ _ _ _ _ Hch]; subst.
    rewrite Ecs in Hch. inversion Hch as [olds ? Hall Eo|]; subst.
    destruct (Forall2_lookup_r _ _ _ _ _ Hall Ec) as (o & Ho & Hoc).
    rewrite Ho. eapply IH; eassumption.
Qed.

Lemma framed_lookup_old : forall p old new o,
  framed gitBlame old new -> lookupAt old p = Some o ->
  exists n, lookupAt new p = Some n /\ framed gitBlame o n.
Proof.
  induction p as [|i p IH]; intros old new o Hfr Hl; simpl in *.
  - inversion Hl; subst. eauto.
  - destruct (children old) as [cs|] eqn:Ecs; [|discriminate].
    destruct (cs !! i) as [c|] eqn:Ec; [|discriminate].
    inversion Hfr as [? ? _ _ _ _ _ _ Hch]; subst.
    rewrite Ecs in Hch. inversion Hch as [? news Hall|]; subst.
    destruct (Forall2_lookup_l _ _ _ _ _ Hall Ec) as (n & Hn & Hcn).
    rewrite Hn. eapply IH; eassumption.
Qed.

Lemma framed_type old new : framed gitBlame old new -> type new = type old.
Proof. intros H. inversion H. assumption. Qed.

Lemma blameStep_framed totalFiles root cur log d ref n :
  lookupAt root (fst ref) = Some n -> isFile n = true ->
  framed gitBlame root cur ->
  framed gitBlame root
    (fst (fst (blameStep gitBlame totalFiles (cur, log, d) ref))).
Proof.
  intros Hroot Hfile Hfr. unfold blameStep.
  destruct (lookupAt cur (fst ref)) as [file|] eqn:El; [|exact Hfr].
  destruct (notText file) eqn:Et; [exact Hfr|].
  destruct (getBlameSegments (gitBlame (path file))) as [segs|] eqn:Eb;
    [|exact Hfr].
  destruct segs as [|s segs]; [exact Hfr|]. simpl.
  destruct (framed_lookup_new _ _ _ _ Hfr El) as (o & Ho & Hof).
  rewrite Hroot in Ho. inversion Ho; subst o.
  eapply framed_updateAt; try eassumption; [|discriminate].
  unfold isFile in *. rewrite (framed_type _ _ Hof). exact Hfile.
Qed.

Lemma fold_blameStep_framed totalFiles root files : forall cur log d,
  Forall (fun ref => exists n, lookupAt root (fst ref) = Some n /\
                               isFile n = true) files ->
  framed gitBlame root cur ->
  framed gitBlame root
    (fst (fst (fold_left (blameStep gitBlame totalFiles) files (cur, log, d)))).
Proof.
  induction files as [|ref files IH]; intros cur log d Hall Hfr;
    cbn [fold_left].
  - exact Hfr.
  - inversion Hall as [|? ? (n & Hn & Hfile) Hrest]; subst.
    pose proof (blameStep_framed totalFiles root cur log d ref n Hn Hfile Hfr)
      as Hstep.
    destruct (blameStep gitBlame totalFiles (cur, log, d) ref)
      as [[cur' log'] d'].
    apply IH; assumption.
Qed.

Lemma framed_fields old new :
  framed gitBlame old new ->
  name new = name old /\ path new = path old /\ type new = type old /\
  isText new = isText old /\ lineCount new = lineCount old /\
  (List.length <$> children new) = (List.length <$> children old) /\
  attributed gitBlame old new.
Proof.
  intros H. inversion H as [? ? Hn Hp Hty Hit Hlc Hat Hch]; subst.
  repeat (split; [assumption|]). split; [|assumption].
  inversion Hch as [olds news Hall|]; simpl; [|reflexivity].
  f_equal. symmetry. eapply Forall2_length. exact Hall.
Qed.

(** C10. Frame of the attribution pass. [addBlameInfo] terminates on
    every tree, and the tree it leaves has the shape of the input tree:
    the same positions hold nodes with the same name, path, type, isText,
    lineCount and number of children. The only field that can differ is
    [blameSegments], and it differs only at a file node with
    [isText = true] whose blame query returned a non-empty segment list,
    where it holds that list; a node that is not a text file keeps the
    [blameSegments] it had, so a non-text file never acquires one. *)
Theorem addBlameInfo_frame (root : FileNode) :
  exists root' log,
    addBlameInfo gitBlame root = Some (root', log) /\
    framed gitBlame root root' /\
    (forall p old,
        lookupAt root p = Some old ->
        exists new,
          lookupAt root' p = Some new /\
          name new = name old /\ path new = path old /\
          type new = type old /\ isText new = isText old /\
          lineCount new = lineCount old /\
          (List.length <$> children new) = (List.length <$> children old) /\
          attributed gitBlame old new /\
          (isText old <> Some true -> blameSegments new = blameSegments old) /\
          (type old = Folder -> blameSegments new = blameSegments old)) /\
    (forall p new, lookupAt root' p = Some new -> is_Some (lookupAt root p)).
Proof.
  destruct (collectFileNodes_terminates root) as [files Hfiles].
  assert (Hsound : Forall (fun ref => exists n,
                             lookupAt root (fst ref) = Some n /\
                             isFile n = true) files).
  { assert (Hstack : Forall (refersTo root) [([], root)]).
    { constructor; [reflexivity | constructor]. }
    pose proof (collectLoop_sound root (size root) [([], root)] [] files
                  Hstack ltac:(constructor) Hfiles) as H.
    eapply Forall_impl; [exact H|].
    intros [p n] [Href Hfile]. exists n. split; assumption. }
  pose proof (fold_blameStep_framed (Z.of_nat (List.length files)) root files
                root [] 0%Z Hsound (framed_refl root)) as Hfr.
  unfold addBlameInfo. rewrite Hfiles.
  destruct (fold_left _ files (root, [], 0%Z)) as [[root' log] d].
  simpl in Hfr. exists root', log.
  split; [reflexivity|]. split; [exact Hfr|]. split.
  - intros p old Hold.
    destruct (framed_lookup_old _ _ _ _ Hfr Hold) as (new & Hnew & Hon).
    exists new. split; [exact Hnew|].
    destruct (framed_fields _ _ Hon) as (Hn & Hp & Hty & Hit & Hlc & Hch & Hat).
    repeat (split; [assumption|]). split.
    + intros Hnt. destruct Hat as [E|(_ & Hx & _)]; [exact E | contradiction].
    + intros Hfo. destruct Hat as [E|(Hf & _)]; [exact E | congruence].
  - intros p new Hnew.
    destruct (framed_lookup_new _ _ _ _ Hfr Hnew) as (o & Ho & _).
    rewrite Ho. eauto.
Qed.

End Frame.

End TreeFacts.

(** ** Properties of shelf packing *)

Module ShelfFacts.
Import Packing Shelf PackingFacts.
#[local] Open Scope Q_scope.

Section Facts.
Context {A : Type}.
Implicit Types (r : rect A) (st : state A) (p : placedRect A).

Lemma wrapRow_inv targetWidth st r :
  shelfInv targetWidth st -> shelfInv targetWidth (wrapRow targetWidth st r).
Proof.
  intros [Hx Hy Hr Hm Hp Ha]. unfold wrapRow.
  destruct (ltb 0 (curX st) && ltb targetWidth (curX st + width r));
    [|constructor; assumption].
  pose proof (max_ge_l (maxWidth st) (curX st - gap)) as Hl.
  pose proof (max_ge_r (maxWidth st) (curX st - gap)) as Hrr.
  constructor; simpl; try assumption; try lra.
  - unfold gap. lra.
  - eapply Forall_impl; [exact Hp|].
    intros p (Hpx & Hpy & Hpw & Hside & Hrow). unfold shelved. simpl.
    repeat (split; [assumption|]). right. unfold gap in *.
    destruct Hrow as [(Hy1 & Hx1 & Hh1)|(Hy1 & Hx1)]; split; lra.
Qed.

Lemma wrapRow_side targetWidth st r :
  0 <= curX st ->
  curX (wrapRow targetWidth st r) == 0 \/
  curX (wrapRow targetWidth st r) + width r <= targetWidth.
Proof.
  intros Hx. unfold wrapRow.
  destruct (ltb 0 (curX st)) eqn:E1; simpl.
  - destruct (ltb targetWidth (curX st + width r)) eqn:E2; simpl.
    + left. reflexivity.
    + right. destruct (Qlt_le_dec targetWidth (curX st + width r)) as [H|H];
        [|exact H].
      apply ltb_lt in H. congruence.
  - left. destruct (Qlt_le_dec 0 (curX st)) as [H|H].
    + apply ltb_lt in H. congruence.
    + lra.
Qed.

Lemma shelfStep_inv targetWidth st r :
  0 <= width r -> 0 <= height r ->
  shelfInv targetWidth st -> shelfInv targetWidth (shelfStep targetWidth st r).
Proof.
  intros Hw Hh Hinv.
  pose proof (wrapRow_side targetWidth st r (shelf_x _ _ Hinv)) as Hside.
  apply (wrapRow_inv targetWidth st r) in Hinv.
  destruct Hinv as [Hx Hy Hr Hm Hp Ha]. unfold shelfStep.
  set (st1 := wrapRow targetWidth st r) in *.
  pose proof (max_ge_l (rowHeight st1) (height r)) as Hl.
  pose proof (max_ge_r (rowHeight st1) (height r)) as Hrr.
  constructor; simpl; try assumption; try (unfold gap; lra).
  - apply Forall_app. split.
    + eapply Forall_impl; [exact Hp|].
      intros p (Hpx & Hpy & Hpw & Hps & Hrow). unfold shelved. simpl.
      repeat (split; [assumption|]). unfold gap in *.
      destruct Hrow as [(Hy1 & Hx1 & Hh1)|(Hy1 & Hx1)];
        [left | right]; repeat split; lra.
    + constructor; [|constructor]. unfold shelved. simpl.
      repeat (split; [assumption|]). left. repeat split; lra.
  - apply pairs_snoc; [exact Ha|].
    eapply Forall_impl; [exact Hp|].
    intros p (Hpx & Hpy & Hpw & Hps & Hrow).
    unfold placedApart, apart. simpl. unfold gap in *.
    destruct Hrow as [(Hy1 & Hx1 & Hh1)|(Hy1 & Hx1)].
    + left. lra.
    + right. right. left. lra.
Qed.

Lemma fold_shelfStep_inv targetWidth rects : forall st,
  Forall (fun r => 0 <= width r /\ 0 <= height r) rects ->
  shelfInv targetWidth st ->
  shelfInv targetWidth (fold_left (shelfStep targetWidth) rects st) /\
  List.map source (placed (fold_left (shelfStep targetWidth) rects st))
  = List.map source (placed st) ++ rects.
Proof.
  induction rects as [|r rects IH]; intros st Hall Hinv; cbn [fold_left].
  - rewrite app_nil_r. auto.
  - inversion Hall as [|? ? [Hw Hh] Hrest]; subst.
    destruct (IH (shelfStep targetWidth st r) Hrest
                 (shelfStep_inv targetWidth st r Hw Hh Hinv)) as [Hinv' Hmap].
    split; [exact Hinv'|]. rewrite Hmap.
    assert (Hp : placed (shelfStep targetWidth st r)
                 = placed st ++ [mkPlaced r (curX (wrapRow targetWidth st r))
                                           (curY (wrapRow targetWidth st r))]).
    { unfold shelfStep, wrapRow. simpl.
      destruct (ltb 0 (curX st) && ltb targetWidth (curX st + width r));
        reflexivity. }
    rewrite Hp, List.map_app, <- app_assoc. reflexivity.
Qed.

Lemma initial_inv targetWidth : shelfInv targetWidth (@initial A).
Proof.
  constructor; simpl; try lra; constructor.
Qed.

(** X1. Shelf packing never makes two rectangles overlap: for every list
    of rectangles with non-negative sides and every target width, the
    children are the input rectangles in input order and no two of them
    share an interior point. *)
Theorem packShelves_no_overlap (rects : list (rect A)) (targetWidth : Q) :
  Forall (fun r => 0 <= width r /\ 0 <= height r) rects ->
  List.map source (children (packShelves rects targetWidth)) = rects /\
  forall i j a b,
    i <> j ->
    children (packShelves rects targetWidth) !! i = Some a ->
    children (packShelves rects targetWidth) !! j = Some b ->
    ~ overlap a b.
Proof.
  intros Hall.
  destruct (fold_shelfStep_inv targetWidth rects initial Hall
              (initial_inv targetWidth)) as [Hinv Hmap].
  unfold packShelves. simpl. split; [exact Hmap|].
  intros i j a b Hij Ha Hb. apply placedApart_overlap.
  exact (pairs_lookup placedApart _ placedApart_sym i j a b
           (shelf_apart _ _ Hinv) Hij Ha Hb).
Qed.

(** X2. The extent shelf packing reports covers every child, every child
    lies in the non-negative quadrant, and only the first rectangle of a
    row may reach beyond the target width: a child either starts at the
    left edge or ends within the target width. *)
Theorem packShelves_extent (rects : list (rect A)) (targetWidth : Q) :
  Forall (fun r => 0 <= width r /\ 0 <= height r) rects ->
  Forall (fun c =>
            0 <= x c /\ 0 <= y c /\
            x c + width (source c) <= packedWidth (packShelves rects targetWidth) /\
            y c + height (source c) <= packedHeight (packShelves rects targetWidth) /\
            (x c == 0 \/ x c + width (source c) <= targetWidth))
         (children (packShelves rects targetWidth)).
Proof.
  intros Hall.
  destruct (fold_shelfStep_inv targetWidth rects initial Hall
              (initial_inv targetWidth)) as [[Hx Hy Hr Hm Hp Ha] _].
  unfold packShelves. simpl.
  set (st := fold_left (shelfStep targetWidth) rects initial) in *.
  eapply Forall_impl; [exact Hp|].
  intros c (Hcx & Hcy & Hcw & Hside & Hrow).
  pose proof (max_ge_l (maxWidth st) (curX st - gap)) as Hl.
  pose proof (max_ge_r (maxWidth st) (curX st - gap)) as Hrr.
  repeat (split; [assumption|]). unfold gap in *.
  split; [|split; [|exact Hside]].
  - destruct Hrow as [(Hy1 & Hx1 & Hh1)|(Hy1 & Hx1)].
    + replace (ltb 0 (curX st)) with true by (symmetry; apply ltb_lt; lra).
      lra.
    + destruct (ltb 0 (curX st)); lra.
  - destruct Hrow as [(Hy1 & Hx1 & Hh1)|(Hy1 & Hx1)]; lra.
Qed.

End Facts.

Lemma packShelves_no_overlap_witness :
  let rects := [mkRect tt 80 12; mkRect tt 80 12] in
  Forall (fun r : rect unit => 0 <= width r /\ 0 <= height r) rects /\
  List.map source (children (packShelves rects 56)) = rects.
Proof.
  intros rects.
  assert (H : Forall (fun r : rect unit => 0 <= width r /\ 0 <= height r) rects).
  { repeat constructor; simpl; lra. }
  split; [exact H|]. exact (proj1 (packShelves_no_overlap rects 56 H)).
Defined.

Lemma packShelves_extent_witness :
  let rects := [mkRect tt 80 12; mkRect tt 80 12] in
  Forall (fun r : rect unit => 0 <= width r /\ 0 <= height r) rects /\
  Forall (fun c =>
            0 <= x c /\ 0 <= y c /\
            x c + width (source c) <= packedWidth (packShelves rects 56) /\
            y c + height (source c) <= packedHeight (packShelves rects 56) /\
            (x c == 0 \/ x c + width (source c) <= 56))
         (children (packShelves rects 56)).
Proof.
  intros rects.
  assert (H : Forall (fun r : rect unit => 0 <= width r /\ 0 <= height r) rects).
  { repeat constructor; simpl; lra. }
  split; [exact H|]. exact (packShelves_extent rects 56 H).
Defined.

End ShelfFacts.

(** ** More on rectangle packing: witnesses, pruning, leaf sizes *)

Module PackingMore.
Import Packing PackingFacts Layout.
#[local] Open Scope Q_scope.

Lemma packMaxRects_bounding_box_witness :
  let rects := [mkRect tt 80 12; mkRect tt 80 12] in
  Forall (fun r : rect unit => 0 <= width r /\ 0 <= height r) rects /\
  exists p,
    packMaxRects rects 56 = Some p /\
    Forall (fun c => x c + width (source c) <= packedWidth p /\
                     y c + height (source c) <= packedHeight p /\
                     width (source c) <= packedWidth p /\
                     height (source c) <= packedHeight p) (children p).
Proof.
  intros rects.
  assert (H : Forall (fun r : rect unit => 0 <= width r /\ 0 <= height r) rects).
  { repeat constructor; simpl; lra. }
  split; [exact H|]. exact (packMaxRects_bounding_box rects 56 H).
Defined.

Lemma packMaxRects_fitting_no_overlap_witness :
  let rects := [mkRect tt 80 12; mkRect tt 80 40] in
  0 < 96 /\
  Forall (fun r : rect unit => 0 <= width r /\ width r <= 96 /\ 0 <= height r)
         rects /\
  appendsRegion (totalHeight rects) 96 (sortRects rects)
                ([mkFree 0 0 96 (totalHeight rects)], []) = false /\
  exists p,
    packMaxRects rects 96 = Some p /\
    forall i j a b,
      i <> j -> children p !! i = Some a -> children p !! j = Some b ->
      ~ overlap a b.
Proof.
  intros rects.
  assert (H0 : 0 < 96) by lra.
  assert (H : Forall (fun r : rect unit =>
                        0 <= width r /\ width r <= 96 /\ 0 <= height r) rects).
  { repeat constructor; simpl; lra. }
  split; [exact H0|]. split; [exact H|].
  exact (packMaxRects_fitting_no_overlap rects 96 H0 H).
Defined.

Lemma packMaxRects_too_narrow_witness :
  let rects := [mkRect tt 80 12; mkRect tt 80 12] in
  Forall (fun r : rect unit => 56 < width r) rects /\
  exists p,
    packMaxRects rects 56 = Some p /\
    children p =
    List.map (fun r => mkPlaced r 0 (totalHeight rects)) (sortRects rects).
Proof.
  intros rects.
  assert (H : Forall (fun r : rect unit => 56 < width r) rects).
  { repeat constructor; simpl; lra. }
  split; [exact H|]. exact (packMaxRects_too_narrow rects 56 H).
Defined.

(** *** Pruning *)

Lemma containedIn_refl a : containedIn a a = true.
Proof.
  unfold containedIn. rewrite !andb_true_iff, !leb_le. repeat split; lra.
Qed.

Lemma containedIn_trans a b c :
  containedIn a b = true -> containedIn b c = true -> containedIn a c = true.
Proof.
  intros H1 H2. apply containedIn_le in H1. apply containedIn_le in H2.
  unfold containedIn. rewrite !andb_true_iff, !leb_le. repeat split; lra.
Qed.

Lemma coveredBy_false a i l : forall j,
  coveredBy a i j l = false ->
  forall m b, l !! m = Some b -> i <> (j + m)%nat -> containedIn a b = false.
Proof.
  induction l as [|c l IH]; intros j H m b Hm Hne; [destruct m; discriminate|].
  simpl in H. apply orb_false_iff in H as [H1 H2].
  destruct m as [|m]; simpl in Hm.
  - inversion Hm; subst c. apply andb_false_iff in H1 as [H1|H1]; [|exact H1].
    apply negb_false_iff, Nat.eqb_eq in H1. lia.
  - apply (IH (S j) H2 m b Hm). lia.
Qed.

Lemma pruneFrom_uncovered : forall i l,
  (i <= List.length l)%nat ->
  (forall m a, (i <= m)%nat -> l !! m = Some a ->
               forall j b, j <> m -> l !! j = Some b ->
                           containedIn a b = false) ->
  forall m a j b,
    j <> m -> pruneFrom i l !! m = Some a -> pruneFrom i l !! j = Some b ->
    containedIn a b = false.
Proof.
  induction i as [|i IH]; intros l Hlen Hunc; simpl.
  - intros m a j b Hjm Hm Hj. eapply (Hunc m a); eauto. lia.
  - destruct (l !! i) as [a0|] eqn:E0;
      [|apply lookup_ge_None in E0; lia].
    destruct (coveredBy a0 i 0 l) eqn:Ec.
    + apply IH.
      * rewrite length_delete by (rewrite E0; eauto). lia.
      * intros m a Hm Ha j b Hjm Hb.
        rewrite list_lookup_delete_ge in Ha by exact Hm.
        destruct (Nat.lt_ge_cases j i) as [Hlt|Hge].
        -- rewrite list_lookup_delete_lt in Hb by exact Hlt.
           eapply (Hunc (S m) a); [lia | exact Ha | | exact Hb]. lia.
        -- rewrite list_lookup_delete_ge in Hb by exact Hge.
           eapply (Hunc (S m) a); [lia | exact Ha | | exact Hb]. lia.
    + apply IH; [lia|].
      intros m a Hm Ha j b Hjm Hb.
      destruct (decide (m = i)) as [->|Hne].
      * rewrite E0 in Ha. inversion Ha; subst a0.
        eapply coveredBy_false; [exact Ec | exact Hb | simpl; lia].
      * eapply (Hunc m a); [lia | exact Ha | exact Hjm | exact Hb].
Qed.

(** X6. Pruning the free list only deletes regions; afterwards no region
    lies inside another one, and every region of the list before is
    inside a region that is kept, so no free space is lost. *)
Theorem pruneFreeRects_minimal (l : list freeRect) :
  pruneFreeRects l `sublist_of` l /\
  (forall i j a b,
      i <> j -> pruneFreeRects l !! i = Some a ->
      pruneFreeRects l !! j = Some b -> containedIn a b = false) /\
  (forall a, a ∈ l ->
             exists b, b ∈ pruneFreeRects l /\ containedIn a b = true).
Proof.
  unfold pruneFreeRects. split; [|split].
  - apply (pruneFrom_closed (fun l' => l' `sublist_of` l)); [|reflexivity].
    intros l' k H. etransitivity; [apply sublist_delete | exact H].
  - intros i j a b Hij Ha Hb.
    apply (pruneFrom_uncovered (List.length l) l (le_n _)) with (m := i) (j := j);
      [|congruence|exact Ha|exact Hb].
    intros m a' Hm Ha'. apply lookup_lt_Some in Ha'. lia.
  - intros a Hin. apply Exists_exists.
    apply (pruneFrom_cover (fun b => containedIn a b = true)).
    + intros b c. apply containedIn_trans.
    + apply Exists_exists. exists a. split; [exact Hin|].
      apply containedIn_refl.
Qed.

(** *** Leaf sizes *)

Lemma max_cases a b : max a b = a \/ max a b = b.
Proof. unfold max. destruct (leb a b); auto. Qed.

(** X7. Every leaf gets the fixed width 80 and a height of at least 12:
    a text file as tall as its line count when that is 12 or more and 12
    otherwise, anything else an 80 by 80 square; an empty text file and
    one without line count are sized like a one-line file. *)
Theorem computeFileSize_bounds (node : Tree.FileNode) :
  fst (computeFileSize node) = 80 /\
  12 <= snd (computeFileSize node) /\
  (Tree.isText node <> Some true -> snd (computeFileSize node) = 80) /\
  (forall n, Tree.isText node = Some true -> Tree.lineCount node = Some n ->
             (12 <= n)%Z -> snd (computeFileSize node) == inject_Z n) /\
  (forall n, Tree.isText node = Some true -> Tree.lineCount node = Some n ->
             (0 <= n <= 12)%Z -> snd (computeFileSize node) == 12) /\
  (Tree.isText node = Some true -> Tree.lineCount node = None ->
   snd (computeFileSize node) == 12).
Proof.
  unfold computeFileSize, fileWidth, minHeight.
  destruct (Tree.isText node) as [[|]|] eqn:Et; simpl;
    (split; [reflexivity|]).
  - pose proof (max_ge_l 12 (linesOrOne (Tree.lineCount node))) as Hl.
    pose proof (max_ge_r 12 (linesOrOne (Tree.lineCount node))) as Hr.
    split; [exact Hl|]. split; [congruence|].
    assert (Hmax : forall v, max 12 v == 12 \/ max 12 v == v).
    { intros v. destruct (max_cases 12 v) as [->| ->]; [left|right]; reflexivity. }
    split; [|split].
    + intros n _ Hn Hge. rewrite Hn in *.
      assert (Hv : linesOrOne (Some n) = inject_Z n)
        by (destruct n; [lia | reflexivity | reflexivity]).
      rewrite Hv in *.
      assert (12 <= inject_Z n) by (unfold Qle; simpl; lia).
      destruct (Hmax (inject_Z n)) as [E|E]; rewrite E in *; lra.
    + intros n _ Hn Hle. rewrite Hn in *.
      assert (Hv : linesOrOne (Some n) <= 12).
      { unfold linesOrOne. destruct n as [|q|q]; [lra| |lia].
        unfold Qle. simpl. lia. }
      destruct (Hmax (linesOrOne (Some n))) as [E|E]; rewrite E in *; lra.
    + intros _ Hn. rewrite Hn in *. simpl in *.
      destruct (Hmax 1) as [E|E]; rewrite E in *; lra.
  - split; [lra|]. split; [reflexivity|].
    repeat split; intros; congruence.
  - split; [lra|]. split; [reflexivity|].
    repeat split; intros; congruence.
Qed.

End PackingMore.

(** ** Escaping *)

Module HtmlFacts.
Import Js Html.

Lemma replaceAll_app c by_ s t :
  replaceAll c by_ (s ++ t) = replaceAll c by_ s ++ replaceAll c by_ t.
Proof. unfold replaceAll. rewrite List.map_app, concat_app. reflexivity. Qed.

Lemma replaceAll_concat c by_ (f : Z -> jsstring) s :
  replaceAll c by_ (List.concat (List.map f s)) =
  List.concat (List.map (fun d => replaceAll c by_ (f d)) s).
Proof.
  induction s as [|d s IH]; [reflexivity|].
  cbn [List.map List.concat]. rewrite replaceAll_app, IH. reflexivity.
Qed.

Lemma replaceAll_single c by_ d :
  replaceAll c by_ [d] = if d =? c then by_ else [d].
Proof.
  unfold replaceAll. cbn [List.map List.concat].
  destruct (d =? c); [apply app_nil_r | reflexivity].
Qed.

Lemma escape_unit d :
  replaceAll APOS (str "&#039;")
    (replaceAll QUOT (str "&quot;")
       (replaceAll GT (str "&gt;")
          (replaceAll LT (str "&lt;")
             (replaceAll AMP (str "&amp;") [d])))) = entityOf d.
Proof.
  unfold entityOf. rewrite replaceAll_single.
  destruct (d =? AMP) eqn:E1; [reflexivity|].
  rewrite replaceAll_single.
  destruct (d =? LT) eqn:E2; [reflexivity|].
  rewrite replaceAll_single.
  destruct (d =? GT) eqn:E3; [reflexivity|].
  rewrite replaceAll_single.
  destruct (d =? QUOT) eqn:E4; [reflexivity|].
  rewrite replaceAll_single. reflexivity.
Qed.

Lemma entityOf_clean d :
  Forall (fun c => c <> LT /\ c <> GT /\ c <> QUOT /\ c <> APOS) (entityOf d).
Proof.
  unfold entityOf, AMP, LT, GT, QUOT, APOS.
  destruct (Z.eqb_spec d 38); [repeat constructor; discriminate|].
  destruct (Z.eqb_spec d 60); [repeat constructor; discriminate|].
  destruct (Z.eqb_spec d 62); [repeat constructor; discriminate|].
  destruct (Z.eqb_spec d 34); [repeat constructor; discriminate|].
  destruct (Z.eqb_spec d 39); [repeat constructor; discriminate|].
  repeat constructor; assumption.
Qed.

(** X8. The five replacements of [escapeHtml], done one after the other,
    amount to replacing every code unit by its own entity at once: the
    ampersands that the later replacements introduce are never escaped
    again.  The result holds none of [<], [>], the double and the single
    quote, and a text with none of the five special units is returned
    unchanged. *)
Theorem escapeHtml_simultaneous (text : jsstring) :
  escapeHtml text = List.concat (List.map entityOf text) /\
  Forall (fun c => c <> LT /\ c <> GT /\ c <> QUOT /\ c <> APOS)
         (escapeHtml text) /\
  (Forall (fun c => c <> AMP /\ c <> LT /\ c <> GT /\ c <> QUOT /\ c <> APOS)
          text -> escapeHtml text = text).
Proof.
  assert (E : escapeHtml text = List.concat (List.map entityOf text)).
  { unfold escapeHtml.
    replace text with (List.concat (List.map (fun d => [d]) text)) at 1
      by (induction text as [|d t IH]; [reflexivity | simpl; now rewrite IH]).
    rewrite !replaceAll_concat. f_equal.
    apply List.map_ext. intros d. apply escape_unit. }
  split; [exact E|]. rewrite E. clear E. split.
  - induction text as [|d t IH]; [constructor|].
    cbn [List.map List.concat]. apply Forall_app. split; [apply entityOf_clean|exact IH].
  - intros H. induction H as [|d t (H1 & H2 & H3 & H4 & H5) _ IH]; [reflexivity|].
    cbn [List.map List.concat]. rewrite IH. unfold entityOf.
    apply Z.eqb_neq in H1, H2, H3, H4, H5.
    rewrite H1, H2, H3, H4, H5. reflexivity.
Qed.

Lemma escapeHtml_simultaneous_witness :
  let text := str "a<b" in
  Forall (fun c => c <> AMP /\ c <> LT /\ c <> GT /\ c <> QUOT /\ c <> APOS)
         (str "ab") /\
  escapeHtml (str "ab") = str "ab" /\
  escapeHtml text = str "a&lt;b".
Proof.
  intros text.
  assert (H : Forall (fun c => c <> AMP /\ c <> LT /\ c <> GT /\ c <> QUOT /\
                               c <> APOS) (str "ab")).
  { repeat constructor; discriminate. }
  split; [exact H|]. split.
  - exact (proj2 (proj2 (escapeHtml_simultaneous (str "ab"))) H).
  - reflexivity.
Defined.

(** X9. The JSON text embedded in the page holds no [<] after the
    replacement, whatever the JSON was, so it cannot close the script
    element; each [<] grows the text by five units, and a text without
    [<] is embedded unchanged. *)
Theorem escapeLt_no_lt (json : jsstring) :
  Forall (fun c => c <> LT) (escapeLt json) /\
  List.length (escapeLt json) =
  (List.length json + 5 * List.length (List.filter (fun c => Z.eqb c LT) json))%nat /\
  (Forall (fun c => c <> LT) json -> escapeLt json = json).
Proof.
  unfold escapeLt, replaceAll. split; [|split].
  - induction json as [|d t IH]; [constructor|].
    cbn [List.map List.concat]. apply Forall_app. split; [|exact IH].
    destruct (Z.eqb_spec d LT) as [->|Hne].
    + unfold LT. repeat constructor; discriminate.
    + repeat constructor. exact Hne.
  - induction json as [|d t IH]; [reflexivity|].
    cbn [List.map List.concat List.filter]. rewrite length_app, IH.
    destruct (d =? LT); simpl; lia.
  - intros H. induction H as [|d t Hd _ IH]; [reflexivity|].
    cbn [List.map List.concat]. rewrite IH.
    apply Z.eqb_neq in Hd. rewrite Hd. reflexivity.
Qed.

Lemma escapeLt_no_lt_witness :
  Forall (fun c => c <> LT) (str "{}") /\ escapeLt (str "{}") = str "{}".
Proof.
  assert (H : Forall (fun c => c <> LT) (str "{}")).
  { repeat constructor; discriminate. }
  split; [exact H|].
  exact (proj2 (proj2 (escapeLt_no_lt (str "{}"))) H).
Defined.

End HtmlFacts.

(** ** The blame cache across runs *)

Module CacheFacts.
Import Js Tree Extension.

Lemma getCacheFilePath_inj cm h h' :
  getCacheFilePath cm h = getCacheFilePath cm h' -> h = h'.
Proof.
  unfold getCacheFilePath. intros H.
  apply app_inv_head in H. apply app_inv_head in H.
  apply app_inv_head in H. apply app_inv_tail in H. exact H.
Qed.

Section Cache.

Variable stringify : FileNode -> jsstring.
Variable parse : jsstring -> option FileNode.

Lemma getBlameCache_after_save d cm h t :
  writable d = true ->
  exists d',
    saveBlameCache stringify d cm h t = Return d' /\
    writable d' = true /\
    getBlameCache parse d' cm h = parse (stringify t) /\
    forall h', h' <> h ->
               getBlameCache parse d' cm h' = getBlameCache parse d cm h'.
Proof.
  intros Hw. unfold saveBlameCache. rewrite Hw. eexists. split; [reflexivity|].
  split; [reflexivity|]. unfold getBlameCache. cbn [files]. split.
  - rewrite lookup_insert_eq. reflexivity.
  - intros h' Hne. rewrite lookup_insert_ne; [reflexivity|].
    intros E. apply Hne. symmetry. exact (getCacheFilePath_inj _ _ _ E).
Qed.

(** X10. What [saveBlameCache] writes for a commit, [getBlameCache]
    reads back for that commit, provided the write succeeds and the tree
    survives serialisation; the entries of other commits answer as
    before.  On a disk that refuses the write the call still returns and
    leaves the disk as it was. *)
Theorem saveBlameCache_then_getBlameCache d cm h t :
  parse (stringify t) = Some t ->
  (writable d = true ->
   exists d',
     saveBlameCache stringify d cm h t = Return d' /\
     getBlameCache parse d' cm h = Some t /\
     forall h', h' <> h ->
                getBlameCache parse d' cm h' = getBlameCache parse d cm h') /\
  (writable d = false -> saveBlameCache stringify d cm h t = Return d).
Proof.
  intros Hrt. split.
  - intros Hw.
    destruct (getBlameCache_after_save d cm h t Hw) as (d' & H1 & _ & H2 & H3).
    exists d'. split; [exact H1|]. split; [congruence | exact H3].
  - intros Hw. unfold saveBlameCache. rewrite Hw. reflexivity.
Qed.


Lemma usableHash_Some commitHash h :
  usableHash commitHash = Some h <-> commitHash = Some h /\ h <> [].
Proof.
  unfold usableHash. destruct commitHash as [[|c r]|]; cbn; split;
    try discriminate; try (intros [H1 H2]; congruence).
  intros E. inversion E. split; [reflexivity | discriminate].
Qed.

Lemma usableHash_None commitHash :
  usableHash commitHash = None <-> commitHash = None \/ commitHash = Some [].
Proof.
  unfold usableHash. destruct commitHash as [[|c r]|]; cbn; split; auto;
    try discriminate; intros [H|H]; discriminate.
Qed.

(** X12. Among the files of the storage directory, a run of the command
    creates or changes at most one, the cache file of the current
    commit, and only in a run that ends with the tree page; the
    content of that file is then the serialised tree of that page.  A
    run without a usable commit hash (none, or the empty string), a
    cache hit and a run that ends without the tree page leave every
    file of the directory as it was. *)
Theorem showFileTree_cache_files context d commitHash built attribute pg d' :
  showFileTree stringify parse context d commitHash built attribute
  = Return (pg, d') ->
  (commitHash = None \/ commitHash = Some [] -> files d' = files d) /\
  ((forall t, pg <> TreePage t) -> files d' = files d) /\
  (forall h cm, commitHash = Some h -> h <> [] ->
                newCacheManager context = Return cm ->
                (exists t, getBlameCache parse d cm h = Some t) ->
                files d' = files d) /\
  forall file,
    files d' !! file <> files d !! file ->
    exists h cm t,
      commitHash = Some h /\ h <> [] /\
      newCacheManager context = Return cm /\
      file = getCacheFilePath cm h /\ pg = TreePage t /\
      files d' !! file = Some (stringify t).
Proof.
  unfold showFileTree.
  destruct (newCacheManager context) as [cm|m] eqn:Ecm; [|discriminate].
  assert (Hsame : forall pg0, Return (pg0, d) = Return (pg, d') ->
    (commitHash = None \/ commitHash = Some [] -> files d' = files d) /\
    ((forall t, pg <> TreePage t) -> files d' = files d) /\
    (forall h cm0, commitHash = Some h -> h <> [] ->
                   Return cm = Return cm0 ->
                   (exists t, getBlameCache parse d cm0 h = Some t) ->
                   files d' = files d) /\
    forall file,
      files d' !! file <> files d !! file ->
      exists h cm0 t,
        commitHash = Some h /\ h <> [] /\ Return cm = Return cm0 /\
        file = getCacheFilePath cm0 h /\ pg = TreePage t /\
        files d' !! file = Some (stringify t)).
  { intros pg0 E. inversion E; subst.
    repeat (split; [intros; reflexivity|]).
    intros file Hf. destruct (Hf eq_refl). }
  destruct (usableHash commitHash) as [h|] eqn:Eh.
  - apply usableHash_Some in Eh as [-> Hh].
    destruct (getBlameCache parse d cm h) as [cached|] eqn:Eget;
      [apply Hsame|].
    destruct built as [[t|]|m]; [|apply Hsame|apply Hsame].
    unfold saveBlameCache. destruct (writable d) eqn:Hw; [|apply Hsame].
    intros E. inversion E; subst. cbn [files].
    split; [intros [H|H]; [discriminate | congruence]|].
    split; [intros Hn; destruct (Hn (attribute t) eq_refl)|].
    split.
    { intros h0 cm0 Eh0 _ Ec (t0 & Ht0). inversion Eh0; inversion Ec; subst.
      congruence. }
    intros file Hf. exists h, cm, (attribute t).
    destruct (decide (file = getCacheFilePath cm h)) as [->|Hne].
    + rewrite lookup_insert_eq. repeat split; try reflexivity. exact Hh.
    + rewrite lookup_insert_ne in Hf by congruence. destruct (Hf eq_refl).
  - destruct built as [[t|]|m]; apply Hsame.
Qed.

End Cache.

Lemma saveBlameCache_then_getBlameCache_witness :
  let t := mkFileNode (str "a") (str "/r/a") File (Some true) (Some 1) None None in
  let stringify := fun _ : FileNode => str "{}" in
  let parse := fun _ : jsstring => Some t in
  let d := mkDisk ∅ true in
  let cm := mkCacheManager (str "/s") in
  parse (stringify t) = Some t /\
  writable d = true /\
  exists d',
    saveBlameCache stringify d cm (str "ab12") t = Return d' /\
    getBlameCache parse d' cm (str "ab12") = Some t.
Proof.
  intros t stringify parse d cm.
  split; [reflexivity|]. split; [reflexivity|].
  destruct (proj1 (saveBlameCache_then_getBlameCache stringify parse d cm
                     (str "ab12") t eq_refl) eq_refl)
    as (d' & H1 & H2 & _).
  exists d'. split; [exact H1 | exact H2].
Defined.


Lemma showFileTree_cache_files_witness :
  let t := mkFileNode (str "a") (str "/r/a") File (Some true) (Some 1) None None in
  let stringify := fun _ : FileNode => str "{}" in
  let parse := fun _ : jsstring => Some t in
  let d := mkDisk ∅ true in
  let context := mkContext (Some (str "/s")) in
  showFileTree stringify parse context d (Some []) (Return (Some t)) (fun n => n)
  = Return (TreePage t, d) /\
  files d = files d.
Proof.
  intros t stringify parse d context.
  assert (H : showFileTree stringify parse context d (Some [])
                           (Return (Some t)) (fun n => n)
              = Return (TreePage t, d))
    by reflexivity.
  split; [exact H|].
  exact (proj1 (showFileTree_cache_files stringify parse context d (Some [])
                  (Return (Some t)) (fun n => n) (TreePage t) d H)
               (or_intror eq_refl)).
Defined.

End CacheFacts.

(** ** Colours stored for authors *)

Module PaletteFacts.
Import Js Color ColorFacts.

Section Palette.

Variable hslToHex : Z -> Z -> Z -> jsstring.

Lemma getProperty_ext (m m' : gmap (list Z) (list Z)) (k : list Z) :
  m !! k = m' !! k -> getProperty m k = getProperty m' k.
Proof.
  intros H. unfold getProperty. unfold jsstring in *. rewrite H. reflexivity.
Qed.

Lemma coloured_ext (m m' : gmap (list Z) (list Z)) (k : list Z) :
  m !! k = m' !! k -> coloured m k = coloured m' k.
Proof. intros H. unfold coloured. rewrite (getProperty_ext m m' k H). reflexivity. Qed.

(** One iteration of the loop of [ensureAuthorColors], looked up. *)
Lemma ensureStep_lookup (m : gmap (list Z) (list Z)) (a k : list Z) :
  (if coloured m a then m else <[a := colorForAuthorHex hslToHex a]> m) !! k =
  if bool_decide (k = a) && negb (coloured m a)
  then Some (colorForAuthorHex hslToHex a) else m !! k.
Proof.
  destruct (coloured m a); cbn [negb]; [rewrite andb_false_r; reflexivity|].
  rewrite andb_true_r. destruct (decide (k = a)) as [->|Hne].
  - rewrite bool_decide_eq_true_2 by reflexivity. apply lookup_insert_eq.
  - rewrite bool_decide_eq_false_2 by exact Hne.
    apply lookup_insert_ne. congruence.
Qed.

Lemma ensureAuthorColors_lookup authors : forall colors (k : list Z),
  ensureAuthorColors hslToHex colors authors !! k =
  if bool_decide (k ∈ authors) && negb (coloured colors k)
  then Some (colorForAuthorHex hslToHex k) else colors !! k.
Proof.
  unfold ensureAuthorColors.
  induction authors as [|a authors IH]; intros colors k.
  - cbn [fold_left]. rewrite bool_decide_eq_false_2 by apply not_elem_of_nil.
    reflexivity.
  - cbn [fold_left]. rewrite IH.
    set (m1 := if coloured colors a then colors
               else <[a := colorForAuthorHex hslToHex a]> colors).
    assert (Hm1 : forall k', m1 !! k' =
              if bool_decide (k' = a) && negb (coloured colors a)
              then Some (colorForAuthorHex hslToHex a) else colors !! k')
      by (intros k'; apply ensureStep_lookup).
    destruct (decide (k = a)) as [->|Hne].
    + rewrite (bool_decide_eq_true_2 (a ∈ a :: authors))
        by apply list_elem_of_here.
      cbn [andb]. rewrite Hm1.
      rewrite (bool_decide_eq_true_2 (a = a)) by reflexivity. cbn [andb].
      destruct (coloured colors a) eqn:Ec; cbn [negb].
      * assert (E : m1 = colors) by (unfold m1; rewrite ?Ec; reflexivity).
        rewrite E, Ec. rewrite andb_false_r. reflexivity.
      * match goal with
        | |- (if ?b then _ else _) = _ => destruct b
        end; reflexivity.
    + assert (E : bool_decide (k ∈ a :: authors) = bool_decide (k ∈ authors)).
      { apply bool_decide_ext. rewrite elem_of_cons. tauto. }
      rewrite E, Hm1. rewrite (bool_decide_eq_false_2 (k = a)) by exact Hne.
      cbn [andb].
      rewrite (coloured_ext m1 colors k); [reflexivity|].
      rewrite Hm1, (bool_decide_eq_false_2 (k = a)) by exact Hne.
      reflexivity.
Qed.

(** X13. [ensureAuthorColors] never overwrites a non-empty colour and
    leaves the entries of names that are not listed as they were.  A
    listed author whose name reads falsy in the map (no entry and not a
    name that every object inherits, or the empty string) gets the
    generated colour of that author; a listed author without entry
    whose name every object inherits ([constructor], [toString], ...)
    gets none, because the inherited member makes the name read as
    coloured. *)
Theorem ensureAuthorColors_fills_missing colors authors :
  (forall (k c : list Z), colors !! k = Some c -> truthy c = true ->
               ensureAuthorColors hslToHex colors authors !! k = Some c) /\
  (forall k : list Z, k ∈ authors ->
             (colors !! k = Some [] \/
              (colors !! k = None /\ k ∉ objectPrototypeNames)) ->
             ensureAuthorColors hslToHex colors authors !! k
             = Some (colorForAuthorHex hslToHex k)) /\
  (forall k : list Z, k ∈ objectPrototypeNames -> colors !! k = None ->
             ensureAuthorColors hslToHex colors authors !! k = None) /\
  (forall k : list Z, k ∉ authors ->
             ensureAuthorColors hslToHex colors authors !! k = colors !! k).
Proof.
  split; [|split; [|split]].
  - intros k c Hk Hc. rewrite ensureAuthorColors_lookup.
    unfold coloured, getProperty. unfold jsstring in *. rewrite Hk. cbn. rewrite Hc.
    rewrite andb_false_r. reflexivity.
  - intros k Hin Hno. rewrite ensureAuthorColors_lookup.
    rewrite bool_decide_eq_true_2 by exact Hin.
    unfold coloured, getProperty. unfold jsstring in *.
    destruct Hno as [Hk|[Hk Hout]]; rewrite Hk; [reflexivity|].
    rewrite bool_decide_eq_false_2 by exact Hout. reflexivity.
  - intros k Hin Hk. rewrite ensureAuthorColors_lookup.
    unfold coloured, getProperty. unfold jsstring in *. rewrite Hk.
    rewrite (bool_decide_eq_true_2 (k ∈ objectPrototypeNames)) by exact Hin.
    cbn. rewrite andb_false_r. reflexivity.
  - intros k Hout. rewrite ensureAuthorColors_lookup.
    rewrite bool_decide_eq_false_2 by exact Hout. reflexivity.
Qed.

Hypothesis hslToHex_nonempty : forall h s l, truthy (hslToHex h s l) = true.

Lemma ensureAuthorColors_fixed authors : forall m,
  (forall a : list Z, a ∈ authors -> coloured m a = true) ->
  ensureAuthorColors hslToHex m authors = m.
Proof.
  unfold ensureAuthorColors.
  induction authors as [|a authors IH]; intros m H; [reflexivity|].
  cbn [fold_left]. rewrite (H a (list_elem_of_here _ _)).
  apply IH. intros b Hb. apply H. now apply list_elem_of_further.
Qed.

Lemma ensureAuthorColors_coloured colors authors (a : list Z) :
  a ∈ authors ->
  coloured (ensureAuthorColors hslToHex colors authors) a = true.
Proof.
  intros Hin. destruct (coloured colors a) eqn:Ec.
  - rewrite (coloured_ext _ colors a); [exact Ec|].
    rewrite ensureAuthorColors_lookup, Ec, andb_false_r. reflexivity.
  - unfold coloured at 1, getProperty.
    rewrite ensureAuthorColors_lookup, Ec.
    rewrite bool_decide_eq_true_2 by exact Hin. cbn.
    apply hslToHex_nonempty.
Qed.

(** X14. With generated colours that are never the empty string (they
    begin with [#]), every listed author reads as coloured in the map
    that [ensureAuthorColors] returns, so a second call on that map
    changes nothing.  For a listed author whose name is not one that
    every object inherits, the map holds a non-empty colour (the one it
    held before, or the generated one) and the layout script, given
    the map as the page embeds it, paints the author with that colour
    and never with its own [hsl] fall-back.  For a listed author
    without entry whose name every object inherits, the script gets
    the inherited member instead of a colour. *)
Theorem ensureAuthorColors_then_colorForAuthor colors authors (a : list Z) :
  a ∈ authors ->
  let stored := ensureAuthorColors hslToHex colors authors in
  (a ∉ objectPrototypeNames ->
   exists c, stored !! a = Some c /\ truthy c = true /\
             colorForAuthor (pageColors stored) a = VString c /\
             (c = colorForAuthorHex hslToHex a \/ colors !! a = Some c)) /\
  (a ∈ objectPrototypeNames -> colors !! a = None ->
   stored !! a = None /\
   colorForAuthor (pageColors stored) a = VInherited a) /\
  ensureAuthorColors hslToHex stored authors = stored.
Proof.
  intros Hin stored. split; [|split].
  - intros Hout.
    pose proof (ensureAuthorColors_coloured colors authors a Hin) as Hc.
    fold stored in Hc. unfold coloured, getProperty in Hc.
    unfold jsstring in *.
    destruct (stored !! a) as [c|] eqn:Es.
    + exists c. split; [reflexivity|]. split; [exact Hc|].
      assert (Hp : pageColors stored !! a = Some c).
      { unfold pageColors. rewrite lookup_delete_ne; [exact Es|].
        intros E. apply Hout. rewrite <- E. vm_compute.
        repeat (first [apply list_elem_of_here | apply list_elem_of_further]). }
      split.
      * unfold colorForAuthor, getProperty. unfold jsstring in *.
        rewrite Hp. cbn. cbn in Hc. rewrite Hc. reflexivity.
      * unfold stored in Es. rewrite ensureAuthorColors_lookup in Es.
        revert Es.
        match goal with
        | |- (if ?b then _ else _) = _ -> _ => destruct b
        end; intros Es; [left; inversion Es; reflexivity | right; exact Es].
    + rewrite bool_decide_eq_false_2 in Hc by exact Hout. discriminate.
  - intros Hname Hnone.
    assert (Es : stored !! a = None).
    { unfold stored. rewrite ensureAuthorColors_lookup.
      unfold coloured, getProperty. unfold jsstring in *. rewrite Hnone.
      rewrite (bool_decide_eq_true_2 (a ∈ objectPrototypeNames)) by exact Hname.
      cbn. rewrite andb_false_r. reflexivity. }
    split; [exact Es|].
    assert (Hp : pageColors stored !! a = None).
    { unfold pageColors. apply lookup_delete_None. right. exact Es. }
    unfold colorForAuthor, getProperty. unfold jsstring in *. rewrite Hp.
    rewrite (bool_decide_eq_true_2 (a ∈ objectPrototypeNames)) by exact Hname.
    reflexivity.
  - apply ensureAuthorColors_fixed. intros b Hb.
    apply ensureAuthorColors_coloured. exact Hb.
Qed.

End Palette.

Lemma ensureAuthorColors_then_colorForAuthor_witness :
  let hslToHex := fun _ _ _ : Z => str "#3a7bb2" in
  let authors := [str "ann"; str "constructor"] in
  (forall h s l, truthy (hslToHex h s l) = true) /\
  str "ann" ∈ authors /\
  colorForAuthor (pageColors (ensureAuthorColors hslToHex ∅ authors))
                 (str "ann") = VString (str "#3a7bb2") /\
  colorForAuthor (pageColors (ensureAuthorColors hslToHex ∅ authors))
                 (str "constructor") = VInherited (str "constructor").
Proof.
  intros hslToHex authors.
  assert (Hhex : forall h s l, truthy (hslToHex h s l) = true)
    by (intros; reflexivity).
  assert (Hin : str "ann" ∈ authors) by apply list_elem_of_here.
  split; [exact Hhex|]. split; [exact Hin|]. split; [|reflexivity].
  destruct (proj1 (ensureAuthorColors_then_colorForAuthor hslToHex Hhex ∅
                     authors (str "ann") Hin))
    as (c & Hc & _ & Hcol & [Hor|Hor]).
  - vm_compute. intros H.
    repeat (apply elem_of_cons in H as [H|H]; [discriminate|]).
    inversion H.
  - rewrite Hcol. exact (f_equal VString Hor).
  - rewrite lookup_empty in Hor. discriminate.
Defined.

(** X15. The hue of an author is a whole number from 0 to 359, the
    remainder modulo 360 of the absolute value of the 32-bit rolling
    hash; the extension and the layout script compute it alike, so the
    generated colour depends on the name only. *)
Theorem hueOf_range (author : jsstring) :
  0 <= hueOf author < 360 /\
  hueOf author = Z.abs (toInt32 (polynomial author)) mod 360 /\
  forall hslToHex, colorForAuthorHex hslToHex author = hslToHex (hueOf author) 55 45.
Proof.
  split; [|split].
  - unfold hueOf. rewrite Z.rem_mod_nonneg by lia.
    apply Z.mod_pos_bound. lia.
  - unfold hueOf. rewrite Z.rem_mod_nonneg by lia.
    rewrite hashOf_polynomial. reflexivity.
  - reflexivity.
Qed.

End PaletteFacts.

(** ** More on the ignore stack, the blame parser and line counting *)

Module IgnoreMore.
Import Js Path Ignore IgnoreFacts.

Lemma outside_entry_contributes_nothing_witness :
  let abs := [str "repo"; str "src"; str "a.ts"] in
  let root := mkEntry [str "repo"] (nameRule false (str "a.ts")) in
  let other := mkEntry [str "repo"; str "lib"] (nameRule true (str "a.ts")) in
  ~ contains (base other) abs /\
  shouldIgnorePath abs false [root; other] = true.
Proof.
  intros abs root other.
  assert (H : ~ contains (base other) abs).
  { intros [k Hk]. vm_compute in Hk. discriminate. }
  split; [exact H|].
  exact (eq_trans (outside_entry_contributes_nothing abs false [root] other [] H)
                  eq_refl).
Defined.

Lemma shouldIgnorePath_lastAssertionWins_witness :
  let abs := [str "repo"; str "sub"; str "x"] in
  let stack := [mkEntry [str "repo"] (nameRule false (str "x"));
                mkEntry [str "repo"; str "sub"] (nameRule true (str "x"))] in
  Forall (fun e =>
            contains (base e) abs ->
            startsWith (joinWith [SLASH] (drop (List.length (base e)) abs))
                       [DOT; DOT] = false) stack /\
  shouldIgnorePath abs false stack = false.
Proof.
  intros abs stack.
  assert (H : Forall (fun e =>
            contains (base e) abs ->
            startsWith (joinWith [SLASH] (drop (List.length (base e)) abs))
                       [DOT; DOT] = false) stack).
  { constructor; [intros _; reflexivity|].
    constructor; [intros _; reflexivity|]. constructor. }
  split; [exact H|].
  rewrite (shouldIgnorePath_lastAssertionWins abs false stack H).
  reflexivity.
Defined.

Lemma fold_ignoreStep_true abs isDir stack : forall acc,
  fold_left (ignoreStep abs isDir) stack acc = true ->
  acc = true \/
  exists e, e ∈ stack /\
            startsWith (relative (base e) abs) [DOT; DOT] = false /\
            ignored (matcher e (matchedPath (relative (base e) abs) isDir))
            = true.
Proof.
  induction stack as [|e stack IH]; intros acc H; [left; exact H|].
  cbn [fold_left] in H. destruct (IH _ H) as [Hstep|(e' & Hin & H1 & H2)].
  - unfold ignoreStep in Hstep.
    destruct (startsWith (relative (base e) abs) [DOT; DOT]) eqn:Es;
      [left; exact Hstep|].
    destruct (unignored _); [discriminate|].
    destruct (ignored _) eqn:Ei; [|left; exact Hstep].
    right. exists e. split; [apply list_elem_of_here|]. split; assumption.
  - right. exists e'. split; [apply list_elem_of_further, Hin|].
    split; assumption.
Qed.

(** X18. A path is reported as ignored only if some entry of the stack
    that is consulted for it (the path relative to the entry's base
    does not begin with two dots) has a matcher that reports that
    relative path as ignored; so nothing is ignored under the empty
    stack.  And when the last entry of the stack is consulted for the
    path and un-ignores it, the answer is "not ignored" whatever the
    entries before it said. *)
Theorem shouldIgnorePath_needs_a_rule abs isDir stack :
  (shouldIgnorePath abs isDir stack = true ->
   exists e, e ∈ stack /\
             startsWith (relative (base e) abs) [DOT; DOT] = false /\
             ignored (matcher e (matchedPath (relative (base e) abs) isDir))
             = true) /\
  shouldIgnorePath abs isDir [] = false /\
  (forall e,
      startsWith (relative (base e) abs) [DOT; DOT] = false ->
      unignored (matcher e (matchedPath (relative (base e) abs) isDir)) = true ->
      shouldIgnorePath abs isDir (stack ++ [e]) = false).
Proof.
  unfold shouldIgnorePath. split; [|split; [reflexivity|]].
  - intros H. destruct (fold_ignoreStep_true abs isDir stack false H) as [E|E];
      [discriminate | exact E].
  - intros e Hin Hun. rewrite fold_left_app. cbn [fold_left].
    unfold ignoreStep. rewrite Hin, Hun. reflexivity.
Qed.

(** *** The path check of [test] *)

Lemma fold_ignoreStepOrThrow_None abs isDir stack :
  fold_left (ignoreStepOrThrow abs isDir) stack None = None.
Proof. induction stack as [|e stack IH]; [reflexivity | exact IH]. Qed.

(** The call throws exactly when some consulted entry refuses the path
    it is given, and returns the value of the loop otherwise. *)
Lemma shouldIgnorePathOrThrow_spec abs isDir stack :
  shouldIgnorePathOrThrow abs isDir stack =
  if existsb (refuses abs isDir) stack then None
  else Some (shouldIgnorePath abs isDir stack).
Proof.
  unfold shouldIgnorePathOrThrow, shouldIgnorePath. generalize false.
  induction stack as [|e stack IH]; intros acc; [reflexivity|].
  cbn [fold_left existsb].
  unfold ignoreStepOrThrow at 2, ignoreStep at 2, refuses at 1, test.
  destruct (startsWith (relative (base e) abs) [DOT; DOT]); cbn [negb andb orb].
  - apply IH.
  - destruct (invalidPath _); cbn [orb].
    + apply fold_ignoreStepOrThrow_None.
    + apply IH.
Qed.

End IgnoreMore.

Module BlameMore.
Import Js Blame BlameFacts.

Lemma sumLines_counts_tab_lines_witness :
  let stdout := str "author Ann" ++ [LF] ++ [TAB] ++ str "x" ++ [LF]
                ++ [TAB] ++ str "y" ++ [LF] in
  getBlameSegments (Some stdout) = Some [mkSegment (str "Ann") 2] /\
  sumLines [mkSegment (str "Ann") 2] = 2.
Proof.
  intros stdout.
  assert (H : getBlameSegments (Some stdout) = Some [mkSegment (str "Ann") 2])
    by (vm_compute; reflexivity).
  split; [exact H|].
  rewrite (sumLines_counts_tab_lines stdout _ H). reflexivity.
Defined.

(** What the parser may hold as an author: the fall-back name, or the
    trimmed rest of an [author ] line of the output, never the empty
    string. *)
Lemma parseLine_named (P : jsstring -> Prop) st line :
  P (str "Unknown") ->
  (startsWith line (str "author ") = true ->
   trim (slice 7 line) <> [] -> P (trim (slice 7 line))) ->
  Forall P (fst st) -> (snd st = [] \/ P (snd st)) ->
  Forall P (fst (parseLine st line)) /\
  (snd (parseLine st line) = [] \/ P (snd (parseLine st line))).
Proof.
  intros HU Hline Ha Hc. destruct st as [authors cur]. unfold parseLine.
  cbn [fst snd] in *.
  destruct (startsWith line (str "author ")) eqn:E1.
  - cbn [fst snd]. split; [exact Ha|]. right. unfold or_else.
    destruct (trim (slice 7 line)) as [|c r] eqn:Et; cbn [truthy].
    + exact HU.
    + apply Hline; [reflexivity | discriminate].
  - destruct (startsWith line [TAB]); cbn [fst snd]; [|split; assumption].
    split; [|exact Hc]. apply Forall_app. split; [exact Ha|].
    constructor; [|constructor]. unfold or_else.
    destruct Hc as [->|Hc]; [exact HU|].
    destruct cur; [exact HU | exact Hc].
Qed.

Lemma parseAuthors_named (P : jsstring -> Prop) stdout :
  P (str "Unknown") ->
  (forall line, line ∈ split LF stdout ->
                startsWith line (str "author ") = true ->
                trim (slice 7 line) <> [] -> P (trim (slice 7 line))) ->
  Forall P (parseAuthors stdout).
Proof.
  intros HU Hl. unfold parseAuthors.
  assert (G : forall (ls : list jsstring) st,
             (forall line, line ∈ ls -> line ∈ split LF stdout) ->
             Forall P (fst st) -> (snd st = [] \/ P (snd st)) ->
             Forall P (fst (fold_left parseLine ls st))).
  { induction ls as [|l ls IH]; intros st Hsub Ha Hc; [exact Ha|].
    cbn [fold_left].
    assert (Hhere : l ∈ split LF stdout) by apply Hsub, list_elem_of_here.
    destruct (parseLine_named P st l HU (Hl l Hhere) Ha Hc) as [Ha' Hc'].
    apply IH; [|exact Ha'|exact Hc'].
    intros line Hin. apply Hsub. now apply list_elem_of_further. }
  apply G; [auto | constructor | left; reflexivity].
Qed.

Lemma compress_authors authors segs :
  compress authors = Some segs ->
  segs <> [] /\ forall s, s ∈ segs -> author s ∈ authors.
Proof.
  destruct authors as [|first rest]; [discriminate|].
  destruct (compress_some first rest) as (st & Hc & Hinv & Hexp).
  rewrite Hc. intros E. inversion E; subst segs. split.
  - unfold close. intros H. apply app_eq_nil in H as [_ H]. discriminate.
  - intros s Hs. rewrite <- Hexp.
    pose proof (inv_close_lines st Hinv) as Hl.
    rewrite Forall_forall in Hl. specialize (Hl s Hs).
    unfold expand. apply list_elem_of_In, in_concat.
    exists (repeat (author s) (Z.to_nat (lines s))). split.
    + apply in_map_iff. exists s. split; [reflexivity|].
      apply list_elem_of_In. exact Hs.
    + destruct (Z.to_nat (lines s)) eqn:En; [lia|]. simpl. auto.
Qed.

(** X20. The blame query answers [null] exactly when the command fails
    or its output has no line that begins with a TAB; otherwise it
    answers at least one segment, and the author of every segment is a
    non-empty string: the name [Unknown], or the trimmed rest of an
    [author ] line of the output. *)
Theorem getBlameSegments_authors (exec : option jsstring) :
  (getBlameSegments exec = None <->
   exec = None \/
   exists stdout, exec = Some stdout /\
     List.filter (fun l => startsWith l [TAB]) (split LF stdout) = []) /\
  forall segs,
    getBlameSegments exec = Some segs ->
    segs <> [] /\
    forall s, s ∈ segs ->
      author s <> [] /\
      (author s = str "Unknown" \/
       exists stdout line,
         exec = Some stdout /\ line ∈ split LF stdout /\
         startsWith line (str "author ") = true /\
         author s = trim (slice 7 line)).
Proof.
  split.
  - destruct exec as [stdout|]; [|split; auto].
    cbn [getBlameSegments].
    assert (Hlen : List.length (parseAuthors stdout) =
                   List.length (List.filter (fun l => startsWith l [TAB])
                                            (split LF stdout))).
    { unfold parseAuthors. rewrite parse_counts. reflexivity. }
    split.
    + intros H. right. exists stdout. split; [reflexivity|].
      destruct (parseAuthors stdout) as [|first rest] eqn:Ea.
      * apply length_zero_iff_nil. rewrite <- Hlen. reflexivity.
      * destruct (compress_some first rest) as (st & Hc & _). congruence.
    + intros [H|(s0 & Hs & Hnone)]; [discriminate|].
      inversion Hs; subst s0. rewrite Hnone in Hlen.
      apply length_zero_iff_nil in Hlen. rewrite Hlen. reflexivity.
  - intros segs H. destruct exec as [stdout|]; [|discriminate].
    cbn [getBlameSegments] in H.
    destruct (compress_authors _ _ H) as [Hne Hin]. split; [exact Hne|].
    intros s Hs.
    pose proof (parseAuthors_named
      (fun a => a <> [] /\
                (a = str "Unknown" \/
                 exists stdout0 line,
                   Some stdout = Some stdout0 /\ line ∈ split LF stdout0 /\
                   startsWith line (str "author ") = true /\
                   a = trim (slice 7 line))) stdout) as Hall.
    rewrite Forall_forall in Hall. apply Hall; [| |apply Hin, Hs].
    + split; [discriminate | left; reflexivity].
    + intros line Hl Hst Hnz. split; [exact Hnz|]. right.
      exists stdout, line. auto.
Qed.

End BlameMore.

Module CountLinesMore.
Import CountLines CountLinesFacts.

Lemma countLF_le bytes : 0 <= countLF bytes <= Z.of_nat (List.length bytes).
Proof.
  unfold countLF. pose proof (List.filter_length_le (fun b => b =? 10) bytes).
  lia.
Qed.

Lemma lineCountSpec_bounds bytes :
  0 <= lineCountSpec bytes <= Z.of_nat (List.length bytes) /\
  (lineCountSpec bytes = 0 <-> bytes = []).
Proof.
  unfold lineCountSpec.
  induction bytes as [|b rest IH] using rev_ind.
  - vm_compute. split; [split; discriminate | tauto].
  - rewrite last_snoc, countLF_app, List.length_app.
    pose proof (countLF_le rest) as Hr.
    assert (Hb : countLF [b] = if b =? 10 then 1 else 0)
      by (unfold countLF; cbn; destruct (b =? 10); reflexivity).
    rewrite Hb. cbn [List.length].
    assert (Hnil : rest ++ [b] <> [])
      by (intros E; apply app_eq_nil in E as [_ E]; discriminate).
    destruct (b =? 10); (split; [lia|]); (split; [lia | tauto]).
Qed.

(** X21. The count is never negative and never more than the number of
    bytes of the file, and it is 0 for the empty file only; a stream
    that ends in an error gives no count at all. *)
Theorem countLines_bounds (chunks : list (list Z)) :
  Forall (fun c => c <> []) chunks ->
  (exists n, countLines chunks End = Some n /\
             0 <= n <= Z.of_nat (List.length (concat chunks)) /\
             (n = 0 <-> concat chunks = [])) /\
  countLines chunks Error = None.
Proof.
  intros Hne. split; [|reflexivity].
  exists (lineCountSpec (concat chunks)).
  split; [apply countLines_whole, Hne | apply lineCountSpec_bounds].
Qed.

Lemma countLines_bounds_witness :
  Forall (fun c => c <> []) [[97; 10]; [98]] /\
  exists n, countLines [[97; 10]; [98]] End = Some n /\ 0 <= n <= 3.
Proof.
  assert (H : Forall (fun c : list Z => c <> []) [[97; 10]; [98]]).
  { repeat constructor; discriminate. }
  split; [exact H|].
  destruct (proj1 (countLines_bounds [[97; 10]; [98]] H)) as (n & Hn & Hb & _).
  exists n. split; [exact Hn | exact Hb].
Defined.

End CountLinesMore.

(** ** The files of a tree and the blame pass over them *)

Module WalkFacts.
Import Js Blame Tree Walk TreeFacts.
#[local] Open Scope nat_scope.

Lemma filesOf_eq p n :
  filesOf p n =
  if isFile n then [(p, n)]
  else match children n with
       | Some cs =>
           List.concat
             (rev (mapFrom (fun i c => filesOf (p ++ [i]) c) 0 cs))
       | None => []
       end.
Proof. destruct n; reflexivity. Qed.

Lemma mapFrom_cons {A B} (f : nat -> A -> B) i x l :
  mapFrom f i (x :: l) = f i x :: mapFrom f (S i) l.
Proof. reflexivity. Qed.

Lemma concat_rev_mapFrom_cons {A B} (f : nat -> A -> list B) i x l :
  List.concat (rev (mapFrom f i (x :: l))) =
  List.concat (rev (mapFrom f (S i) l)) ++ f i x.
Proof.
  rewrite mapFrom_cons. cbn [rev]. rewrite concat_app. cbn [List.concat].
  rewrite app_nil_r. reflexivity.
Qed.

Lemma elem_concat_rev_mapFrom {A B} (f : nat -> A -> list B) l :
  forall i x,
    x ∈ List.concat (rev (mapFrom f i l)) <->
    exists j c, l !! j = Some c /\ x ∈ f (i + j) c.
Proof.
  induction l as [|c0 l IH]; intros i x.
  - cbn. split; [intros H; inversion H | intros (j & c & H & _); discriminate].
  - rewrite concat_rev_mapFrom_cons, elem_of_app, IH. split.
    + intros [(j & c & Hj & Hx)|Hx].
      * exists (S j), c. split; [exact Hj|].
        replace (i + S j) with (S i + j) by lia. exact Hx.
      * exists 0, c0. split; [reflexivity|]. rewrite Nat.add_0_r. exact Hx.
    + intros (j & c & Hj & Hx). destruct j as [|j].
      * right. inversion Hj; subst. rewrite Nat.add_0_r in Hx. exact Hx.
      * left. exists j, c. split; [exact Hj|].
        replace (S i + j) with (i + S j) by lia. exact Hx.
Qed.

Lemma map_childRefs_from p cs : forall i,
  List.map (fun e => filesOf (fst e) (snd e))
           (imap (fun j c => (p ++ [i + j], c)) cs) =
  mapFrom (fun j c => filesOf (p ++ [j]) c) i cs.
Proof.
  induction cs as [|c cs IH]; intros i; [reflexivity|].
  rewrite mapFrom_cons, imap_cons. cbn [List.map fst snd].
  rewrite Nat.add_0_r. f_equal. rewrite <- IH. f_equal.
  apply imap_ext. intros j x _. cbn. do 3 f_equal. lia.
Qed.

(** The loop computes the closed form, whatever is already collected. *)
Lemma collectLoop_filesOf fuel : forall stack files,
  stackSize stack <= fuel ->
  collectLoop fuel stack files =
  Some (files ++
        List.concat (List.map (fun e => filesOf (fst e) (snd e)) stack)).
Proof.
  induction fuel as [|fuel IH]; intros stack files Hfuel.
  - destruct stack as [|[p node] rest]; cbn.
    + rewrite app_nil_r. reflexivity.
    + unfold stackSize in Hfuel. simpl in Hfuel.
      pose proof (size_pos node). lia.
  - destruct stack as [|[p node] rest].
    + cbn. rewrite app_nil_r. reflexivity.
    + assert (Hsz : size node + stackSize rest <= S fuel)
        by (unfold stackSize in *; simpl in *; lia).
      pose proof (size_pos node) as Hpos.
      cbn [collectLoop List.map List.concat fst snd].
      rewrite (filesOf_eq p node).
      destruct (isFile node).
      * rewrite IH by lia. rewrite <- app_assoc. reflexivity.
      * destruct (children node) as [cs|] eqn:Ecs.
        -- rewrite IH.
           ++ rewrite List.map_app, concat_app, List.map_rev.
              pose proof (map_childRefs_from p cs 0) as E.
              cbn [Nat.add] in E. unfold childRefs. rewrite E.
              rewrite app_assoc. reflexivity.
           ++ rewrite stackSize_app, stackSize_rev.
              unfold childRefs. rewrite stackSize_imap.
              destruct node; cbn in *. subst. lia.
        -- rewrite IH by lia. reflexivity.
Qed.

Lemma prefix_of_nil (q : position) : q `prefix_of` [] -> q = [].
Proof. intros [k Hk]. symmetry in Hk. apply app_eq_nil in Hk. tauto. Qed.

Lemma throughFolders_nil n : throughFolders n [].
Proof. intros q Hq Hne. apply prefix_of_nil in Hq. contradiction. Qed.

Lemma throughFolders_cons n cs j c r :
  children n = Some cs -> cs !! j = Some c ->
  (throughFolders n (j :: r) <-> isFile n = false /\ throughFolders c r).
Proof.
  intros Hcs Hj. split.
  - intros H. split.
    + destruct (H [] (prefix_nil _)) as (m & Hm & Hf); [discriminate|].
      cbn in Hm. inversion Hm; subst. exact Hf.
    + intros s Hs Hne.
      destruct (H (j :: s)) as (m & Hm & Hf).
      * destruct Hs as [k ->]. exists k. reflexivity.
      * congruence.
      * exists m. split; [|exact Hf]. cbn in Hm. rewrite Hcs, Hj in Hm. exact Hm.
  - intros [Hn Hc] q Hq Hne. destruct q as [|j' s].
    + exists n. split; [reflexivity | exact Hn].
    + destruct Hq as [k Hk]. cbn in Hk. inversion Hk; subst j'.
      destruct (Hc s) as (m & Hm & Hf).
      * exists k. assumption.
      * congruence.
      * exists m. split; [|exact Hf]. cbn. rewrite Hcs, Hj. exact Hm.
Qed.

(** What the closed form holds: the file nodes found by going down
    through nodes that are not files. *)
Lemma filesOf_spec : forall n p0 q m,
  (q, m) ∈ filesOf p0 n <->
  exists r, q = p0 ++ r /\ lookupAt n r = Some m /\ isFile m = true /\
            throughFolders n r.
Proof.
  induction n as [nm pa ty it lc bs|nm pa ty it lc bs cs IH] using FileNode_ind';
    intros p0 q m; rewrite filesOf_eq.
  - destruct ty; cbn [isFile type children].
    + rewrite list_elem_of_singleton. split.
      * intros E. inversion E; subst. exists []. rewrite app_nil_r.
        repeat split; try reflexivity. apply throughFolders_nil.
      * intros (r & -> & Hl & Hf & Ht). destruct r as [|i r].
        -- cbn in Hl. inversion Hl. rewrite app_nil_r. reflexivity.
        -- cbn in Hl. discriminate.
    + split; [intros H; inversion H|].
      intros (r & -> & Hl & Hf & Ht). destruct r as [|i r]; cbn in Hl.
      * inversion Hl; subst. discriminate.
      * discriminate.
  - destruct ty; cbn [isFile type children].
    + rewrite list_elem_of_singleton. split.
      * intros E. inversion E; subst. exists []. rewrite app_nil_r.
        repeat split; try reflexivity. apply throughFolders_nil.
      * intros (r & -> & Hl & Hf & Ht). destruct r as [|i r].
        -- cbn in Hl. inversion Hl. rewrite app_nil_r. reflexivity.
        -- destruct (Ht [] (prefix_nil _)) as (m' & Hm' & Hf');
             [discriminate|].
           cbn in Hm'. inversion Hm'; subst. discriminate.
    + rewrite elem_concat_rev_mapFrom. cbn [Nat.add].
      rewrite Forall_lookup in IH. split.
      * intros (j & c & Hj & Hx).
        apply (IH j c Hj) in Hx as (r & -> & Hl & Hf & Ht).
        exists (j :: r). rewrite <- app_assoc. split; [reflexivity|].
        split; [cbn; rewrite Hj; exact Hl|]. split; [exact Hf|].
        apply (throughFolders_cons
                 (mkFileNode nm pa Folder it lc bs (Some cs)) cs j c r
                 eq_refl Hj).
        split; [reflexivity | exact Ht].
      * intros (r & -> & Hl & Hf & Ht). destruct r as [|j r].
        -- cbn in Hl. inversion Hl; subst. discriminate.
        -- cbn in Hl. destruct (cs !! j) as [c|] eqn:Hj; [|discriminate].
           exists j, c. split; [exact Hj|].
           apply (IH j c Hj). exists r. rewrite <- app_assoc.
           split; [reflexivity|]. split; [exact Hl|]. split; [exact Hf|].
           pose proof (proj1 (throughFolders_cons
                                (mkFileNode nm pa Folder it lc bs (Some cs))
                                cs j c r eq_refl Hj) Ht)
             as [_ Hc].
           exact Hc.
Qed.

Lemma NoDup_concat_rev_mapFrom (p0 : position)
    (f : nat -> FileNode -> list (position * FileNode)) cs :
  (forall c j q, q ∈ List.map fst (f j c) -> exists r, q = p0 ++ j :: r) ->
  Forall (fun c => forall j, NoDup (List.map fst (f j c))) cs ->
  forall i,
    NoDup (List.map fst (List.concat (rev (mapFrom f i cs)))) /\
    forall q, q ∈ List.map fst (List.concat (rev (mapFrom f i cs))) ->
              exists j r, i <= j /\ q = p0 ++ j :: r.
Proof.
  intros Hpre Hnd. induction Hnd as [|c cs Hc _ IH]; intros i.
  - cbn. split; [constructor | intros q H; inversion H].
  - rewrite concat_rev_mapFrom_cons, List.map_app.
    destruct (IH (S i)) as [IH1 IH2]. split.
    + apply NoDup_app. split; [exact IH1|]. split; [|exact (Hc i)].
      intros q Hq1 Hq2. destruct (IH2 q Hq1) as (j & r & Hj & ->).
      destruct (Hpre c i _ Hq2) as (r' & E).
      apply app_inv_head in E. inversion E. lia.
    + intros q Hq. apply elem_of_app in Hq as [Hq|Hq].
      * destruct (IH2 q Hq) as (j & r & Hj & ->).
        exists j, r. split; [lia | reflexivity].
      * destruct (Hpre c i q Hq) as (r & ->).
        exists i, r. split; [lia | reflexivity].
Qed.

Lemma filesOf_NoDup : forall n p0, NoDup (List.map fst (filesOf p0 n)).
Proof.
  induction n as [nm pa ty it lc bs|nm pa ty it lc bs cs IH] using FileNode_ind';
    intros p0; rewrite filesOf_eq.
  - destruct ty; cbn; repeat constructor. intros H; inversion H.
  - destruct ty; cbn [isFile type children].
    + cbn. repeat constructor. intros H; inversion H.
    + apply (NoDup_concat_rev_mapFrom p0
               (fun i c => filesOf (p0 ++ [i]) c) cs).
      * intros c j q Hq.
        change (List.map fst ?l) with (fst <$> l) in Hq.
        apply list_elem_of_fmap in Hq as ([q' m] & -> & Hin).
        apply filesOf_spec in Hin as (r & -> & _). exists r. cbn.
        rewrite <- app_assoc. reflexivity.
      * eapply Forall_impl; [exact IH|]. intros c Hc j. apply Hc.
Qed.

Lemma filesOf_incomparable root q1 m1 q2 m2 :
  (q1, m1) ∈ filesOf [] root -> (q2, m2) ∈ filesOf [] root ->
  q1 <> q2 -> ~ q1 `prefix_of` q2.
Proof.
  intros H1 H2 Hne Hpre.
  apply filesOf_spec in H1 as (r1 & -> & Hl1 & Hf1 & _).
  apply filesOf_spec in H2 as (r2 & -> & _ & _ & Ht2).
  cbn in *. destruct (Ht2 r1 Hpre Hne) as (m & Hm & Hf). congruence.
Qed.

(** *** Updating one node *)

Lemma lookupAt_updateAt_same f : forall p n m,
  lookupAt n p = Some m -> lookupAt (updateAt f n p) p = Some (f m).
Proof.
  induction p as [|i p IH]; intros n m H; cbn in *.
  - inversion H. reflexivity.
  - destruct (children n) as [cs|] eqn:Ecs; [|discriminate].
    destruct (cs !! i) as [c|] eqn:Ei; [|discriminate].
    cbn. rewrite list_lookup_insert_eq by (eapply lookup_lt_Some; exact Ei).
    apply IH. exact H.
Qed.

Lemma lookupAt_updateAt_other f : forall p q n,
  ~ p `prefix_of` q -> ~ q `prefix_of` p ->
  lookupAt (updateAt f n p) q = lookupAt n q.
Proof.
  induction p as [|i p IH]; intros q n Hpq Hqp.
  - destruct Hpq. apply prefix_nil.
  - destruct q as [|j q]; [destruct Hqp; apply prefix_nil|].
    cbn. destruct (children n) as [cs|] eqn:Ecs; [|cbn; rewrite Ecs; reflexivity].
    destruct (cs !! i) as [c|] eqn:Ei; [|cbn; rewrite Ecs; reflexivity].
    cbn. destruct (decide (i = j)) as [->|Hij].
    + rewrite list_lookup_insert_eq by (eapply lookup_lt_Some; exact Ei).
      rewrite Ei. apply IH.
      * intros [k ->]. apply Hpq. exists k. reflexivity.
      * intros [k ->]. apply Hqp. exists k. reflexivity.
    + rewrite list_lookup_insert_ne by exact Hij. reflexivity.
Qed.

(** *** The pass *)

Section Pass.

Variable gitBlame : jsstring -> option jsstring.

#[local] Open Scope Z_scope.

Lemma passInv_step totalFiles visited q0 f0 rest cur log d cur' :
  NoDup (List.map fst (visited ++ (q0, f0) :: rest)) ->
  passInv gitBlame totalFiles visited ((q0, f0) :: rest) (cur, log, d) ->
  (forall q file, (q, file) ∈ visited ++ rest -> q <> q0 ->
                  lookupAt cur' q = lookupAt cur q) ->
  (exists f1, lookupAt cur' q0 = Some f1 /\ path f1 = path f0 /\
              isText f1 = isText f0 /\
              blameSegments f1 = blameResult gitBlame f0) ->
  passInv gitBlame totalFiles (visited ++ [(q0, f0)]) rest
          (cur', log ++ [mkProgress (d + 1) totalFiles (path f0)], d + 1).
Proof.
  intros Hnd [Hd Hlog Hvis Hrest] Hother Hhere. cbn [fst snd] in *.
  assert (Hfresh : forall q file, (q, file) ∈ visited ++ rest -> q <> q0).
  { intros q file Hin ->.
    rewrite List.map_app in Hnd. cbn [List.map fst] in Hnd.
    apply NoDup_app in Hnd as (_ & Hdis & Hnd).
    apply NoDup_cons in Hnd as [Hnot _].
    apply elem_of_app in Hin as [Hin|Hin].
    - apply (Hdis q0).
      + change (q0 ∈ fst <$> visited).
        apply list_elem_of_fmap. exists (q0, file). split; [reflexivity|exact Hin].
      + apply list_elem_of_here.
    - apply Hnot. change (q0 ∈ fst <$> rest).
      apply list_elem_of_fmap. exists (q0, file). split; [reflexivity|exact Hin]. }
  constructor; cbn [fst snd].
  - rewrite List.length_app. cbn. lia.
  - rewrite imap_app. cbn. rewrite Hlog, Hd.
    rewrite Nat.add_0_r. reflexivity.
  - intros q file Hin. apply elem_of_app in Hin as [Hin|Hin].
    + rewrite (Hother q file).
      * apply Hvis. exact Hin.
      * apply elem_of_app. left. exact Hin.
      * apply (Hfresh q file). apply elem_of_app. left. exact Hin.
    + apply list_elem_of_singleton in Hin. inversion Hin; subst. exact Hhere.
  - intros q file Hin. rewrite (Hother q file).
    + apply Hrest. apply list_elem_of_further. exact Hin.
    + apply elem_of_app. right. exact Hin.
    + apply (Hfresh q file). apply elem_of_app. right. exact Hin.
Qed.

Lemma blameStep_passInv root totalFiles visited ref rest st :
  visited ++ ref :: rest = filesOf [] root ->
  passInv gitBlame totalFiles visited (ref :: rest) st ->
  passInv gitBlame totalFiles (visited ++ [ref]) rest
          (blameStep gitBlame totalFiles st ref).
Proof.
  intros Hall Hinv. destruct st as [[cur log] d]. destruct ref as [q0 f0].
  assert (Hnd : NoDup (List.map fst (visited ++ (q0, f0) :: rest)))
    by (rewrite Hall; apply filesOf_NoDup).
  destruct (pass_rest _ _ _ _ _ Hinv q0 f0 (list_elem_of_here _ _))
    as (f0' & Hl & Hp & Ht & Hb).
  cbn [fst snd] in Hl.
  assert (Hkeep : blameResult gitBlame f0 = blameSegments f0 ->
    passInv gitBlame totalFiles (visited ++ [(q0, f0)]) rest
      (cur, log ++ [mkProgress (d + 1) totalFiles (path f0)], d + 1)).
  { intros Hres. apply (passInv_step _ _ _ _ _ cur log d cur Hnd Hinv).
    - reflexivity.
    - exists f0'. rewrite Hres. auto. }
  unfold blameStep. cbn [fst snd]. rewrite Hl.
  assert (Hnt : notText f0' = notText f0) by (unfold notText; rewrite Ht; reflexivity).
  rewrite Hnt, Hp.
  destruct (notText f0) eqn:Ent.
  { apply Hkeep. unfold blameResult. rewrite Ent. reflexivity. }
  destruct (getBlameSegments (gitBlame (path f0))) as [segs|] eqn:Eg.
  2:{ apply Hkeep. unfold blameResult. rewrite Ent, Eg. reflexivity. }
  destruct (0 <? Z.of_nat (List.length segs)) eqn:Elen.
  2:{ apply Hkeep. unfold blameResult. rewrite Ent, Eg, Elen. reflexivity. }
  apply (passInv_step _ _ _ _ _ cur log d _ Hnd Hinv).
  - intros q file Hin Hne.
    assert (Hq : (q, file) ∈ filesOf [] root).
    { rewrite <- Hall. apply elem_of_app in Hin as [Hin|Hin];
        apply elem_of_app; [left | right; apply list_elem_of_further]; exact Hin. }
    assert (Hq0 : (q0, f0) ∈ filesOf [] root).
    { rewrite <- Hall. apply elem_of_app. right. apply list_elem_of_here. }
    apply lookupAt_updateAt_other.
    + apply (filesOf_incomparable root q0 f0 q file Hq0 Hq). congruence.
    + apply (filesOf_incomparable root q file q0 f0 Hq Hq0). exact Hne.
  - exists (setBlameSegments segs f0').
    split; [apply lookupAt_updateAt_same; exact Hl|].
    split; [exact Hp|]. split; [exact Ht|].
    unfold blameResult. rewrite Ent, Eg, Elen. reflexivity.
Qed.

Lemma fold_blameStep_passInv root totalFiles rest : forall visited st,
  visited ++ rest = filesOf [] root ->
  passInv gitBlame totalFiles visited rest st ->
  passInv gitBlame totalFiles (visited ++ rest) []
          (fold_left (blameStep gitBlame totalFiles) rest st).
Proof.
  induction rest as [|ref rest IH]; intros visited st Hall Hinv.
  - rewrite app_nil_r. exact Hinv.
  - cbn [fold_left].
    replace (visited ++ ref :: rest) with ((visited ++ [ref]) ++ rest)
      by (rewrite <- app_assoc; reflexivity).
    apply IH.
    + rewrite <- app_assoc. exact Hall.
    + eapply blameStep_passInv; eassumption.
Qed.

Lemma addBlameInfo_pass root :
  exists new log,
    addBlameInfo gitBlame root = Some (new, log) /\
    passInv gitBlame (Z.of_nat (List.length (filesOf [] root)))
            (filesOf [] root) []
            (new, log, Z.of_nat (List.length (filesOf [] root))).
Proof.
  unfold addBlameInfo, collectFileNodes.
  rewrite collectLoop_filesOf by (unfold stackSize; cbn; lia).
  cbn [List.map List.concat fst snd app]. rewrite app_nil_r.
  set (files := filesOf [] root). set (totalFiles := Z.of_nat (List.length files)).
  assert (H0 : passInv gitBlame totalFiles [] files (root, [], 0)).
  { constructor; cbn [fst snd]; try reflexivity.
    - intros q file Hin. inversion Hin.
    - intros q file Hin. apply filesOf_spec in Hin as (r & -> & Hl & _).
      exists file. auto. }
  pose proof (fold_blameStep_passInv root totalFiles files [] (root, [], 0)
                eq_refl H0) as H.
  cbn [app] in H.
  destruct (fold_left (blameStep gitBlame totalFiles) files (root, [], 0))
    as [[new log] d].
  exists new, log. split; [reflexivity|].
  pose proof (pass_done _ _ _ _ _ H) as Hd. cbn [snd] in Hd. subst d. exact H.
Qed.

(** X24. After [addBlameInfo] every text file of the tree whose blame
    query answers carries exactly the segments of that answer, and every
    other file (not text, or with a failed or empty query) carries what
    it carried before; the pass always returns. *)
Theorem addBlameInfo_attributes (root : FileNode) :
  exists new log,
    addBlameInfo gitBlame root = Some (new, log) /\
    forall q file,
      lookupAt root q = Some file -> isFile file = true ->
      throughFolders root q ->
      exists file',
        lookupAt new q = Some file' /\
        (forall segs,
            isText file = Some true ->
            getBlameSegments (gitBlame (path file)) = Some segs ->
            blameSegments file' = Some segs) /\
        (isText file <> Some true \/
         getBlameSegments (gitBlame (path file)) = None ->
         blameSegments file' = blameSegments file).
Proof.
  destruct (addBlameInfo_pass root) as (new & log & Hrun & Hinv).
  exists new, log. split; [exact Hrun|].
  intros q file Hl Hf Ht.
  destruct (pass_visited _ _ _ _ _ Hinv q file) as (file' & Hl' & _ & _ & Hb).
  { apply filesOf_spec. exists q. auto. }
  cbn [fst] in Hl'. exists file'. split; [exact Hl'|]. rewrite Hb.
  unfold blameResult, notText. split.
  - intros segs Htext Hsegs. rewrite Htext, Hsegs.
    destruct (gitBlame (path file)) as [stdout|]; [|discriminate].
    destruct (BlameMore.compress_authors _ _ Hsegs) as [Hne _].
    destruct segs; [congruence | reflexivity].
  - intros [Hnt|Hnone].
    + destruct (isText file) as [[|]|]; try reflexivity. congruence.
    + rewrite Hnone. destruct (isText file) as [[|]|]; reflexivity.
Qed.

(** X25. [addBlameInfo] reports progress once for every collected file,
    text or not, in the order of collection: the call for the file at
    index [i] carries [done = i + 1], the number of collected files as
    [total], and the path of that file. *)
Theorem addBlameInfo_progress (root : FileNode) :
  exists files new log,
    collectFileNodes root = Some files /\
    addBlameInfo gitBlame root = Some (new, log) /\
    log = imap (fun i ref =>
                  mkProgress (Z.of_nat i + 1) (Z.of_nat (List.length files))
                             (path (snd ref))) files.
Proof.
  destruct (addBlameInfo_pass root) as (new & log & Hrun & Hinv).
  exists (filesOf [] root), new, log. split; [|split; [exact Hrun|]].
  - unfold collectFileNodes.
    rewrite collectLoop_filesOf by (unfold stackSize; cbn; lia).
    cbn. rewrite app_nil_r. reflexivity.
  - exact (pass_log _ _ _ _ _ Hinv).
Qed.

End Pass.

(** X22. [collectFileNodes] always returns, and returns the file nodes
    in right-to-left depth-first order: the files below the last child
    of a folder come first, those below its first child last, and
    nothing below a file node is visited. *)
Theorem collectFileNodes_order (root : FileNode) :
  collectFileNodes root = Some (filesOf [] root).
Proof.
  unfold collectFileNodes. rewrite collectLoop_filesOf.
  - cbn. rewrite app_nil_r. reflexivity.
  - unfold stackSize. cbn. lia.
Qed.

(** X23. The list [collectFileNodes] returns holds every file node that
    is reached from the root through nodes that are not files, each of
    them exactly once, and nothing else. *)
Theorem collectFileNodes_exact (root : FileNode) :
  exists files,
    collectFileNodes root = Some files /\
    NoDup (List.map fst files) /\
    forall q m,
      (q, m) ∈ files <->
      lookupAt root q = Some m /\ isFile m = true /\ throughFolders root q.
Proof.
  exists (filesOf [] root). split; [|split].
  - unfold collectFileNodes. rewrite collectLoop_filesOf.
    + cbn. rewrite app_nil_r. reflexivity.
    + unfold stackSize. cbn. lia.
  - apply filesOf_NoDup.
  - intros q m. rewrite filesOf_spec. split.
    + intros (r & -> & H). exact H.
    + intros H. exists q. split; [reflexivity | exact H].
Qed.

End WalkFacts.

(** ** The authors of a tree *)

Module AuthorsFacts.
Import Js Blame Tree Authors TreeFacts.

Lemma segmentsOf_eq n :
  segmentsOf n =
  match (if isFile n then blameSegments n else None) with
  | Some segs => segs
  | None =>
      match children n with
      | Some cs => List.concat (rev (List.map segmentsOf cs))
      | None => []
      end
  end.
Proof. destruct n; reflexivity. Qed.

Lemma list_sum_rev (l : list nat) : list_sum (rev l) = list_sum l.
Proof.
  induction l as [|x l IH]; [reflexivity|].
  cbn [rev]. rewrite list_sum_app, IH.
  change (list_sum (x :: l)) with (x + list_sum l)%nat.
  change (list_sum [x]) with (x + 0)%nat. lia.
Qed.

Lemma authorsLoop_segmentsOf fuel : forall stack authors,
  (list_sum (List.map size stack) <= fuel)%nat ->
  authorsLoop fuel stack authors =
  Some (fold_left addAuthor (List.concat (List.map segmentsOf stack)) authors).
Proof.
  induction fuel as [|fuel IH]; intros stack authors Hfuel.
  - destruct stack as [|node rest]; [reflexivity|].
    simpl in Hfuel. pose proof (size_pos node). lia.
  - destruct stack as [|node rest]; [reflexivity|].
    simpl in Hfuel. pose proof (size_pos node) as Hpos.
    cbn [authorsLoop List.map List.concat]. rewrite (segmentsOf_eq node).
    destruct (if isFile node then blameSegments node else None) as [segs|].
    + rewrite IH by lia. rewrite fold_left_app. reflexivity.
    + destruct (children node) as [cs|] eqn:Ecs.
      * rewrite IH.
        -- rewrite List.map_app, concat_app, List.map_rev. reflexivity.
        -- rewrite List.map_app, list_sum_app, List.map_rev, list_sum_rev.
           destruct node; cbn in *. subst. lia.
      * rewrite IH by lia. reflexivity.
Qed.

Lemma addAuthor_spec authors seg :
  NoDup authors ->
  NoDup (addAuthor authors seg) /\
  forall a, a ∈ addAuthor authors seg <->
            a ∈ authors \/ (a <> [] /\ author seg = a).
Proof.
  intros Hnd. unfold addAuthor. unfold jsstring in *.
  destruct (author seg) as [|c r] eqn:Ea; cbn [truthy].
  - split; [exact Hnd|]. intros a. split; [auto|].
    intros [H|[H1 H2]]; [exact H | congruence].
  - destruct (bool_decide (c :: r ∈ authors)) eqn:Ein.
    + apply bool_decide_eq_true in Ein. split; [exact Hnd|].
      intros a. split; [auto|]. intros [H|[_ <-]]; assumption.
    + apply bool_decide_eq_false in Ein. split.
      * apply NoDup_app. split; [exact Hnd|]. split.
        -- intros x Hx Hx'. apply list_elem_of_singleton in Hx'. congruence.
        -- apply NoDup_singleton.
      * intros a. rewrite elem_of_app, list_elem_of_singleton. split.
        -- intros [H| ->]; [auto|]. right. split; [discriminate | reflexivity].
        -- intros [H|[_ <-]]; auto.
Qed.

Lemma fold_addAuthor_spec segs : forall authors,
  NoDup authors ->
  NoDup (fold_left addAuthor segs authors) /\
  forall a, a ∈ fold_left addAuthor segs authors <->
            a ∈ authors \/ (a <> [] /\ exists s, s ∈ segs /\ author s = a).
Proof.
  induction segs as [|seg segs IH]; intros authors Hnd; cbn [fold_left].
  - split; [exact Hnd|]. intros a. split; [auto|].
    intros [H|(_ & s & Hs & _)]; [exact H | inversion Hs].
  - destruct (addAuthor_spec authors seg Hnd) as [Hnd' Hmem].
    destruct (IH _ Hnd') as [Hnd'' Hmem'']. split; [exact Hnd''|].
    intros a. rewrite Hmem'', Hmem. split.
    + intros [[H|[Hne He]]|(Hne & s & Hs & He)]; [auto| |].
      * right. split; [exact Hne|]. exists seg. split; [apply list_elem_of_here|exact He].
      * right. split; [exact Hne|]. exists s. split; [apply list_elem_of_further, Hs|exact He].
    + intros [H|(Hne & s & Hs & He)]; [auto|].
      apply elem_of_cons in Hs as [-> |Hs].
      * left. right. auto.
      * right. split; [exact Hne|]. exists s. auto.
Qed.

Section Sorting.

Variable localeCompare : jsstring -> jsstring -> Z.

Lemma insertAuthor_perm a l : insertAuthor localeCompare a l ≡ₚ a :: l.
Proof.
  induction l as [|b l IH]; cbn [insertAuthor]; [reflexivity|].
  destruct (localeCompare a b <=? 0); [reflexivity|].
  rewrite IH. apply Permutation_swap.
Qed.

Lemma sortAuthors_perm l : sortAuthors localeCompare l ≡ₚ l.
Proof.
  induction l as [|a l IH]; [reflexivity|].
  cbn [sortAuthors fold_right]. rewrite insertAuthor_perm.
  constructor. exact IH.
Qed.

Lemma insertAuthor_sorted a l :
  (forall x y, 0 < localeCompare x y -> localeCompare y x <= 0) ->
  Sorted.Sorted (fun x y => localeCompare x y <= 0) l ->
  Sorted.Sorted (fun x y => localeCompare x y <= 0)
                (insertAuthor localeCompare a l).
Proof.
  intros Hanti. induction 1 as [|b l Hs IH Hhd]; cbn [insertAuthor].
  - repeat constructor.
  - destruct (localeCompare a b <=? 0) eqn:E.
    + apply Z.leb_le in E. repeat constructor; assumption.
    + apply Z.leb_gt in E. constructor; [exact IH|].
      destruct l as [|c l]; cbn [insertAuthor].
      * constructor. apply Hanti. lia.
      * destruct (localeCompare a c <=? 0).
        -- constructor. apply Hanti. lia.
        -- constructor. inversion Hhd; assumption.
Qed.

Lemma sortAuthors_sorted l :
  (forall x y, 0 < localeCompare x y -> localeCompare y x <= 0) ->
  Sorted.Sorted (fun x y => localeCompare x y <= 0)
                (sortAuthors localeCompare l).
Proof.
  intros Hanti. induction l as [|a l IH]; [constructor|].
  cbn [sortAuthors fold_right]. apply insertAuthor_sorted; assumption.
Qed.

(** X26. [collectAuthors] always returns; the list holds every non-empty
    author name that occurs in a segment of the tree, each once, and
    nothing else.  With a comparison that is a total preorder on names
    (any two names ordered one way or the other, transitively), each
    name of the list is at most its successor. *)
Theorem collectAuthors_exact (root : FileNode) :
  exists l,
    collectAuthors localeCompare root = Some l /\
    NoDup l /\
    (forall a, a ∈ l <->
               a <> [] /\ exists s, s ∈ segmentsOf root /\ author s = a) /\
    ((forall x y, 0 < localeCompare x y -> localeCompare y x <= 0) ->
     (forall x y z, localeCompare x y <= 0 -> localeCompare y z <= 0 ->
                    localeCompare x z <= 0) ->
     Sorted.Sorted (fun x y => localeCompare x y <= 0) l).
Proof.
  unfold collectAuthors.
  rewrite authorsLoop_segmentsOf by (cbn; lia).
  cbn [List.map List.concat]. rewrite app_nil_r.
  destruct (fold_addAuthor_spec (segmentsOf root) [] (NoDup_nil_2 (A := jsstring)))
    as [Hnd Hmem].
  eexists. split; [reflexivity|]. split; [|split].
  - rewrite sortAuthors_perm. exact Hnd.
  - intros a. rewrite sortAuthors_perm, Hmem. split.
    + intros [H|H]; [inversion H | exact H].
    + auto.
  - intros Hanti _. apply sortAuthors_sorted, Hanti.
Qed.

End Sorting.

End AuthorsFacts.

(** ** The shape of built trees *)

Module BuildMore.
Import Js Path Ignore Tree Build Walk BuildFacts.

(** Induction over what lies below a path, with the hypothesis for
    every entry of a directory. *)
Lemma FsEntry_ind' (P : FsEntry -> Prop) :
  P Inaccessible ->
  (forall opened chunks fin, P (RegularFile opened chunks fin)) ->
  (forall localIgnore, P (Directory localIgnore None)) ->
  (forall localIgnore es,
      Forall (fun e => P (snd e)) es -> P (Directory localIgnore (Some es))) ->
  forall e, P e.
Proof.
  intros H1 H2 H3 H4. fix IH 1. intros [|opened chunks fin|li [es|]].
  - exact H1.
  - apply H2.
  - apply H4. induction es as [|[nm below] es IHes]; constructor.
    + apply IH.
    + exact IHes.
  - apply H3.
Qed.

Lemma allBelow_Forall (P : FsEntry -> Prop) es :
  allBelow P es <-> Forall (fun e => P (snd e)) es.
Proof.
  induction es as [|[nm below] es IH]; cbn.
  - split; [constructor | auto].
  - rewrite IH. split.
    + intros [H1 H2]. constructor; assumption.
    + intros H. inversion H; subst. auto.
Qed.

Lemma streamsEnd_directory li es :
  streamsEnd (Directory li (Some es)) <->
  Forall (fun e => streamsEnd (snd e)) es.
Proof. apply allBelow_Forall. Qed.

Lemma countLines_nonneg chunks fin n :
  CountLines.countLines chunks fin = Some n -> 0 <= n.
Proof.
  destruct fin; [|discriminate]. cbn [CountLines.countLines].
  intros E. inversion E; subst. clear E.
  assert (H : forall st, 0 <= CountLines.lineCount st ->
            0 <= CountLines.lineCount (fold_left CountLines.onData chunks st)).
  { induction chunks as [|c chunks IH]; intros st Hst; [exact Hst|].
    cbn [fold_left]. apply IH. cbn.
    rewrite CountLinesFacts.scan_acc.
    pose proof (CountLinesMore.countLF_le c). lia. }
  specialize (H CountLines.initial (Z.le_refl 0)).
  unfold CountLines.onEnd. destruct (_ && _); lia.
Qed.

Section Shape.

Variable localeCompare : jsstring -> jsstring -> Z.

Lemma buildNode_directory localIgnore es p rel stack :
  buildNode localeCompare (Directory localIgnore (Some es)) p rel stack =
  match (if truthy rel then shouldIgnorePathOrThrow p true stack
         else Some false) with
  | None => Rejected
  | Some true => Ok None
  | Some false =>
    match eachEntry
            (fun entry below =>
               buildNode localeCompare below (join p entry)
                         (entryRelative rel entry)
                         (match localIgnore with
                          | Some m => stack ++ [mkEntry p m]
                          | None => stack
                          end)) es [] with
    | Rejected => Rejected
    | Ok children =>
        Ok (Some (mkFileNode (basename p) (render p) Folder None None None
                    (match children with
                     | [] => None
                     | _ :: _ => Some (sortNodes localeCompare children)
                     end)))
    end
  end.
Proof. reflexivity. Qed.

Lemma insertSorted_perm x l : insertSorted localeCompare x l ≡ₚ x :: l.
Proof.
  induction l as [|y l IH]; cbn [insertSorted]; [reflexivity|].
  destruct (compareNodes localeCompare x y <=? 0); [reflexivity|].
  rewrite IH. apply Permutation_swap.
Qed.

Lemma sortNodes_perm l : sortNodes localeCompare l ≡ₚ l.
Proof.
  induction l as [|x l IH]; [reflexivity|].
  cbn [sortNodes fold_right]. rewrite insertSorted_perm.
  constructor. exact IH.
Qed.

Lemma insertSorted_foldersFirst x l :
  foldersFirst l -> foldersFirst (insertSorted localeCompare x l).
Proof.
  induction l as [|y l IH]; intros Hl; cbn [insertSorted].
  - cbn. split; [intros _; constructor | exact I].
  - destruct Hl as [Hy Hl].
    destruct (compareNodes localeCompare x y <=? 0) eqn:E.
    + cbn [foldersFirst]. split; [|split; assumption].
      intros Hx. unfold compareNodes in E. rewrite Hx in E.
      destruct (type y) eqn:Ey; [|discriminate].
      constructor; [exact Ey | apply Hy; reflexivity].
    + cbn [foldersFirst]. split; [|apply IH; exact Hl].
      intros Hyf. specialize (Hy Hyf).
      rewrite insertSorted_perm. constructor; [|exact Hy].
      unfold compareNodes in E. rewrite Hyf in E.
      destruct (type x); [reflexivity | discriminate].
Qed.

Lemma sortNodes_foldersFirst l : foldersFirst (sortNodes localeCompare l).
Proof.
  induction l as [|x l IH]; [exact I|].
  cbn [sortNodes fold_right]. apply insertSorted_foldersFirst. exact IH.
Qed.

Lemma eachEntry_Forall (Q : FileNode -> Prop) build es :
  Forall (fun e => forall c, build (fst e) (snd e) = Ok (Some c) -> Q c) es ->
  forall acc cs,
    Forall Q acc -> eachEntry build es acc = Ok cs -> Forall Q cs.
Proof.
  induction 1 as [|[entry below] es He _ IH]; intros acc cs Hacc H.
  - cbn in H. inversion H; subst. exact Hacc.
  - cbn [eachEntry] in H. cbn [fst snd] in He.
    destruct (build entry below) as [[c|]|] eqn:Eb; [| |discriminate].
    + apply (IH (acc ++ [c])); [|exact H].
      apply Forall_app. split; [exact Hacc|]. repeat constructor.
      apply He. reflexivity.
    + apply (IH acc); assumption.
Qed.

Lemma eachEntry_returns build es :
  Forall (fun e => build (fst e) (snd e) <> Rejected) es ->
  forall acc, exists cs, eachEntry build es acc = Ok cs.
Proof.
  induction 1 as [|[entry below] es He _ IH]; intros acc.
  - exists acc. reflexivity.
  - cbn [eachEntry]. cbn [fst snd] in He.
    destruct (build entry below) as [[c|]|]; [apply IH | apply IH | congruence].
Qed.

(** X27. Every node that [buildNode] returns for a path carries the
    base name and the string of that path and no blame segments.  A
    file node has no children, and a line count (never negative)
    exactly when it is text.  A folder node has no line count; its
    children are absent or a non-empty list, never an empty one, each
    child is built for an entry of that folder, and no folder follows a
    file among them. *)
Theorem buildNode_shape : forall e p rel stack node,
  buildNode localeCompare e p rel stack = Ok (Some node) -> builtAt p node.
Proof.
  induction e as [|opened chunks fin|li|li es IH] using FsEntry_ind';
    intros p rel stack node H.
  - discriminate.
  - rewrite buildNode_file in H.
    destruct (shouldIgnorePathOrThrow p false stack) as [[|]|];
      try discriminate.
    destruct (isTextFile opened).
    + destruct (CountLines.countLines chunks fin) as [n|] eqn:En;
        [|discriminate].
      inversion H; subst. constructor. eapply countLines_nonneg. exact En.
    + inversion H; subst. constructor.
  - cbn in H.
    destruct (if truthy rel then shouldIgnorePathOrThrow p true stack
              else Some false) as [[|]|]; discriminate.
  - rewrite buildNode_directory in H.
    destruct (if truthy rel then shouldIgnorePathOrThrow p true stack
              else Some false) as [[|]|]; try discriminate.
    destruct (eachEntry _ es []) as [cs|] eqn:Ee; [|discriminate].
    inversion H; subst. clear H.
    destruct cs as [|c cs]; [constructor|].
    assert (Hall : Forall (fun c => exists entry, builtAt (join p entry) c)
                          (c :: cs)).
    { eapply eachEntry_Forall; [|constructor|exact Ee].
      eapply Forall_impl; [exact IH|].
      intros [entry below] Hb c0 Hc0. exists entry.
      eapply Hb. exact Hc0. }
    apply built_folder.
    + intros E. pose proof (sortNodes_perm (c :: cs)) as Hp.
      rewrite E in Hp. apply Permutation_nil_l in Hp. discriminate.
    + rewrite sortNodes_perm. exact Hall.
    + apply sortNodes_foldersFirst.
Qed.

Lemma dropDots_map_app c w :
  dropDots c <> [] ->
  dropDots (backslashesToSlashes c ++ w) =
  backslashesToSlashes (dropDots c) ++ w.
Proof.
  unfold backslashesToSlashes.
  induction c as [|x c IH]; intros H; [cbn in H; congruence|].
  cbn [dropDots List.map app] in *.
  destruct (x =? DOT) eqn:Ex.
  - apply Z.eqb_eq in Ex. subst x.
    change (DOT =? BACKSLASH) with false. cbn iota.
    change (DOT =? DOT) with true. cbn iota. apply IH. exact H.
  - cbn [List.map app].
    destruct (x =? BACKSLASH) eqn:Eb.
    + change (SLASH =? DOT) with false. reflexivity.
    + rewrite Ex. reflexivity.
Qed.

Lemma startsWith_app s t p : startsWith s p = true -> startsWith (s ++ t) p = true.
Proof.
  revert s. induction p as [|c p IH]; intros s H; [reflexivity|].
  destruct s as [|d s]; [discriminate|]. cbn in *.
  apply andb_true_iff in H as [H1 H2]. rewrite H1. apply IH. exact H2.
Qed.

Lemma joinWith_head sep c rest :
  exists t, joinWith sep (c :: rest) = c ++ t.
Proof.
  destruct rest as [|d rest]; cbn.
  - exists []. rewrite app_nil_r. reflexivity.
  - eexists. reflexivity.
Qed.

(** An entry above the path, met with an accepted name, never refuses. *)
Lemma accepted_not_refused p isDir entry c rest :
  p = base entry ++ c :: rest -> acceptedName c = true ->
  refuses p isDir entry = false.
Proof.
  intros Hp Hc. unfold refuses.
  assert (Hin : base entry `prefix_of` p) by (exists (c :: rest); exact Hp).
  rewrite (IgnoreFacts.relative_inside _ _ Hin).
  replace (drop (List.length (base entry)) p) with (c :: rest)
    by (rewrite Hp, drop_app_length; reflexivity).
  destruct (joinWith_head [SLASH] c rest) as [t Ht]. rewrite Ht.
  unfold acceptedName in Hc. apply orb_true_iff in Hc as [Hc|Hc].
  - rewrite (startsWith_app c t _ Hc). reflexivity.
  - destruct (startsWith (c ++ t) [DOT; DOT]); [reflexivity|]. cbn [negb andb].
    destruct (dropDots c) as [|d c'] eqn:Ed; [discriminate|].
    apply andb_true_iff in Hc as [Hs Hb].
    apply negb_true_iff in Hs, Hb.
    assert (Hne : dropDots c <> []) by (rewrite Ed; discriminate).
    unfold invalidPath, matchedPath.
    assert (Hmap : forall w,
              dropDots (backslashesToSlashes (c ++ t) ++ w) =
              d :: backslashesToSlashes c' ++ backslashesToSlashes t ++ w).
    { intros w. unfold backslashesToSlashes at 1. rewrite List.map_app.
      fold (backslashesToSlashes c). fold (backslashesToSlashes t).
      rewrite <- app_assoc, (dropDots_map_app c _ Hne), Ed.
      unfold backslashesToSlashes at 1. cbn [List.map]. rewrite Hb.
      reflexivity. }
    destruct (isDir && negb (endsWith (backslashesToSlashes (c ++ t)) [SLASH])).
    + rewrite Hmap. exact Hs.
    + pose proof (Hmap []) as H0. rewrite !app_nil_r in H0. rewrite H0.
      exact Hs.
Qed.

Lemma stackAbove_returns p isDir stack :
  stackAbove p stack ->
  shouldIgnorePathOrThrow p isDir stack = Some (shouldIgnorePath p isDir stack).
Proof.
  intros H. rewrite IgnoreMore.shouldIgnorePathOrThrow_spec.
  replace (existsb (refuses p isDir) stack) with false; [reflexivity|].
  symmetry. induction H as [|entry stack (c & rest & Hp & Hc) _ IH];
    [reflexivity|].
  cbn [existsb]. rewrite (accepted_not_refused p isDir entry c rest Hp Hc).
  exact IH.
Qed.

Lemma stackAbove_child p stack entry localIgnore :
  acceptedName entry = true ->
  Forall (fun e => base e = p \/ exists c rest,
                     p = base e ++ c :: rest /\ acceptedName c = true) stack ->
  stackAbove (join p entry)
             (match localIgnore with
              | Some m => stack ++ [mkEntry p m]
              | None => stack
              end).
Proof.
  intros Hn Hs.
  assert (Hold : stackAbove (join p entry) stack).
  { eapply Forall_impl; [exact Hs|]. intros e [Hb|(c & rest & Hp & Hc)].
    - exists entry, []. unfold join. rewrite Hb. auto.
    - exists c, (rest ++ [entry]). unfold join. rewrite Hp, <- app_assoc.
      auto. }
  destruct localIgnore as [m|]; [|exact Hold].
  apply Forall_app. split; [exact Hold|].
  constructor; [|constructor]. exists entry, []. auto.
Qed.

Lemma allEntries_Forall (P : jsstring -> FsEntry -> Prop) es :
  allEntries P es <-> Forall (fun e => P (fst e) (snd e)) es.
Proof.
  induction es as [|[nm below] es IH]; cbn.
  - split; [constructor | auto].
  - rewrite IH. split.
    + intros [H1 H2]. constructor; assumption.
    + intros H. inversion H; subst. auto.
Qed.

(** Below the root: with every base of the stack above the path. *)
Lemma buildNode_returns : forall e p rel stack,
  streamsEnd e -> namesAccepted e -> stackAbove p stack ->
  exists r, buildNode localeCompare e p rel stack = Ok r.
Proof.
  induction e as [|opened chunks fin|li|li es IH] using FsEntry_ind';
    intros p rel stack Hs Hn Hst.
  - eexists. reflexivity.
  - rewrite buildNode_file, (stackAbove_returns p false stack Hst).
    cbn in Hs. subst fin.
    destruct (shouldIgnorePath p false stack); [eexists; reflexivity|].
    destruct (isTextFile opened); eexists; reflexivity.
  - cbn. rewrite (stackAbove_returns p true stack Hst).
    destruct (truthy rel); [destruct (shouldIgnorePath p true stack)|];
      eexists; reflexivity.
  - rewrite buildNode_directory, (stackAbove_returns p true stack Hst).
    assert (Hkids : exists cs,
      eachEntry
        (fun entry below =>
           buildNode localeCompare below (join p entry)
                     (entryRelative rel entry)
                     (match li with
                      | Some m => stack ++ [mkEntry p m]
                      | None => stack
                      end)) es [] = Ok cs).
    { apply eachEntry_returns.
      apply streamsEnd_directory in Hs.
      cbn [namesAccepted] in Hn. apply allEntries_Forall in Hn.
      rewrite Forall_forall in IH, Hs, Hn. apply Forall_forall.
      intros [entry below] Hin. cbn [fst snd].
      destruct (Hn _ Hin) as [Hname Hbelow]. cbn [fst snd] in Hname, Hbelow.
      destruct (IH _ Hin (join p entry) (entryRelative rel entry)
                   (match li with
                    | Some m => stack ++ [mkEntry p m]
                    | None => stack
                    end) (Hs _ Hin) Hbelow) as [r Hr].
      - apply stackAbove_child; [exact Hname|].
        eapply Forall_impl; [exact Hst|]. intros e0 H0. right. exact H0.
      - cbn [snd] in Hr. rewrite Hr. discriminate. }
    destruct Hkids as [cs Hcs].
    destruct (truthy rel); [destruct (shouldIgnorePath p true stack)|];
      try (eexists; reflexivity); rewrite Hcs; eexists; reflexivity.
Qed.

(** X28. [buildFileTree] on a directory is rejected only through a read
    stream that ends in an error or through a name that the path check
    of the ignore package refuses: when no stream below the root errs
    and every name below it is an accepted one, it returns, whatever is
    inaccessible, unreadable or ignored on the way. *)
Theorem buildFileTree_returns isGit workspaceName rootPath rootMatcher li es :
  streamsEnd (Directory li es) -> namesAccepted (Directory li es) ->
  exists r,
    buildFileTree localeCompare isGit workspaceName rootPath rootMatcher
                  (Directory li es) = Ok r.
Proof.
  intros Hs Hn. unfold buildFileTree.
  destruct isGit; cbn [negb]; [|eexists; reflexivity].
  destruct es as [es|]; [|eexists; reflexivity].
  rewrite buildNode_directory. cbn [truthy].
  assert (Hkids : exists cs,
    eachEntry
      (fun entry below =>
         buildNode localeCompare below (join rootPath entry)
                   (entryRelative [] entry)
                   (match li with
                    | Some m => [mkEntry rootPath rootMatcher]
                                ++ [mkEntry rootPath m]
                    | None => [mkEntry rootPath rootMatcher]
                    end)) es [] = Ok cs).
  { apply eachEntry_returns.
    apply streamsEnd_directory in Hs.
    cbn [namesAccepted] in Hn. apply allEntries_Forall in Hn.
    rewrite Forall_forall in Hs, Hn. apply Forall_forall.
    intros [entry below] Hin. cbn [fst snd].
    destruct (Hn _ Hin) as [Hname Hbelow]. cbn [fst snd] in Hname, Hbelow.
    destruct (buildNode_returns below (join rootPath entry)
                (entryRelative [] entry)
                (match li with
                 | Some m => [mkEntry rootPath rootMatcher]
                             ++ [mkEntry rootPath m]
                 | None => [mkEntry rootPath rootMatcher]
                 end) (Hs _ Hin) Hbelow) as [r Hr].
    - apply stackAbove_child; [exact Hname|].
      constructor; [left; reflexivity | constructor].
    - rewrite Hr. discriminate. }
  destruct Hkids as [cs Hcs]. rewrite Hcs. eexists. reflexivity.
Qed.

(** X29. Outside a git repository no tree is built.  Inside one, the
    root folder is never ignored, whatever the ignore rules say about
    it: if its entries can be listed and the walk is not rejected, the
    result is a folder node named after the workspace folder, with the
    root path as its path. *)
Theorem buildFileTree_root workspaceName rootPath rootMatcher fs :
  buildFileTree localeCompare false workspaceName rootPath rootMatcher fs
  = Ok None /\
  forall li es,
    fs = Directory li (Some es) ->
    buildFileTree localeCompare true workspaceName rootPath rootMatcher fs
    = Rejected \/
    exists node,
      buildFileTree localeCompare true workspaceName rootPath rootMatcher fs
      = Ok (Some node) /\
      name node = workspaceName /\ type node = Folder /\
      Tree.path node = render rootPath /\
      forall root,
        buildNode localeCompare fs rootPath [] [mkEntry rootPath rootMatcher]
        = Ok (Some root) -> children node = children root.
Proof.
  split; [reflexivity|]. intros li es ->.
  unfold buildFileTree. cbn [negb]. rewrite buildNode_directory.
  cbn [truthy].
  destruct (eachEntry _ es []) as [cs|]; [right | left; reflexivity].
  eexists. split; [reflexivity|]. cbn. repeat split.
  intros root E. inversion E. reflexivity.
Qed.

End Shape.

Lemma buildNode_shape_witness :
  let lc := fun _ _ : jsstring => 0 in
  let e := RegularFile (Some [97; 10]) [[97; 10]] CountLines.End in
  let p := [str "repo"; str "a.txt"] in
  let node := mkFileNode (str "a.txt") (render p) File (Some true) (Some 1)
                         None None in
  buildNode lc e p (str "a.txt") [] = Ok (Some node) /\ builtAt p node.
Proof.
  intros lc e p node.
  assert (H : buildNode lc e p (str "a.txt") [] = Ok (Some node))
    by (vm_compute; reflexivity).
  split; [exact H|]. exact (buildNode_shape lc e p (str "a.txt") [] node H).
Defined.

(** A name that begins with a backslash reaches [test] as a path that
    begins with a slash: the test throws and the walk is rejected,
    although nothing is wrong with the file. *)
Lemma backslash_name_rejects :
  buildFileTree (fun _ _ => 0) true (str "ws") [str "repo"]
    (fun _ => mkTest false false)
    (Directory None
       (Some [([BACKSLASH; 120],
               RegularFile (Some [104; 105]) [[104; 105]] CountLines.End)]))
  = Rejected.
Proof. reflexivity. Qed.

Lemma buildFileTree_returns_witness :
  let lc := fun _ _ : jsstring => 0 in
  let fs := Directory None
              (Some [(str ".gitignore", Inaccessible);
                     (str "b", Directory None None);
                     (str "c", RegularFile (Some [104; 105]) [[104; 105]]
                                           CountLines.End)]) in
  streamsEnd fs /\ namesAccepted fs /\
  exists r,
    buildFileTree lc true (str "ws") [str "repo"] (fun _ => mkTest false false)
                  fs = Ok r.
Proof.
  intros lc fs.
  assert (H : streamsEnd fs) by (cbn; tauto).
  assert (Hn : namesAccepted fs) by (cbn; tauto).
  split; [exact H|]. split; [exact Hn|].
  exact (buildFileTree_returns lc true (str "ws") [str "repo"]
           (fun _ => mkTest false false) None _ H Hn).
Defined.

End BuildMore.
